(** * MCP adapters for LangChain.js: tool adapter and multi-server client

    A shallow embedding of [src/tools.ts] (result conversion, schema
    normalisation, input normalisation, the tool adapter's [_call]), of the
    multi-server client ([MultiServerMCPClient]) and of the deadline race of
    [listResources], together with the properties stated about them. *)

From Stdlib Require Import ZArith Lia Ascii String List Bool.
From stdpp Require Import base option list strings pretty gmap.

#[local] Set Warnings "-register-all".
Local Open Scope string_scope.

(** ** JavaScript values without identity

    Values that are passed around by content only (call results, raw tool
    inputs, parsed JSON text).  Objects keep their entries in insertion order,
    as [Object.entries] and [JSON.stringify] see them. *)

Inductive jsval : Type :=
| JUndef
| JNull
| JBool (b : bool)
| JNum (z : Z)
| JStr (s : string)
| JArr (l : list jsval)
| JObj (l : list (string * jsval)).

(** [!!v] of JavaScript: everything is truthy except [undefined], [null],
    [false], [0] and the empty string. *)
Definition truthy (v : jsval) : bool :=
  match v with
  | JUndef | JNull => false
  | JBool b => b
  | JNum z => negb (z =? 0)%Z
  | JStr s => negb (String.eqb s "")
  | JArr _ | JObj _ => true
  end.

(** The double quote of the log lines. *)
Definition dq : string := String (ascii_of_nat 34) EmptyString.

(** What can be thrown, as far as the adapter tells it apart with
    [instanceof]: its own [ToolException], an [Error] whose name is "Error", a
    [ZodError], an instance of [Error] with any other name (a [TypeError], the
    SDK's [McpError]), and a value that is no [Error], given by what
    [String] makes of it. *)
Inductive exn : Type :=
| ToolException (message : string)
| Error (message : string)
| ZodError (message : string)
| OtherError (name message : string)
| NonError (shown : string).

(** The state in which an awaited promise ends up. *)
Inductive promise (A : Type) : Type :=
| Fulfilled (a : A)
| Rejected (e : exn)
| Pending.
Arguments Fulfilled {A} a.
Arguments Rejected {A} e.
Arguments Pending {A}.

(** Synchronous code that may [throw]. *)
Inductive thrown (A : Type) : Type :=
| Return (a : A)
| Throw (e : exn).
Arguments Return {A} a.
Arguments Throw {A} e.

(** ** Result conversion ([_convertCallToolResult], [MCPToolAdapter._call]) *)
Module ToolResult.

(** [interface ContentItem { type: string; text?: string; [key]: unknown }] *)
Record ContentItem : Type := mkItem {
  type : string;
  text : option string;
  rest : list (string * jsval)
}.

(** [content: ContentItem[] | unknown]: an array of items, or anything that
    is not an array. *)
Inductive content : Type :=
| Items (l : list ContentItem)
| Other (v : jsval).

(** [interface CallToolResult { isError?: boolean; content: ... }] *)
Record CallToolResult : Type := mkResult {
  isError : option bool;
  content_of : content
}.

(** What [_convertCallToolResult] can return ([unknown] in the source). *)
Inductive converted : Type :=
| CText (s : string)
| CItem (i : ContentItem)
| CItems (l : list ContentItem)
| CResult (r : CallToolResult).

Definition is_text (item : ContentItem) : bool := String.eqb (type item) "text".

(** [result.content.find(item => item.type === 'text')] *)
Definition find_text (l : list ContentItem) : option ContentItem :=
  List.find is_text l.

Definition flag (r : CallToolResult) : bool :=
  match isError r with Some b => b | None => false end.

(** [_convertCallToolResult] for a result object (the [!result] test is made
    by the caller's own guard in [_call]). *)
Definition _convertCallToolResult (result : CallToolResult) : thrown converted :=
  if flag result then
    match content_of result with
    | Items l =>
        match find_text l with
        | Some textContent =>
            match text textContent with
            | Some t =>
                if negb (String.eqb t "") then Throw (ToolException t)
                else Throw (ToolException "Tool execution failed")
            | None => Throw (ToolException "Tool execution failed")
            end
        | None => Throw (ToolException "Tool execution failed")
        end
    | Other _ => Throw (ToolException "Tool execution failed")
    end
  else
    match content_of result with
    | Items l =>
        match find_text l with
        | Some {| text := Some t |} => Return (CText t)
        | _ =>
            match l with
            | [single] => Return (CItem single)
            | _ => Return (CItems l)
            end
        end
    | Other _ => Return (CResult result)
    end.

(** [String(v)] on what the conversion returns: an object prints as
    [[object Object]], an array joins its elements with commas. *)
Fixpoint join_objects (n : nat) : string :=
  match n with
  | O => ""
  | S O => "[object Object]"
  | S m => "[object Object]," ++ join_objects m
  end.

(** An item with a property [toString] of its own.  The items are data, so
    that property cannot be called, and [String(item)] then throws a
    [TypeError] instead of reaching [Object.prototype.toString]. *)
Definition own_toString (item : ContentItem) : bool :=
  existsb (fun kv => String.eqb (fst kv) "toString") (rest item).

(** The [TypeError] of a failed conversion to a string, with the message
    that Node gives it. *)
Definition conversion_error : exn :=
  OtherError "TypeError" "Cannot convert object to primitive value".

Definition String_of (c : converted) : thrown string :=
  match c with
  | CText s => Return s
  | CItem item =>
      if own_toString item then Throw conversion_error else Return "[object Object]"
  | CItems l =>
      if existsb own_toString l then Throw conversion_error
      else Return (join_objects (length l))
  | CResult _ => Return "[object Object]"
  end.

(** A value that is not an array. *)
Inductive not_array : Type :=
| NUndef
| NNull
| NBool (b : bool)
| NNum (z : Z)
| NStr (s : string)
| NObj (l : list (string * jsval)).

Definition value_of (v : not_array) : jsval :=
  match v with
  | NUndef => JUndef
  | NNull => JNull
  | NBool b => JBool b
  | NNum z => JNum z
  | NStr s => JStr s
  | NObj l => JObj l
  end.

(** What [client.callTool] resolves to: nothing usable, or an object with an
    arbitrary [isError] and a [content] that is an array of items or a value
    that is not an array (a missing one is [undefined]). *)
Inductive payload : Type :=
| RawItems (l : list ContentItem)
| RawOther (v : not_array).

Record raw_result : Type := mkRaw {
  raw_isError : jsval;
  raw_content : payload
}.

(** [{ isError: result.isError === true, content: result.content || [] }] *)
Definition typedResult (r : raw_result) : CallToolResult :=
  {| isError := Some (match raw_isError r with JBool true => true | _ => false end);
     content_of := match raw_content r with
                   | RawItems l => Items l
                   | RawOther v =>
                       if truthy (value_of v) then Other (value_of v) else Items []
                   end |}.

(** The [catch] block of [_call]. *)
Definition rethrow (name : string) (e : exn) : exn :=
  match e with
  | ToolException m => ToolException m
  | Error m | ZodError m | OtherError _ m =>
      ToolException ("Error calling tool " ++ name ++ ": " ++ m)
  | NonError s => ToolException ("Unknown error calling tool " ++ name ++ ": " ++ s)
  end.

(** [MCPToolAdapter._call]: [client] is [None] for a missing client, and
    otherwise tells how the one [callTool] request ends. *)
Definition _call (name : string) (client : option (promise (option raw_result)))
  : promise string :=
  match client with
  | None =>
      Rejected (rethrow name (ToolException
        ("Cannot execute tool " ++ name ++ ": MCP client is not available")))
  | Some Pending => Pending
  | Some (Rejected e) => Rejected (rethrow name e)
  | Some (Fulfilled None) => Fulfilled ""
  | Some (Fulfilled (Some result)) =>
      match _convertCallToolResult (typedResult result) with
      | Return processedResult =>
          match String_of processedResult with
          | Return finalResult => Fulfilled finalResult
          | Throw e => Rejected (rethrow name e)
          end
      | Throw e => Rejected (rethrow name e)
      end
  end.

(** The message an error result is rejected with. *)
Definition error_message (c : payload) : string :=
  match c with
  | RawItems l =>
      match find_text l with
      | Some {| text := Some t |} => if String.eqb t "" then "Tool execution failed" else t
      | _ => "Tool execution failed"
      end
  | RawOther _ => "Tool execution failed"
  end.

Lemma typedResult_flag (r : raw_result) :
  flag (typedResult r) = true <-> raw_isError r = JBool true.
Proof.
  destruct r as [e c]; cbn. destruct e as [| |[|]| | | |]; cbn; split; congruence.
Qed.

Lemma find_text_is_text (l : list ContentItem) (item : ContentItem) :
  find_text l = Some item -> type item = "text".
Proof.
  intros H. apply List.find_some in H as [_ H].
  unfold is_text in H. now apply String.eqb_eq in H.
Qed.

(** An error result in the adapter of [tools.ts]: it is rejected with the
    text of the first text item when that text is present and not empty, and
    with "Tool execution failed" in every other case. *)
Lemma full_adapter_error_result (name : string) (r : raw_result) :
  raw_isError r = JBool true ->
  _call name (Some (Fulfilled (Some r)))
    = Rejected (ToolException (error_message (raw_content r))).
Proof.
  intros He. unfold _call, _convertCallToolResult.
  rewrite (proj2 (typedResult_flag r) He).
  destruct r as [e c]; cbn. destruct c as [l|v]; cbn.
  - destruct (find_text l) as [[ty [t|] rs]|]; cbn; try reflexivity.
    destruct (String.eqb t ""); reflexivity.
  - destruct (truthy (value_of v)); reflexivity.
Qed.

(** C3, as stated, fails: with two text items the first text is returned,
    not the full ordered content list. *)
Lemma two_text_items_first_wins :
  let l := [mkItem "text" (Some "a") []; mkItem "text" (Some "b") []] in
  _convertCallToolResult (mkResult (Some false) (Items l)) = Return (CText "a") /\
  _convertCallToolResult (mkResult (Some false) (Items l)) <> Return (CItems l) /\
  _call "add" (Some (Fulfilled (Some (mkRaw (JBool false) (RawItems l)))))
    = Fulfilled "a".
Proof. cbn. repeat split; congruence. Qed.

(** C3 (amended): for a result without the error flag, the conversion returns
    the text of the first text-type item verbatim whenever that item carries
    a text, however many other items there are; when there is no text-type
    item (or the first one has no text) a single item is returned by itself
    and any other list is returned whole and in order; a result whose
    content is not a list is returned unchanged.  A response
    [{content:[{type:'text', text:'8'}]}] makes [_call] resolve to "8". *)
Theorem plain_result_conversion (result : CallToolResult) :
  flag result = false ->
  (forall l item t, content_of result = Items l -> find_text l = Some item ->
     text item = Some t -> _convertCallToolResult result = Return (CText t)) /\
  (forall l, content_of result = Items l ->
     (find_text l = None \/ exists item, find_text l = Some item /\ text item = None) ->
     _convertCallToolResult result =
       Return (match l with [single] => CItem single | _ => CItems l end)) /\
  (forall v, content_of result = Other v ->
     _convertCallToolResult result = Return (CResult result)) /\
  (forall name rs e, e <> JBool true ->
     _call name (Some (Fulfilled (Some (mkRaw e (RawItems [mkItem "text" (Some "8") rs])))))
       = Fulfilled "8").
Proof.
  intros Hf. unfold _convertCallToolResult. rewrite Hf. repeat split.
  - intros l item t -> Hfind Ht. rewrite Hfind.
    destruct item as [ty tx rs]; cbn in Ht; now subst tx.
  - intros l -> [Hn | (item & Hfind & Ht)].
    + rewrite Hn. now destruct l as [|a [|b l']].
    + rewrite Hfind. destruct item as [ty tx rs]; cbn in Ht; subst tx.
      now destruct l as [|a [|b l']].
  - now intros v ->.
  - intros name rs e He.
    destruct e as [| |[|]| | | |]; try reflexivity. now contradiction He.
Qed.

Lemma plain_result_conversion_witness :
  let result := mkResult None (Items [mkItem "text" (Some "8") []]) in
  flag result = false /\
  _convertCallToolResult result = Return (CText "8").
Proof.
  intros result. split; [reflexivity|].
  exact (proj1 (plain_result_conversion result eq_refl) _ _ _ eq_refl eq_refl eq_refl).
Defined.

(** Whatever the client does, a rejection of [_call] carries a
    [ToolException]: an exception of the tool passes through as it is, an
    [Error] is wrapped with the name of the tool in front of its message, and
    anything else that was thrown is reported as an unknown error. *)
Theorem call_rejects_with_tool_exceptions (name : string)
    (client : option (promise (option raw_result))) (e : exn) :
  _call name client = Rejected e ->
  (exists m, e = ToolException m) /\
  (forall m, client = Some (Rejected (ToolException m)) -> e = ToolException m) /\
  (forall m, client = Some (Rejected (Error m)) ->
     e = ToolException ("Error calling tool " ++ name ++ ": " ++ m)) /\
  (forall x, client = Some (Rejected (NonError x)) ->
     e = ToolException ("Unknown error calling tool " ++ name ++ ": " ++ x)).
Proof.
  intros H. split; [|repeat split; intros m ->; cbn in H; congruence].
  destruct client as [[[r|]|e0|]|]; cbn in H; try discriminate.
  - destruct (_convertCallToolResult (typedResult r)) as [c|e1].
    + destruct (String_of c) as [x|e1]; [discriminate|].
      injection H as <-. destruct e1; cbn; eauto.
    + injection H as <-. destruct e1; cbn; eauto.
  - injection H as <-. destruct e0; cbn; eauto.
  - injection H as <-. eauto.
Qed.

Lemma call_rejects_with_tool_exceptions_witness :
  _call "add" (Some (Rejected (Error "socket closed")))
    = Rejected (ToolException "Error calling tool add: socket closed") /\
  exists m, ToolException "Error calling tool add: socket closed" = ToolException m.
Proof.
  split; [reflexivity|].
  exact (proj1 (call_rejects_with_tool_exceptions "add"
                  (Some (Rejected (Error "socket closed"))) _ eq_refl)).
Defined.

(** The content can be turned into a string: no item of a content list has a
    property [toString] of its own. *)
Definition printable (c : payload) : bool :=
  match c with
  | RawItems l => negb (existsb own_toString l)
  | RawOther _ => true
  end.

Lemma String_of_printable (l : list ContentItem) (c : converted) :
  existsb own_toString l = false ->
  c = CItems l \/ (exists item, l = [item] /\ c = CItem item) ->
  exists s, String_of c = Return s.
Proof.
  intros Hp [->|(item & -> & ->)]; cbn.
  - rewrite Hp. eauto.
  - cbn in Hp. rewrite orb_false_r in Hp. rewrite Hp. eauto.
Qed.

(** Only the literal [true] is an error flag: with any other [isError] (a
    missing one, a truthy string, the number 1) the error path is not taken.
    The call resolves whenever the content can be turned into a string, and the
    only way it can be rejected is the [TypeError] of that conversion, wrapped
    by the [catch] block. *)
Theorem call_resolves_without_true_flag (name : string) (r : raw_result) :
  raw_isError r <> JBool true ->
  (printable (raw_content r) = true ->
     exists s, _call name (Some (Fulfilled (Some r))) = Fulfilled s) /\
  (forall e, _call name (Some (Fulfilled (Some r))) = Rejected e ->
     e = ToolException ("Error calling tool " ++ name
                        ++ ": Cannot convert object to primitive value")).
Proof.
  intros Hne.
  assert (Hf : flag (typedResult r) = false).
  { destruct (flag (typedResult r)) eqn:E; [|reflexivity].
    apply typedResult_flag in E. contradiction. }
  unfold _call, _convertCallToolResult. rewrite Hf.
  destruct r as [e c]. cbn [typedResult raw_content content_of].
  destruct c as [l|v]; cbn [printable].
  - split.
    + intros Hp. apply negb_true_iff in Hp.
      destruct (find_text l) as [[ty [t|] rs]|]; cbn [String_of]; eauto;
        destruct l as [|a [|b l']];
        match goal with
        | |- context [String_of ?c] =>
            destruct (String_of_printable _ c Hp) as [s ->]; eauto
        end.
    + intros e0.
      destruct (find_text l) as [[ty [t|] rs]|]; cbn [String_of]; try discriminate;
        destruct l as [|a [|b l']]; cbn [String_of];
        repeat match goal with
               | |- context [if ?b then _ else _] => destruct b
               end; cbn; intros H;
        first [discriminate H | injection H as <-; reflexivity].
  - split; [intros _|intros e0];
      destruct (truthy (value_of v)); cbn; eauto; discriminate.
Qed.

Lemma call_resolves_without_true_flag_witness :
  exists s, _call "add" (Some (Fulfilled (Some
              (mkRaw (JStr "true") (RawItems [mkItem "text" (Some "boom") []])))))
            = Fulfilled s.
Proof.
  apply (proj1 (call_resolves_without_true_flag "add"
           (mkRaw (JStr "true") (RawItems [mkItem "text" (Some "boom") []]))
           ltac:(discriminate))).
  reflexivity.
Defined.

Lemma join_objects_nonempty (n : nat) : n <> O -> join_objects n <> "".
Proof. destruct n as [|[|n]]; [congruence|discriminate|discriminate]. Qed.

(** A result without error flag and without any text item loses its content
    in [_call]: it resolves to one "[object Object]" per item, joined by
    commas, provided no item has a property [toString] of its own; if one has,
    the conversion to a string throws and the call is rejected.  A content
    that is missing or falsy counts as the empty list and resolves to the
    empty string. *)
Theorem call_without_text_prints_objects (name : string) (e : jsval)
    (l : list ContentItem) (v : not_array) :
  e <> JBool true ->
  (find_text l = None -> existsb own_toString l = false ->
     _call name (Some (Fulfilled (Some (mkRaw e (RawItems l)))))
       = Fulfilled (join_objects (length l))) /\
  (find_text l = None -> existsb own_toString l = true ->
     _call name (Some (Fulfilled (Some (mkRaw e (RawItems l)))))
       = Rejected (ToolException ("Error calling tool " ++ name
                                  ++ ": Cannot convert object to primitive value"))) /\
  (truthy (value_of v) = false ->
     _call name (Some (Fulfilled (Some (mkRaw e (RawOther v))))) = Fulfilled "").
Proof.
  intros Hne.
  assert (Hf : forall c, flag (typedResult (mkRaw e c)) = false).
  { intros c. destruct (flag _) eqn:E; [|reflexivity].
    apply typedResult_flag in E. contradiction. }
  split; [|split].
  - intros Hn Hp. unfold _call, _convertCallToolResult. rewrite Hf. cbn.
    rewrite Hn. destruct l as [|a [|b l']]; cbn in Hp |- *.
    + reflexivity.
    + rewrite orb_false_r in Hp. now rewrite Hp.
    + now rewrite Hp.
  - intros Hn Hp. unfold _call, _convertCallToolResult. rewrite Hf. cbn.
    rewrite Hn. destruct l as [|a [|b l']]; cbn in Hp |- *.
    + discriminate.
    + rewrite orb_false_r in Hp. now rewrite Hp.
    + now rewrite Hp.
  - intros Hv. unfold _call, _convertCallToolResult. rewrite Hf. cbn.
    now rewrite Hv.
Qed.

Lemma call_without_text_prints_objects_witness :
  _call "shot" (Some (Fulfilled (Some (mkRaw JUndef
     (RawItems [mkItem "image" None []; mkItem "image" None []])))))
    = Fulfilled "[object Object],[object Object]".
Proof.
  apply (proj1 (call_without_text_prints_objects "shot" JUndef
                  [mkItem "image" None []; mkItem "image" None []] NNull
                  ltac:(discriminate))); reflexivity.
Defined.

End ToolResult.

(** ** The multi-server client ([MultiServerMCPClient]) *)
Module Registry.

(** [type Connection = StdioConnection | SSEConnection | ProgrammaticConnection] *)
Inductive Connection : Type :=
| Stdio (command : string) (args : list jsval) (env : option jsval)
        (encoding : option string) (encodingErrorHandler : option string)
| SSE (url : string) (headers : option jsval) (useNodeEventSource : option bool)
| Programmatic (server : jsval).

(** ['k' in config] and [config.k] for a configuration object; an array has
    none of the keys that are asked for. *)
Fixpoint assoc (k : string) (l : list (string * jsval)) : option jsval :=
  match l with
  | [] => None
  | (k', v) :: l' => if String.eqb k k' then Some v else assoc k l'
  end.

Definition field (config : jsval) (k : string) : option jsval :=
  match config with
  | JObj l => assoc k l
  | _ => None
  end.

Definition is_object (v : jsval) : bool :=
  match v with JObj _ | JArr _ => true | _ => false end.

(** A cleanup closure: it remembers the server name it logs and the
    transport (or client) of the session it closes. *)
Record cleanup : Type := mkCleanup { server_name : string; session : nat }.

(** The instance fields of the client, the counter that gives every
    [new Client] its identity, the trace of cleanup invocations, and the
    log: the messages of the [logger.warn] and [logger.error] calls, in
    order. *)
Record registry : Type := mkRegistry {
  clients : gmap string nat;
  serverNameToTools : gmap string (list string);
  connections : option (list (string * Connection));
  cleanupFunctions : list cleanup;
  next_session : nat;
  invoked : list cleanup;
  log : list string
}.

Definition warn (msg : string) (st : registry) : registry :=
  mkRegistry (clients st) (serverNameToTools st) (connections st)
    (cleanupFunctions st) (next_session st) (invoked st) (log st ++ [msg]).

(** One entry of the constructor's loop: the processed connection, or the
    warning with which the entry is skipped ([None] for a configuration that
    is not an object, which is skipped silently). *)
Definition process (serverName : string) (config : jsval)
  : option (Connection + string) :=
  if negb (is_object config) then None else
  match field config "transport" with
  | Some (JStr "sse") =>
      match field config "url" with
      | Some (JStr url) =>
          Some (inl (SSE url
            (match field config "headers" with
             | Some h => if is_object h then Some h else None
             | None => None
             end)
            (match field config "useNodeEventSource" with
             | Some (JBool b) => Some b
             | _ => None
             end)))
      | _ => Some (inr ("Invalid SSE connection for server " ++ dq ++ serverName
                        ++ dq ++ ": missing or invalid URL"))
      end
  | Some (JStr "programmatic") =>
      match field config "server" with
      | Some server =>
          if is_object server then Some (inl (Programmatic server))
          else Some (inr ("Invalid programmatic connection for server " ++ dq ++ serverName
                          ++ dq ++ ": missing or invalid server instance"))
      | None => Some (inr ("Invalid programmatic connection for server " ++ dq ++ serverName
                           ++ dq ++ ": missing or invalid server instance"))
      end
  | _ =>
      match field config "command" with
      | Some (JStr command) =>
          match field config "args" with
          | Some (JArr args) =>
              Some (inl (Stdio command args
                (match field config "env" with
                 | Some e => if is_object e then Some e else None
                 | None => None
                 end)
                (match field config "encoding" with
                 | Some (JStr e) => Some e
                 | _ => None
                 end)
                (match field config "encodingErrorHandler" with
                 | Some (JStr h) =>
                     if existsb (String.eqb h) ["strict"; "ignore"; "replace"]
                     then Some h else None
                 | _ => None
                 end)))
          | _ => Some (inr ("Invalid stdio connection for server " ++ dq ++ serverName
                            ++ dq ++ ": missing or invalid args"))
          end
      | _ => Some (inr ("Invalid stdio connection for server " ++ dq ++ serverName
                        ++ dq ++ ": missing or invalid command"))
      end
  end.

(** The constructor's loop over [Object.entries(connections)]: the processed
    connections and the warnings, both in order. *)
Fixpoint process_all (entries : list (string * jsval))
  : list (string * Connection) * list string :=
  match entries with
  | [] => ([], [])
  | (serverName, config) :: rest =>
      let '(cs, ws) := process_all rest in
      match process serverName config with
      | Some (inl c) => ((serverName, c) :: cs, ws)
      | Some (inr w) => (cs, w :: ws)
      | None => (cs, ws)
      end
  end.

(** [new MultiServerMCPClient(connections?)] *)
Definition constructor (connections : option (list (string * jsval))) : registry :=
  match connections with
  | None => mkRegistry ∅ ∅ None [] 0 [] []
  | Some entries =>
      let '(cs, ws) := process_all entries in
      mkRegistry ∅ ∅ (Some cs) [] 0 [] ws
  end.

(** [Error.prototype.toString]: the name, a colon and the message; the name
    alone when the message is empty, the message alone when the name is. *)
Definition error_toString (name message : string) : string :=
  if String.eqb name "" then message
  else if String.eqb message "" then name
  else name ++ ": " ++ message.

(** [String(error)] as the log lines interpolate it. *)
Definition show_exn (e : exn) : string :=
  match e with
  | ToolException m => error_toString "ToolException" m
  | Error m => error_toString "Error" m
  | ZodError m => error_toString "ZodError" m
  | OtherError name m => error_toString name m
  | NonError s => s
  end.

#[global] Instance cleanup_eq_dec : EqDecision cleanup.
Proof. solve_decision. Defined.

(** The sessions that are still open: those whose cleanup is stored and has
    not been invoked. *)
Definition live (st : registry) : list cleanup :=
  List.filter (fun c => negb (bool_decide (c ∈ invoked st))) (cleanupFunctions st).

(** The transport that a spec asks for: ['sse'], ['programmatic'], and stdio
    for everything else. *)
Definition is_sse (config : jsval) : bool :=
  match field config "transport" with
  | Some (JStr s) => String.eqb s "sse"
  | _ => false
  end.

Definition is_programmatic (config : jsval) : bool :=
  match field config "transport" with
  | Some (JStr s) => String.eqb s "programmatic"
  | _ => false
  end.

(** The spec [config] has what the connection [c] needs: the URL of an SSE
    connection, the server instance of a programmatic one, the command and
    the argument list of a stdio one. *)
Definition complete (config : jsval) (c : Connection) : Prop :=
  match c with
  | SSE url _ _ => is_sse config = true /\ field config "url" = Some (JStr url)
  | Programmatic server =>
      is_programmatic config = true /\ field config "server" = Some server /\
      is_object server = true
  | Stdio command args _ _ _ =>
      is_sse config = false /\ is_programmatic config = false /\
      field config "command" = Some (JStr command) /\
      field config "args" = Some (JArr args)
  end.

(** How a server behaves when it is connected to: whether opening the
    transport and the handshake ([client.connect]) go through, what
    [client.listTools] answers (the names of the listed tools, the empty
    string for a tool without a name), whether the [eventsource] package can
    be imported, and the warnings and errors that the conversion of a listed
    tool writes to the log. *)
Record behaviour : Type := mkBehaviour {
  connect : thrown unit;
  listTools : thrown (list string);
  eventsource : thrown unit;
  conversion_log : string -> list string
}.

(** [loadMcpTools]: a failing [listTools] is caught and gives no tools, and a
    listed tool without a name is skipped. *)
Definition loadMcpTools (b : behaviour) : list string :=
  match listTools b with
  | Return toolsInfo => List.filter (fun name => negb (String.eqb name "")) toolsInfo
  | Throw _ => []
  end.

(** The warnings and errors that [loadMcpTools] writes: one for a failing
    [listTools], one for every tool without a name, and for a named tool what
    its conversion writes. *)
Definition loadMcpTools_log (b : behaviour) : list string :=
  match listTools b with
  | Return toolsInfo =>
      List.flat_map
        (fun name =>
           if String.eqb name "" then ["Skipping tool with missing name"]
           else conversion_log b name)
        toolsInfo
  | Throw _ => ["Failed to list MCP tools:"]
  end.

(** The warning of the SSE branch: custom headers are to be sent through the
    [eventsource] package and the package cannot be imported. *)
Definition eventsource_log (serverName : string) (c : Connection) (b : behaviour)
  : list string :=
  match c with
  | SSE _ (Some headers) (Some true) =>
      if truthy headers then
        match eventsource b with
        | Throw e =>
            ["Failed to load eventsource package for server " ++ dq ++ serverName ++ dq
             ++ ". Headers may not be applied to SSE connection: " ++ show_exn e]
        | Return _ => []
        end
      else []
  | _ => []
  end.

Section Run.
Variable world : string -> Connection -> behaviour.
Variable cleanup_throws : cleanup -> option exn.

(** The body of the [try] block of one iteration of
    [initializeConnections]: the state it leaves behind and the exception
    that ended it, if any. *)
Definition connect_one (st : registry) (serverName : string) (c : Connection)
  : registry * option exn :=
  let client := next_session st in
  let log0 := (log st ++ eventsource_log serverName c (world serverName c))%list in
  match connect (world serverName c) with
  | Throw e =>
      (mkRegistry (clients st) (serverNameToTools st) (connections st)
                  (cleanupFunctions st) (S client) (invoked st) log0, Some e)
  | Return _ =>
      let tools := loadMcpTools (world serverName c) in
      (mkRegistry (<[serverName := client]> (clients st))
                  (<[serverName := tools]> (serverNameToTools st))
                  (connections st)
                  (cleanupFunctions st ++ [mkCleanup serverName client])
                  (S client) (invoked st)
                  (log0 ++ loadMcpTools_log (world serverName c))%list, None)
  end.

(** The [for ... of Object.entries(this.connections)] loop with its
    [try]/[catch]. *)
Fixpoint connect_each (l : list (string * Connection)) (st : registry) : registry :=
  match l with
  | [] => st
  | (serverName, c) :: rest =>
      match connect_one st serverName c with
      | (st', None) => connect_each rest st'
      | (st', Some e) =>
          connect_each rest
            (warn ("Failed to connect to server " ++ dq ++ serverName ++ dq ++ ": "
                   ++ show_exn e) st')
      end
  end.

(** [initializeConnections]: the state afterwards and what the call
    produces. *)
Definition initializeConnections (st : registry)
  : registry * thrown (gmap string (list string)) :=
  match connections st with
  | None => (warn "No connections to initialize" st, Return ∅)
  | Some l =>
      let st' := connect_each l st in
      (st', Return (serverNameToTools st'))
  end.

(** [getClient] *)
Definition getClient (st : registry) (serverName : string) : option nat :=
  clients st !! serverName.

(** The loop of [close]: every cleanup is awaited inside its own
    [try]/[catch]. *)
Fixpoint run_cleanups (l : list cleanup) (st : registry) : registry :=
  match l with
  | [] => st
  | c :: rest =>
      let st1 := mkRegistry (clients st) (serverNameToTools st) (connections st)
                   (cleanupFunctions st) (next_session st) (invoked st ++ [c])
                   (log st) in
      run_cleanups rest
        (match cleanup_throws c with
         | Some e => warn ("Error during cleanup: " ++ show_exn e) st1
         | None => st1
         end)
  end.

(** [close] *)
Definition close (st : registry) : registry :=
  let st' := run_cleanups (cleanupFunctions st) st in
  mkRegistry ∅ ∅ (connections st') [] (next_session st') (invoked st') (log st').

Definition with_connections (l : list (string * Connection)) (st : registry)
  : registry :=
  mkRegistry (clients st) (serverNameToTools st) (Some l)
    (cleanupFunctions st) (next_session st) (invoked st) (log st).

(** [connectToServerViaStdio] *)
Definition connectToServerViaStdio (st : registry) (serverName command : string)
    (args : list jsval) (env : option jsval) :=
  initializeConnections
    (with_connections [(serverName, Stdio command args env None None)] st).

(** [connectToServerViaSSE] *)
Definition connectToServerViaSSE (st : registry) (serverName url : string)
    (headers : option jsval) (useNodeEventSource : option bool) :=
  initializeConnections
    (with_connections
       [(serverName, SSE url headers
           (match useNodeEventSource with Some true => Some true | _ => None end))]
       st).

(** [connectToServer] *)
Definition connectToServer (st : registry) (serverName : string) (server : jsval) :=
  initializeConnections (with_connections [(serverName, Programmatic server)] st).

Lemma run_cleanups_fields (l : list cleanup) (st : registry) :
  invoked (run_cleanups l st) = (invoked st ++ l)%list /\
  next_session (run_cleanups l st) = next_session st /\
  connections (run_cleanups l st) = connections st.
Proof.
  revert st. induction l as [|c l IH]; intros st; cbn.
  - now rewrite app_nil_r.
  - destruct (cleanup_throws c);
      match goal with |- context [run_cleanups l ?s] =>
        destruct (IH s) as (-> & -> & ->) end;
      cbn; now rewrite <- app_assoc.
Qed.

(** C7: [close] invokes every stored cleanup exactly once, in order, whether
    or not some of them throw: the trace of invocations grows by exactly the
    stored list.  Afterwards the stored cleanups, the sessions and the
    tools are gone, so [getClient] answers [undefined] for every name. *)
Theorem close_runs_every_cleanup (st : registry) :
  invoked (close st) = (invoked st ++ cleanupFunctions st)%list /\
  cleanupFunctions (close st) = [] /\
  serverNameToTools (close st) = ∅ /\
  forall serverName, getClient (close st) serverName = None.
Proof.
  unfold close, getClient; cbn.
  destruct (run_cleanups_fields (cleanupFunctions st) st) as (-> & _ & _).
  repeat split.
Qed.

Definition connects (serverName : string) (p : string * Connection) : bool :=
  String.eqb serverName (fst p) &&
  match connect (world (fst p) (snd p)) with Return _ => true | Throw _ => false end.

Lemma connect_one_tools (st : registry) (serverName : string) (c : Connection) :
  match connect_one st serverName c with
  | (st', None) =>
      connects serverName (serverName, c) = true /\
      serverNameToTools st' =
        <[serverName := loadMcpTools (world serverName c)]> (serverNameToTools st)
  | (st', Some _) =>
      connects serverName (serverName, c) = false /\
      serverNameToTools st' = serverNameToTools st
  end.
Proof.
  unfold connect_one, connects; cbn. rewrite String.eqb_refl.
  destruct (connect (world serverName c)); cbn; auto.
Qed.

Lemma connect_each_tools (l : list (string * Connection)) (st : registry)
    (serverName : string) :
  if existsb (connects serverName) l
  then exists c, In (serverName, c) l /\
         connect (world serverName c) = Return tt /\
         serverNameToTools (connect_each l st) !! serverName
           = Some (loadMcpTools (world serverName c))
  else serverNameToTools (connect_each l st) !! serverName
         = serverNameToTools st !! serverName.
Proof.
  revert st. induction l as [|[n c] l IH]; intros st; [reflexivity|].
  cbn [existsb connect_each].
  pose proof (connect_one_tools st n c) as H1.
  destruct (connect_one st n c) as [st' [e|]].
  - destruct H1 as [Hc Ht].
    specialize (IH (warn ("Failed to connect to server " ++ dq ++ n ++ dq ++ ": "
                           ++ show_exn e) st')).
    assert (Hn : connects serverName (n, c) = false).
    { unfold connects in *; cbn in *. rewrite String.eqb_refl in Hc.
      destruct (connect (world n c)); [discriminate|].
      now rewrite andb_false_r. }
    rewrite Hn; cbn. destruct (existsb (connects serverName) l).
    + destruct IH as (c' & Hin & Hok & Hl). exists c'. auto using in_cons.
    + rewrite IH. cbn. now rewrite Ht.
  - destruct H1 as [Hc Ht]. specialize (IH st').
    destruct (existsb (connects serverName) l) eqn:El.
    + rewrite orb_true_r. destruct IH as (c' & Hin & Hok & Hl).
      exists c'. auto using in_cons.
    + rewrite orb_false_r. rewrite IH, Ht.
      destruct (connects serverName (n, c)) eqn:Ec.
      * apply andb_true_iff in Ec as [En Eok]. cbn in En, Eok.
        apply String.eqb_eq in En. subst n.
        exists c. split; [now left|]. rewrite lookup_insert_eq. split; [|reflexivity].
        destruct (connect (world serverName c)) as [[]|]; [reflexivity|discriminate].
      * rewrite lookup_insert_ne; [reflexivity|].
        intros <-. congruence.
Qed.

Lemma process_all_spec (entries : list (string * jsval)) :
  (forall serverName c, In (serverName, c) (fst (process_all entries)) ->
     exists config, In (serverName, config) entries /\
                    process serverName config = Some (inl c)) /\
  (forall serverName config w, In (serverName, config) entries ->
     process serverName config = Some (inr w) -> In w (snd (process_all entries))).
Proof.
  induction entries as [|[n config] entries [IH1 IH2]]; cbn.
  - split; intros; contradiction.
  - destruct (process_all entries) as [cs ws] eqn:E; cbn in *.
    split.
    + intros serverName c Hin.
      destruct (process n config) as [[c0|w0]|] eqn:Ep; cbn in Hin.
      * destruct Hin as [[= <- <-]|Hin]; [eauto|].
        destruct (IH1 _ _ Hin) as (cfg & ? & ?); eauto.
      * destruct (IH1 _ _ Hin) as (cfg & ? & ?); eauto.
      * destruct (IH1 _ _ Hin) as (cfg & ? & ?); eauto.
    + intros serverName cfg w [[= <- <-]|Hin] Hp.
      * rewrite Hp. now left.
      * specialize (IH2 _ _ _ Hin Hp).
        destruct (process n config) as [[c0|w0]|]; cbn; auto.
Qed.

Lemma process_all_registers (entries : list (string * jsval)) :
  forall serverName config c, In (serverName, config) entries ->
    process serverName config = Some (inl c) -> In (serverName, c) (fst (process_all entries)).
Proof.
  induction entries as [|[n cfg] entries IH]; cbn; [contradiction|].
  intros serverName config c [[= <- <-]|Hin] Hp.
  - destruct (process_all entries) as [cs ws]. rewrite Hp. now left.
  - specialize (IH _ _ _ Hin Hp). destruct (process_all entries) as [cs ws].
    destruct (process n cfg) as [[c0|w0]|]; cbn in *; auto.
Qed.

Lemma transport_cases {T : Type} (o : option jsval) (A B C : T) :
  match o with
  | Some (JStr "sse") => A
  | Some (JStr "programmatic") => B
  | _ => C
  end =
  match o with
  | Some (JStr s) =>
      if String.eqb s "sse" then A else if String.eqb s "programmatic" then B else C
  | _ => C
  end.
Proof.
  destruct o as [[| | | |s| |]|]; try reflexivity.
  do 13 (destruct s as [|[[|] [|] [|] [|] [|] [|] [|] [|]] s]; try reflexivity).
Qed.

Lemma process_transport (serverName : string) (config : jsval) :
  is_object config = true ->
  process serverName config =
    if is_sse config then
      match field config "url" with
      | Some (JStr url) =>
          Some (inl (SSE url
            (match field config "headers" with
             | Some h => if is_object h then Some h else None
             | None => None
             end)
            (match field config "useNodeEventSource" with
             | Some (JBool b) => Some b
             | _ => None
             end)))
      | _ => Some (inr ("Invalid SSE connection for server " ++ dq ++ serverName
                        ++ dq ++ ": missing or invalid URL"))
      end
    else if is_programmatic config then
      match field config "server" with
      | Some server =>
          if is_object server then Some (inl (Programmatic server))
          else Some (inr ("Invalid programmatic connection for server " ++ dq ++ serverName
                          ++ dq ++ ": missing or invalid server instance"))
      | None => Some (inr ("Invalid programmatic connection for server " ++ dq ++ serverName
                           ++ dq ++ ": missing or invalid server instance"))
      end
    else
      match field config "command" with
      | Some (JStr command) =>
          match field config "args" with
          | Some (JArr args) =>
              Some (inl (Stdio command args
                (match field config "env" with
                 | Some e => if is_object e then Some e else None
                 | None => None
                 end)
                (match field config "encoding" with
                 | Some (JStr e) => Some e
                 | _ => None
                 end)
                (match field config "encodingErrorHandler" with
                 | Some (JStr h) =>
                     if existsb (String.eqb h) ["strict"; "ignore"; "replace"]
                     then Some h else None
                 | _ => None
                 end)))
          | _ => Some (inr ("Invalid stdio connection for server " ++ dq ++ serverName
                            ++ dq ++ ": missing or invalid args"))
          end
      | _ => Some (inr ("Invalid stdio connection for server " ++ dq ++ serverName
                        ++ dq ++ ": missing or invalid command"))
      end.
Proof.
  intros Ho. unfold process, is_sse, is_programmatic. rewrite Ho, transport_cases.
  cbn [negb]. destruct (field config "transport") as [[| | | |s| |]|]; try reflexivity.
Qed.

(** What [process] makes of a spec that is an object. *)
Lemma process_object (serverName : string) (config : jsval) :
  is_object config = true ->
  (forall c, process serverName config = Some (inl c) -> complete config c) /\
  (forall c0, complete config c0 ->
     exists c, process serverName config = Some (inl c) /\ complete config c) /\
  (is_sse config = true -> (forall url, field config "url" <> Some (JStr url)) ->
     process serverName config =
       Some (inr ("Invalid SSE connection for server " ++ dq ++ serverName
                  ++ dq ++ ": missing or invalid URL"))) /\
  (is_sse config = false -> is_programmatic config = true ->
     (forall server, field config "server" = Some server -> is_object server = false) ->
     process serverName config =
       Some (inr ("Invalid programmatic connection for server " ++ dq ++ serverName
                  ++ dq ++ ": missing or invalid server instance"))) /\
  (is_sse config = false -> is_programmatic config = false ->
     (forall command, field config "command" <> Some (JStr command)) ->
     process serverName config =
       Some (inr ("Invalid stdio connection for server " ++ dq ++ serverName
                  ++ dq ++ ": missing or invalid command"))) /\
  (is_sse config = false -> is_programmatic config = false ->
     (exists command, field config "command" = Some (JStr command)) ->
     (forall args, field config "args" <> Some (JArr args)) ->
     process serverName config =
       Some (inr ("Invalid stdio connection for server " ++ dq ++ serverName
                  ++ dq ++ ": missing or invalid args"))).
Proof.
  intros Ho. rewrite (process_transport serverName config Ho).
  assert (Hx : is_sse config = true -> is_programmatic config = false).
  { unfold is_sse, is_programmatic.
    destruct (field config "transport") as [[| | | |s| |]|]; try discriminate.
    intros H. apply String.eqb_eq in H. now subst s. }
  split; [|split; [|split; [|split; [|split]]]].
  - intros c. destruct (is_sse config) eqn:Es; [|destruct (is_programmatic config) eqn:Ep].
    + destruct (field config "url") as [[| | | |url| |]|] eqn:Eu; try discriminate.
      intros [= <-]. cbn. auto.
    + destruct (field config "server") as [server|] eqn:Ev; [|discriminate].
      destruct (is_object server) eqn:E; [|discriminate]. intros [= <-]. cbn. auto.
    + destruct (field config "command") as [[| | | |command| |]|] eqn:Ec; try discriminate.
      destruct (field config "args") as [[| | | | |args|]|] eqn:Ea; try discriminate.
      intros [= <-]. cbn. auto.
  - intros c0 Hc. destruct c0 as [command args env enc h|url hd u|server]; cbn in Hc.
    + destruct Hc as (E1 & E2 & E3 & E4). rewrite E1, E2, E3, E4.
      eexists. split; [reflexivity|]. cbn. auto.
    + destruct Hc as (E1 & E2). rewrite E1, E2.
      eexists. split; [reflexivity|]. cbn. auto.
    + destruct Hc as (Hp & E2 & E3).
      destruct (is_sse config) eqn:Es; [rewrite (Hx eq_refl) in Hp; discriminate|].
      rewrite Hp, E2, E3. eexists. split; [reflexivity|]. cbn. auto.
  - intros -> Hu. destruct (field config "url") as [[| | | |url| |]|]; try reflexivity.
    now contradiction (Hu url).
  - intros -> -> Hs. destruct (field config "server") as [server|]; [|reflexivity].
    now rewrite (Hs server eq_refl).
  - intros -> -> Hc.
    destruct (field config "command") as [[| | | |command| |]|]; try reflexivity.
    now contradiction (Hc command).
  - intros -> -> [command ->] Ha.
    destruct (field config "args") as [[| | | | |args|]|]; try reflexivity.
    now contradiction (Ha args).
Qed.

(** Specs that are not objects leave no trace. *)
Lemma process_all_silent (entries : list (string * jsval)) :
  (forall serverName config, In (serverName, config) entries -> is_object config = false) ->
  process_all entries = ([], []).
Proof.
  induction entries as [|[n config] entries IH]; intros H; [reflexivity|].
  cbn [process_all]. rewrite IH by (intros; eapply H; right; eauto).
  unfold process. now rewrite (H n config (or_introl eq_refl)).
Qed.

Lemma connect_one_log (st : registry) (serverName : string) (c : Connection) :
  exists more, log (fst (connect_one st serverName c)) = (log st ++ more)%list /\
    (forall e, connect (world serverName c) = Return tt ->
       listTools (world serverName c) = Throw e -> In "Failed to list MCP tools:" more).
Proof.
  unfold connect_one. destruct (connect (world serverName c)) as [[]|e0]; cbn [fst log].
  - eexists. rewrite <- app_assoc. split; [reflexivity|]. intros e _ He.
    apply in_or_app. right. unfold loadMcpTools_log. rewrite He. now left.
  - eexists. split; [reflexivity|]. discriminate.
Qed.

(** The log only grows while the servers are connected to, and it records
    every connection that failed and every catalog that could not be
    fetched. *)
Lemma connect_each_log (l : list (string * Connection)) :
  forall st,
    (exists more, log (connect_each l st) = (log st ++ more)%list) /\
    (forall serverName c e, In (serverName, c) l ->
       connect (world serverName c) = Throw e ->
       In ("Failed to connect to server " ++ dq ++ serverName ++ dq ++ ": " ++ show_exn e)
          (log (connect_each l st))) /\
    (forall serverName c e, In (serverName, c) l ->
       connect (world serverName c) = Return tt ->
       listTools (world serverName c) = Throw e ->
       In "Failed to list MCP tools:" (log (connect_each l st))).
Proof.
  induction l as [|[n c] l IH]; intros st.
  - cbn. split; [exists []; now rewrite app_nil_r|]. split; intros; contradiction.
  - cbn [connect_each].
    destruct (connect_one_log st n c) as (more & Hl & Hcat).
    assert (Hnext : exists st1, connect_each ((n, c) :: l) st = connect_each l st1 /\
              (exists more1, log st1 = (log st ++ more1)%list) /\
              (forall e, connect (world n c) = Throw e ->
                 In ("Failed to connect to server " ++ dq ++ n ++ dq ++ ": " ++ show_exn e)
                    (log st1)) /\
              (forall e, connect (world n c) = Return tt ->
                 listTools (world n c) = Throw e ->
                 In "Failed to list MCP tools:" (log st1))).
    { cbn [connect_each]. unfold connect_one in *.
      destruct (connect (world n c)) as [[]|e0] eqn:Ec; cbn [fst log] in *.
      - eexists. split; [reflexivity|]. cbn [log]. split; [eauto|].
        split; [discriminate|]. intros e _ He. rewrite Hl. apply in_or_app. right.
        now apply (Hcat e).
      - eexists. split; [reflexivity|]. cbn [warn log]. split.
        + eexists. rewrite <- app_assoc. reflexivity.
        + split; [|discriminate]. intros e [= <-]. apply in_or_app. right. now left. }
    destruct Hnext as (st1 & E & (more1 & Hl1) & Hfail & Hlist).
    cbn [connect_each] in E. rewrite E.
    destruct (IH st1) as ((more2 & Hl2) & I2 & I3).
    assert (Hkeep : forall x, In x (log st1) -> In x (log (connect_each l st1))).
    { intros x Hx. rewrite Hl2. apply in_or_app. now left. }
    split; [exists (more1 ++ more2)%list; now rewrite Hl2, Hl1, app_assoc|].
    split.
    + intros serverName c' e [[= <- <-]|Hin] He; [apply Hkeep; now apply Hfail|].
      eapply I2; eauto.
    + intros serverName c' e [[= <- <-]|Hin] Hok He; [apply Hkeep; now apply (Hlist e)|].
      eapply I3; eauto.
Qed.


(** C8 (amended): the name-to-session lookup holds one session per name,
    the one connected last.  Connecting under a name that is already taken
    replaces the entry of the lookup, but the superseded session is not
    destroyed at that moment: no cleanup is invoked, its cleanup stays
    stored next to the new one, and it is invoked by the next [close]. *)
Theorem superseded_session_kept_until_close (st : registry)
    (serverName command : string) (args : list jsval) (env : option jsval) :
  connect (world serverName (Stdio command args env None None)) = Return tt ->
  let st' := fst (connectToServerViaStdio st serverName command args env) in
  getClient st' serverName = Some (next_session st) /\
  invoked st' = invoked st /\
  cleanupFunctions st' =
    (cleanupFunctions st ++ [mkCleanup serverName (next_session st)])%list /\
  (forall old, In old (cleanupFunctions st) ->
     In old (cleanupFunctions st') /\ In old (invoked (close st'))).
Proof.
  intros Hok st'.
  assert (E : exists lines, st' =
    mkRegistry (<[serverName := next_session st]> (clients st))
      (<[serverName := loadMcpTools (world serverName (Stdio command args env None None))]>
         (serverNameToTools st))
      (Some [(serverName, Stdio command args env None None)])
      (cleanupFunctions st ++ [mkCleanup serverName (next_session st)])
      (S (next_session st)) (invoked st) lines).
  { subst st'.
    unfold connectToServerViaStdio, initializeConnections, with_connections; cbn.
    unfold connect_one; cbn. rewrite Hok. eauto. }
  destruct E as [lines E].
  pose proof (proj1 (close_runs_every_cleanup st')) as Hinv.
  rewrite E in Hinv |- *. clear E st'. rewrite Hinv.
  unfold getClient; cbn. rewrite lookup_insert_eq.
  repeat split; try reflexivity.
  - apply in_or_app. now left.
  - apply in_or_app. right. apply in_or_app. now left.
Qed.

Lemma close_runs_every_cleanup_fields (st : registry) :
  invoked (close st) = (invoked st ++ cleanupFunctions st)%list /\
  connections (close st) = connections st.
Proof.
  unfold close; cbn.
  destruct (run_cleanups_fields (cleanupFunctions st) st) as (-> & _ & ->).
  split; reflexivity.
Qed.

(** Every session of the lookup has its cleanup stored. *)
Definition tracked (st : registry) : Prop :=
  forall serverName s, clients st !! serverName = Some s ->
    In (mkCleanup serverName s) (cleanupFunctions st).

Lemma connect_each_tracked (l : list (string * Connection)) :
  forall st, tracked st -> tracked (connect_each l st).
Proof.
  induction l as [|[n c] l IH]; intros st Ht; [exact Ht|].
  cbn [connect_each]. unfold connect_one.
  destruct (connect (world n c)); cbn.
  - apply IH. intros name s Hs; cbn in *.
    apply in_or_app. destruct (decide (name = n)) as [->|Hne].
    + rewrite lookup_insert_eq in Hs. injection Hs as <-. right. now left.
    + rewrite lookup_insert_ne in Hs by congruence. left. now apply Ht.
  - apply IH. exact Ht.
Qed.

(** The sessions that can be looked up are always among those that [close]
    releases: a freshly constructed client tracks every session, connecting
    keeps it so, and closing invokes the cleanup of every session that could
    be looked up before. *)
Theorem sessions_are_released (st : registry) :
  tracked st ->
  tracked (fst (initializeConnections st)) /\
  (forall serverName s, getClient st serverName = Some s ->
     In (mkCleanup serverName s) (invoked (close st))).
Proof.
  intros Ht. split.
  - unfold initializeConnections. destruct (connections st) as [l|]; cbn; [|exact Ht].
    now apply connect_each_tracked.
  - intros name s Hs. destruct (close_runs_every_cleanup_fields st) as [-> _].
    apply in_or_app. right. now apply Ht.
Qed.

(** A connection that fails changes nothing but the log: the sessions, the
    tools and the stored cleanups stay as they were.  The log gets the line
    that reports the failure with [String(error)], after the warning of an
    [eventsource] import that failed, if there was one; without such a
    warning it is the only new line. *)
Theorem failed_connection_changes_only_log (st : registry) (serverName : string)
    (c : Connection) (e : exn) :
  connect (world serverName c) = Throw e ->
  let st' := fst (initializeConnections (with_connections [(serverName, c)] st)) in
  let line := ("Failed to connect to server " ++ dq ++ serverName ++ dq ++ ": "
               ++ show_exn e)%string in
  clients st' = clients st /\
  serverNameToTools st' = serverNameToTools st /\
  cleanupFunctions st' = cleanupFunctions st /\
  invoked st' = invoked st /\
  log st' = (log st ++ eventsource_log serverName c (world serverName c) ++ [line])%list /\
  ((forall x, eventsource (world serverName c) <> Throw x) ->
     log st' = (log st ++ [line])%list) /\
  (forall command args env encoding handler, c = Stdio command args env encoding handler ->
     log st' = (log st ++ [line])%list).
Proof.
  intros He st' line. subst st' line.
  unfold initializeConnections, with_connections; cbn.
  unfold connect_one; cbn. rewrite He. cbn. rewrite <- app_assoc.
  repeat split.
  - intros Hx. unfold eventsource_log.
    destruct c as [| url [h|] [[|]|] |]; try reflexivity.
    destruct (truthy h); [|reflexivity].
    destruct (eventsource (world serverName (SSE url (Some h) (Some true)))) as [|x] eqn:E;
      [reflexivity|]. now contradiction (Hx x).
  - now intros command args env encoding handler ->.
Qed.

(** Closing twice is closing once: the second [close] finds no cleanup to
    invoke and leaves the state as the first one left it. *)
Theorem close_twice (st : registry) :
  close (close st) = close st /\
  invoked (close (close st)) = (invoked st ++ cleanupFunctions st)%list.
Proof.
  split; [reflexivity|].
  change (close (close st)) with (close st).
  apply close_runs_every_cleanup_fields.
Qed.

(** A convenience method replaces the configured connection set by its one
    connection, yet the sessions and tools that other names got earlier stay
    in the lookup. *)
Theorem convenience_connect_replaces_configuration (st : registry)
    (serverName command : string) (args : list jsval) (env : option jsval) :
  let st' := fst (connectToServerViaStdio st serverName command args env) in
  connections st' = Some [(serverName, Stdio command args env None None)] /\
  (forall other, other <> serverName ->
     getClient st' other = getClient st other /\
     serverNameToTools st' !! other = serverNameToTools st !! other).
Proof.
  intros st'. subst st'.
  unfold connectToServerViaStdio, initializeConnections, with_connections; cbn.
  unfold connect_one, getClient; cbn.
  destruct (connect (world serverName (Stdio command args env None None))); cbn.
  - split; [reflexivity|]. intros other Hne.
    rewrite !lookup_insert_ne by congruence. split; reflexivity.
  - split; [reflexivity|]. intros other Hne. split; reflexivity.
Qed.

(** The returned mapping of a freshly constructed client holds a server name
    only if a connection configured under that name went through. *)
Theorem returned_tools_come_from_connections (entries : list (string * jsval))
    (serverName : string) (tools : list string) :
  let st := constructor (Some entries) in
  serverNameToTools (fst (initializeConnections st)) !! serverName = Some tools ->
  exists cs c, connections st = Some cs /\ In (serverName, c) cs /\
    connect (world serverName c) = Return tt /\
    tools = loadMcpTools (world serverName c).
Proof.
  intros st. subst st. unfold constructor, initializeConnections.
  destruct (process_all entries) as [cs ws]; cbn.
  pose proof (connect_each_tools cs (mkRegistry ∅ ∅ (Some cs) [] 0 [] ws) serverName) as H.
  destruct (existsb (connects serverName) cs).
  - destruct H as (c & Hin & Hok & Hl). intros Ht. exists cs, c.
    repeat split; auto. congruence.
  - rewrite H. cbn. rewrite lookup_empty. discriminate.
Qed.

(** [loadMcpTools] never fails and loads exactly the named tools of the
    catalog, in the order of the catalog; when listing fails it loads
    nothing. *)
Theorem loadMcpTools_loads_named_tools (b : behaviour) :
  (forall name, In name (loadMcpTools b) -> name <> "") /\
  (forall toolsInfo, listTools b = Return toolsInfo ->
     sublist (loadMcpTools b) toolsInfo /\
     (forall name, In name toolsInfo -> name <> "" -> In name (loadMcpTools b)) /\
     (Forall (fun name => name <> "") toolsInfo -> loadMcpTools b = toolsInfo)) /\
  (forall e, listTools b = Throw e -> loadMcpTools b = []).
Proof.
  unfold loadMcpTools. split; [|split].
  - intros name. destruct (listTools b) as [l|]; [|contradiction].
    intros H. apply List.filter_In in H as [_ H].
    apply negb_true_iff in H. now apply String.eqb_neq in H.
  - intros l ->. split.
    { induction l as [|x l IH]; cbn; [constructor|].
      destruct (negb (x =? "")%string); now constructor. }
    split.
    + intros name Hin Hne. apply List.filter_In. split; [exact Hin|].
      apply negb_true_iff. now apply String.eqb_neq.
    + intros Hall. induction Hall as [|x l Hx Hl IH]; [reflexivity|]. cbn.
      apply String.eqb_neq in Hx. rewrite Hx. cbn. now rewrite IH.
  - now intros e ->.
Qed.

End Run.

(** A world in which every server connects and lists no tool, and no cleanup
    throws. *)
Definition quiet_world (serverName : string) (c : Connection) : behaviour :=
  mkBehaviour (Return tt) (Return []) (Return tt) (fun _ => []).


Lemma sessions_are_released_witness :
  let st := fst (connectToServerViaStdio quiet_world (constructor None)
                   "math" "python" [] None) in
  tracked st /\
  In (mkCleanup "math" 0) (invoked (close (fun _ => None) st)).
Proof.
  intros st.
  assert (Ht : tracked st).
  { apply (sessions_are_released quiet_world (fun _ => None)
             (with_connections [("math", Stdio "python" [] None None None)]
                (constructor None))).
    intros name s Hs. cbn in Hs. now rewrite lookup_empty in Hs. }
  split; [exact Ht|].
  apply (proj2 (sessions_are_released quiet_world (fun _ => None) st Ht) "math" 0).
  reflexivity.
Defined.

(** A world in which no server can be reached. *)
Definition dead_world (serverName : string) (c : Connection) : behaviour :=
  mkBehaviour (Throw (Error "ECONNREFUSED")) (Return []) (Return tt) (fun _ => []).

Lemma failed_connection_changes_only_log_witness :
  connect (dead_world "weather" (SSE "http://localhost:8000/sse" None None))
    = Throw (Error "ECONNREFUSED") /\
  clients (fst (initializeConnections dead_world
                  (with_connections [("weather", SSE "http://localhost:8000/sse" None None)]
                     (constructor None))))
    = clients (constructor None).
Proof.
  split; [reflexivity|].
  exact (proj1 (failed_connection_changes_only_log dead_world (constructor None)
                  "weather" (SSE "http://localhost:8000/sse" None None)
                  (Error "ECONNREFUSED") eq_refl)).
Defined.

Lemma returned_tools_come_from_connections_witness :
  let entries := [("math", JObj [("command", JStr "python"); ("args", JArr [])])] in
  serverNameToTools (fst (initializeConnections quiet_world (constructor (Some entries))))
    !! "math" = Some [] /\
  exists cs c, connections (constructor (Some entries)) = Some cs /\
    In ("math", c) cs /\ connect (quiet_world "math" c) = Return tt /\
    [] = loadMcpTools (quiet_world "math" c).
Proof.
  intros entries. split; [reflexivity|].
  exact (returned_tools_come_from_connections quiet_world entries "math" [] eq_refl).
Defined.

(** A spec whose transport is neither ['sse'] nor ['programmatic'] (in
    particular one without a transport) is a stdio spec: with a command and
    an argument list it is registered as such. *)
Theorem default_transport_is_stdio (serverName : string) (config : jsval)
    (command : string) (args : list jsval) :
  is_object config = true ->
  (forall s, field config "transport" = Some (JStr s) -> s <> "sse" /\ s <> "programmatic") ->
  field config "command" = Some (JStr command) ->
  field config "args" = Some (JArr args) ->
  exists env encoding handler,
    process serverName config = Some (inl (Stdio command args env encoding handler)).
Proof.
  intros Ho Ht Hc Ha. unfold process. rewrite transport_cases, Ho, Hc, Ha. cbn [negb].
  destruct (field config "transport") as [[| | | |s| |]|]; eauto.
  destruct (Ht s eq_refl) as [H1 H2].
  apply String.eqb_neq in H1, H2. rewrite H1, H2. eauto.
Qed.

Lemma default_transport_is_stdio_witness :
  let config := JObj [("command", JStr "python"); ("args", JArr [JStr "math_server.py"])] in
  is_object config = true /\
  exists env encoding handler,
    process "math" config
      = Some (inl (Stdio "python" [JStr "math_server.py"] env encoding handler)).
Proof.
  intros config. split; [reflexivity|].
  apply (default_transport_is_stdio "math" config "python" [JStr "math_server.py"]);
    try reflexivity.
  intros s Hs. discriminate Hs.
Defined.

Definition twice : registry :=
  let st1 := fst (connectToServerViaStdio quiet_world (constructor None)
                    "math" "python" [JStr "math_server.py"] None) in
  fst (connectToServerViaStdio quiet_world st1
         "math" "python" [JStr "math_server.py"] None).

(** C8, as stated, fails: after connecting twice under one name the first
    session is superseded in the lookup, yet no cleanup has been invoked and
    both sessions of that name are still open. *)
Lemma superseded_session_not_destroyed :
  getClient twice "math" = Some 1 /\
  invoked twice = [] /\
  live twice = [mkCleanup "math" 0; mkCleanup "math" 1].
Proof. repeat split; vm_compute; reflexivity. Qed.

Lemma superseded_session_kept_until_close_witness :
  let st := fst (connectToServerViaStdio quiet_world (constructor None)
                   "math" "python" [] None) in
  connect (quiet_world "math" (Stdio "python" [] None None None)) = Return tt /\
  getClient (fst (connectToServerViaStdio quiet_world st "math" "python" [] None)) "math"
    = Some 1.
Proof.
  intros st. split; [reflexivity|].
  exact (proj1 (superseded_session_kept_until_close quiet_world (fun _ => None)
                  st "math" "python" [] None eq_refl)).
Defined.

End Registry.

(** ** The simplified tool adapter

    The variant of the adapter whose [_convertCallToolResult] separates text
    from non-text content and whose tool accepts any arguments. *)
Module SimpleTools.

Import ToolResult.

Definition newline : string := String (ascii_of_nat 10) EmptyString.

(** [l.join('\n')] *)
Fixpoint join_lines (l : list string) : string :=
  match l with
  | [] => ""
  | [s] => s
  | s :: r => s ++ newline ++ join_lines r
  end.

(** [string | string[]]: the text output of the conversion. *)
Inductive text_output : Type :=
| One (s : string)
| Many (l : list string).

(** [content.type === 'text' && 'text' in content] *)
Definition has_text (item : ContentItem) : bool :=
  is_text item && bool_decide (is_Some (text item)).

Definition textContents (l : list ContentItem) : list ContentItem :=
  List.filter has_text l.

Definition nonTextContents (l : list ContentItem) : list ContentItem :=
  List.filter (fun item => negb (has_text item)) l.

(** [textContents.map(content => content.text)] *)
Definition textOutput (l : list ContentItem) : list string :=
  List.flat_map (fun item => match text item with Some t => [t] | None => [] end)
    (textContents l).

Definition show (o : text_output) : string :=
  match o with
  | One s => s
  | Many l => join_lines l
  end.

(** [_convertCallToolResult] of the simplified adapter. *)
Definition _convertCallToolResult (result : CallToolResult)
  : thrown (text_output * option (list ContentItem)) :=
  match content_of result with
  | Other _ => Return (One "", None)
  | Items l =>
      let finalTextOutput :=
        match textOutput l with
        | [s] => One s
        | out => Many out
        end in
      if flag result then Throw (ToolException (show finalTextOutput))
      else Return (finalTextOutput,
                   match nonTextContents l with
                   | [] => None
                   | others => Some others
                   end)
  end.

(** [MCPTool._call]: how the one [callTool] request ends decides the
    outcome. *)
Definition _call (name : string) (request : promise raw_result) : promise string :=
  match request with
  | Pending => Pending
  | Rejected (ToolException m) => Rejected (ToolException m)
  | Rejected e =>
      Rejected (ToolException ("Error calling tool " ++ name ++ ": " ++ Registry.show_exn e))
  | Fulfilled result =>
      match _convertCallToolResult (typedResult result) with
      | Return (textContent, _) => Fulfilled (show textContent)
      | Throw (ToolException m) => Rejected (ToolException m)
      | Throw e =>
          Rejected (ToolException ("Error calling tool " ++ name ++ ": "
                                   ++ Registry.show_exn e))
      end
  end.

Definition texts_of (c : payload) : list string :=
  match c with
  | RawItems l => textOutput l
  | RawOther _ => []
  end.

Lemma show_final (out : list string) :
  show (match out with
        | [] => Many []
        | [s] => One s
        | s :: s0 :: r => Many (s :: s0 :: r)
        end) = join_lines out.
Proof. now destruct out as [|s [|s' r]]. Qed.

(** The simplified adapter resolves to the texts of all text items, in order
    and one per line, whatever else the content holds; with the error flag it
    rejects with that same text as the message when the content is a list. *)
Theorem simple_call_joins_texts (name : string) (e : jsval) (l : list ContentItem) :
  _call name (Fulfilled (mkRaw e (RawItems l))) =
    match e with
    | JBool true => Rejected (ToolException (join_lines (textOutput l)))
    | _ => Fulfilled (join_lines (textOutput l))
    end.
Proof.
  unfold _call, _convertCallToolResult; cbn [typedResult raw_content content_of].
  unfold flag; cbn [isError raw_isError].
  destruct e as [| |[|]| | | |];
    cbn -[textOutput nonTextContents join_lines show]; now rewrite show_final.
Qed.

(** In the simplified adapter an error result whose content is truthy but not
    a list is not reported: the conversion returns before it looks at the
    error flag, so the call resolves to the empty string, while the full
    adapter rejects. *)
Theorem simple_call_swallows_error_without_list (name : string) (v : not_array) :
  truthy (value_of v) = true ->
  _call name (Fulfilled (mkRaw (JBool true) (RawOther v))) = Fulfilled "" /\
  ToolResult._call name (Some (Fulfilled (Some (mkRaw (JBool true) (RawOther v)))))
    = Rejected (ToolException "Tool execution failed").
Proof.
  intros Hv. unfold _call, ToolResult._call, _convertCallToolResult,
    ToolResult._convertCallToolResult; cbn. now rewrite Hv.
Qed.

Lemma simple_call_swallows_error_without_list_witness :
  _call "run" (Fulfilled (mkRaw (JBool true) (RawOther (NStr "stack trace"))))
    = Fulfilled "".
Proof.
  exact (proj1 (simple_call_swallows_error_without_list "run" (NStr "stack trace") eq_refl)).
Defined.

Lemma no_text_items (l : list ContentItem) :
  List.filter is_text l = [] -> List.filter has_text l = [].
Proof.
  induction l as [|y l IH]; [reflexivity|]. cbn.
  unfold has_text at 1. destruct (is_text y); [discriminate|]. cbn. exact IH.
Qed.

Lemma textOutput_single (l : list ContentItem) (item : ContentItem) (t : string) :
  List.filter is_text l = [item] -> text item = Some t ->
  textOutput l = [t] /\ find_text l = Some item.
Proof.
  unfold textOutput, textContents, find_text.
  induction l as [|x l IH]; [discriminate|].
  cbn [List.filter List.find]. destruct (is_text x) eqn:Ex.
  - intros [= -> Hl] Ht. split; [|reflexivity].
    assert (Hx : has_text item = true).
    { unfold has_text. rewrite Ex, Ht. reflexivity. }
    rewrite Hx, (no_text_items l Hl). cbn. now rewrite Ht.
  - intros Hl Ht. assert (Hx : has_text x = false) by (unfold has_text; now rewrite Ex).
    rewrite Hx. now apply IH.
Qed.

(** Where the two adapters agree: when exactly one item of the content has
    type text and it carries a text, both resolve to that text for a result
    without error flag, and both reject with it as the message for an error
    result, provided the text is not empty. *)
Theorem adapters_agree_on_single_text (name : string) (e : jsval)
    (l : list ContentItem) (item : ContentItem) (t : string) :
  List.filter is_text l = [item] -> text item = Some t ->
  e <> JBool true \/ t <> "" ->
  _call name (Fulfilled (mkRaw e (RawItems l)))
    = ToolResult._call name (Some (Fulfilled (Some (mkRaw e (RawItems l))))) /\
  ToolResult._call name (Some (Fulfilled (Some (mkRaw e (RawItems l))))) =
    match e with
    | JBool true => Rejected (ToolException t)
    | _ => Fulfilled t
    end.
Proof.
  intros Hl Ht Hor. destruct (textOutput_single l item t Hl Ht) as [Hout Hfind].
  rewrite simple_call_joins_texts, Hout; cbn [join_lines].
  unfold ToolResult._call, ToolResult._convertCallToolResult.
  cbn [typedResult raw_content content_of]. unfold flag; cbn [isError raw_isError].
  rewrite Hfind. destruct item as [ty tx rs]; cbn in Ht; subst tx.
  destruct e as [| |[|]| | | |]; cbn; try (split; reflexivity).
  destruct (String.eqb_spec t "") as [->|Hne]; cbn; [|split; reflexivity].
  destruct Hor; congruence.
Qed.

Lemma adapters_agree_on_single_text_witness :
  List.filter is_text [mkItem "image" None []; mkItem "text" (Some "8") []]
    = [mkItem "text" (Some "8") []] /\
  _call "add" (Fulfilled (mkRaw JUndef
     (RawItems [mkItem "image" None []; mkItem "text" (Some "8") []]))) = Fulfilled "8".
Proof.
  split; [reflexivity|].
  destruct (adapters_agree_on_single_text "add" JUndef
              [mkItem "image" None []; mkItem "text" (Some "8") []]
              (mkItem "text" (Some "8") []) "8") as [H1 H2];
    [reflexivity|reflexivity|left; discriminate|].
  rewrite H1. exact H2.
Defined.

End SimpleTools.

(** ** Error results in the two adapters *)
Module ErrorResults.

Import ToolResult.

(** C2 (amended): a result whose error flag is [true] is treated differently
    by the two adapters.  The adapter of [tools.ts] always rejects it with a
    [ToolException]: the message is the text of the first item of type text
    when that item carries a text that is not empty, and "Tool execution
    failed" in every other case (no item of type text, a first text item
    without text or with the empty text, a content that is not a list); it
    never resolves.  The simplified adapter rejects a content list with the
    texts of all its text items, one per line, which is the empty message
    when there is none; a content that is not a list makes it resolve to the
    empty string when the content is truthy, and reject with the empty
    message when it is falsy. *)
Theorem error_result_rejection (name : string) (r : raw_result) :
  raw_isError r = JBool true ->
  (forall l item t, raw_content r = RawItems l -> find_text l = Some item ->
     text item = Some t -> t <> ""%string ->
     ToolResult._call name (Some (Fulfilled (Some r))) = Rejected (ToolException t)) /\
  (forall l, raw_content r = RawItems l ->
     (find_text l = None \/
      exists item, find_text l = Some item /\
                   (text item = None \/ text item = Some ""%string)) ->
     ToolResult._call name (Some (Fulfilled (Some r)))
       = Rejected (ToolException "Tool execution failed")) /\
  (forall v, raw_content r = RawOther v ->
     ToolResult._call name (Some (Fulfilled (Some r)))
       = Rejected (ToolException "Tool execution failed")) /\
  (forall s, ToolResult._call name (Some (Fulfilled (Some r))) <> Fulfilled s) /\
  (forall l, raw_content r = RawItems l ->
     SimpleTools._call name (Fulfilled r)
       = Rejected (ToolException (SimpleTools.join_lines (SimpleTools.textOutput l)))) /\
  (forall l, raw_content r = RawItems l -> SimpleTools.textContents l = [] ->
     SimpleTools._call name (Fulfilled r) = Rejected (ToolException "")) /\
  (forall v, raw_content r = RawOther v ->
     SimpleTools._call name (Fulfilled r)
       = if truthy (value_of v) then Fulfilled ""%string else Rejected (ToolException "")).
Proof.
  intros He. pose proof (full_adapter_error_result name r He) as Hfull.
  assert (Hsimple : forall l, raw_content r = RawItems l ->
            SimpleTools._call name (Fulfilled r)
            = Rejected (ToolException (SimpleTools.join_lines (SimpleTools.textOutput l)))).
  { intros l Hc. unfold SimpleTools._call, SimpleTools._convertCallToolResult.
    rewrite (proj2 (typedResult_flag r) He).
    destruct r as [e c]; cbn in Hc |- *; subst c. cbn.
    now rewrite SimpleTools.show_final. }
  rewrite Hfull. repeat split.
  - intros l item t -> Hf Ht Hne. cbn. rewrite Hf.
    destruct item as [ty tx rs]; cbn in Ht; subst tx.
    now rewrite (proj2 (String.eqb_neq t "") Hne).
  - intros l -> [Hn|(item & Hf & [Ht|Ht])]; cbn.
    + now rewrite Hn.
    + rewrite Hf. destruct item as [ty tx rs]; cbn in Ht; now subst tx.
    + rewrite Hf. destruct item as [ty tx rs]; cbn in Ht; now subst tx.
  - now intros v ->.
  - discriminate.
  - exact Hsimple.
  - intros l Hc Hn. rewrite (Hsimple l Hc). unfold SimpleTools.textOutput. now rewrite Hn.
  - intros v Hc. unfold SimpleTools._call, SimpleTools._convertCallToolResult.
    rewrite (proj2 (typedResult_flag r) He).
    destruct r as [e c]; cbn in Hc |- *; subst c. cbn.
    destruct (truthy (value_of v)); reflexivity.
Qed.

Lemma error_result_rejection_witness :
  ToolResult._call "run" (Some (Fulfilled (Some
     (mkRaw (JBool true) (RawItems [mkItem "image" None []; mkItem "text" (Some "boom") []])))))
    = Rejected (ToolException "boom").
Proof.
  exact (proj1 (error_result_rejection "run"
                  (mkRaw (JBool true)
                     (RawItems [mkItem "image" None []; mkItem "text" (Some "boom") []]))
                  eq_refl)
           _ (mkItem "text" (Some "boom") []) "boom" eq_refl eq_refl eq_refl
           ltac:(discriminate)).
Defined.

(** C2, as stated, fails in each of its parts.  In the adapter of [tools.ts]
    a first text item with the empty text gives the generic message although
    a text item exists.  In the simplified adapter an error result whose
    content is a string resolves, a content list without text item is
    rejected with the empty message, and two text items are both part of the
    message. *)
Lemma error_result_text_not_always_reported :
  ToolResult._call "run" (Some (Fulfilled (Some
     (mkRaw (JBool true) (RawItems [mkItem "text" (Some "") []; mkItem "text" (Some "boom") []])))))
    = Rejected (ToolException "Tool execution failed") /\
  SimpleTools._call "run" (Fulfilled (mkRaw (JBool true) (RawOther (NStr "boom"))))
    = Fulfilled ""%string /\
  SimpleTools._call "run" (Fulfilled (mkRaw (JBool true) (RawItems [mkItem "other" None []])))
    = Rejected (ToolException "") /\
  SimpleTools._call "run" (Fulfilled
     (mkRaw (JBool true) (RawItems [mkItem "text" (Some "a") []; mkItem "text" (Some "b") []])))
    = Rejected (ToolException ("a" ++ SimpleTools.newline ++ "b")).
Proof. repeat split. Qed.

End ErrorResults.

(** ** Deadlines ([listResources] of the resource utilities) *)
Module Deadline.

(** When a promise settles, in milliseconds after the call, and how; [None]
    for a promise that never settles. *)
Definition timed (A : Type) : Type := option (N * thrown A).

(** The longest delay of a timer. *)
Definition TIMEOUT_MAX : N := 2147483647.

(** The delay that [setTimeout] waits for: a delay above [TIMEOUT_MAX] or
    below 1 is replaced by 1. *)
Definition delay (timeout : N) : N :=
  if ((1 <=? timeout) && (timeout <=? TIMEOUT_MAX))%N then timeout else 1%N.

(** [new Promise((_, reject) => setTimeout(() => reject(e), timeout))] *)
Definition timeoutPromise {A : Type} (e : exn) (timeout : N) : timed A :=
  Some (delay timeout, Throw e).

(** [Promise.race([requestPromise, timeoutPromise])]: whichever settles first
    decides; the timer is started before the request is sent, so it is the
    timer that decides when both settle in the same millisecond. *)
Definition race {A : Type} (request timer : timed A) : timed A :=
  match request, timer with
  | None, _ => timer
  | _, None => request
  | Some (t1, _), Some (t2, _) => if (t1 <? t2)%N then request else timer
  end.

Definition DEFAULT_TIMEOUT : N := 5000.

(** [Number.MAX_SAFE_INTEGER]: up to it every natural number is a number of
    JavaScript and prints as its decimal digits. *)
Definition MAX_SAFE_INTEGER : N := 9007199254740991.

(** The timeout of the options, when there is one, is a whole number of
    milliseconds that is at most [MAX_SAFE_INTEGER]. *)
Definition whole_milliseconds (timeout_option : option N) : Prop :=
  match timeout_option with
  | Some timeout => (timeout <= MAX_SAFE_INTEGER)%N
  | None => True
  end.

(** [options.timeout || DEFAULT_TIMEOUT]: the configured deadline unless it
    is missing or 0. *)
Definition deadline (timeout_option : option N) : N :=
  match timeout_option with
  | None | Some 0%N => DEFAULT_TIMEOUT
  | Some timeout => timeout
  end.

(** [error instanceof Error ? error.message : String(error)] *)
Definition message_of (e : exn) : string :=
  match e with
  | ToolException m | Error m | ZodError m | OtherError _ m => m
  | NonError s => s
  end.

(** [listResources]: [mcpClient] is what [client.getClient(serverName)] found,
    given as the way its [resources/list] request ends ([None] inside a
    response stands for one without a [resources] property). *)
Definition listResources {Resource : Type} (serverName : string)
    (mcpClient : option (timed (option (list Resource))))
    (timeout_option : option N) : timed (list Resource) :=
  match mcpClient with
  | None => Some (0%N, Throw (Error ("Server " ++ serverName ++ " not found")))
  | Some requestPromise =>
      let timeout := deadline timeout_option in
      let wrap e := Error ("Failed to list resources: " ++ message_of e) in
      match race requestPromise
              (timeoutPromise
                 (Error ("Timeout listing resources after " ++ pretty timeout ++ "ms"))
                 timeout) with
      | None => None
      | Some (t, Throw (ZodError _)) => Some (t, Return [])
      | Some (t, Throw e) => Some (t, Throw (wrap e))
      | Some (t, Return None) => Some (t, Return [])
      | Some (t, Return (Some resources)) => Some (t, Return resources)
      end
  end.

Lemma delay_cases (timeout : N) :
  ((1 <= timeout <= TIMEOUT_MAX)%N -> delay timeout = timeout) /\
  ((TIMEOUT_MAX < timeout)%N -> delay timeout = 1%N) /\
  (1 <= delay timeout <= TIMEOUT_MAX)%N.
Proof.
  unfold delay, TIMEOUT_MAX.
  destruct (N.leb_spec 1 timeout); destruct (N.leb_spec timeout 2147483647);
    cbn [andb]; repeat split; lia.
Qed.

Lemma deadline_positive (timeout_option : option N) : (1 <= deadline timeout_option)%N.
Proof.
  unfold deadline, DEFAULT_TIMEOUT. destruct timeout_option as [[|p]|]; lia.
Qed.

(** C9, as stated, fails: a resource listing with a deadline above the
    longest delay of a timer is rejected after one millisecond, not at the
    deadline; and the tool adapter's [_call] sets no timer, so it stays
    pending for as long as the promise of [callTool] does (whether the client
    library gives that request a deadline of its own is outside this
    code). *)
Lemma tool_call_without_response_stays_pending :
  @listResources unit "files" (Some None) (Some 2147483648%N) =
    Some (1%N, Throw (Error ("Failed to list resources: "
                             ++ "Timeout listing resources after 2147483648ms"))) /\
  ToolResult._call "add" (Some Pending) = Pending.
Proof. split; reflexivity. Qed.

(** C9 (amended): a resource listing whose response never arrives is raced
    against a timer and rejects with a timeout-specific error when the timer
    fires: after the configured number of milliseconds (5000 when none or 0
    is configured) if that is at most 2147483647, and after one millisecond
    if it is more.  The timeout is a whole number of milliseconds.  The tool
    adapter sets no timer of its own: its call stays pending for as long as
    the promise of [callTool] does. *)
Theorem list_resources_times_out (Resource : Type) (serverName : string)
    (timeout_option : option N) :
  whole_milliseconds timeout_option ->
  @listResources Resource serverName (Some None) timeout_option =
    Some (delay (deadline timeout_option),
          Throw (Error ("Failed to list resources: Timeout listing resources after "
                        ++ pretty (deadline timeout_option) ++ "ms"))) /\
  (timeout_option = None \/ timeout_option = Some 0%N ->
     deadline timeout_option = 5000%N) /\
  (forall t, timeout_option = Some t -> t <> 0%N -> deadline timeout_option = t) /\
  ((deadline timeout_option <= 2147483647)%N ->
     delay (deadline timeout_option) = deadline timeout_option) /\
  ((2147483647 < deadline timeout_option)%N -> delay (deadline timeout_option) = 1%N) /\
  forall name, ToolResult._call name (Some Pending) = Pending.
Proof.
  intros _.
  pose proof (deadline_positive timeout_option) as Hp.
  destruct (delay_cases (deadline timeout_option)) as (D1 & D2 & _).
  split; [reflexivity|]. split; [intros [->| ->]; reflexivity|].
  split; [intros t -> Ht; destruct t; [contradiction|reflexivity]|].
  split; [intros H; apply D1; unfold TIMEOUT_MAX; lia|].
  split; [exact D2|reflexivity].
Qed.

Lemma list_resources_times_out_witness :
  whole_milliseconds (Some 250%N) /\
  @listResources unit "files" (Some None) (Some 250%N) =
    Some (250%N, Throw (Error "Failed to list resources: Timeout listing resources after 250ms")).
Proof.
  assert (H : whole_milliseconds (Some 250%N)) by (cbn; unfold MAX_SAFE_INTEGER; lia).
  split; [exact H|].
  exact (proj1 (list_resources_times_out unit "files" (Some 250%N) H)).
Defined.

(** Whatever the request does, a resource listing on a known server settles,
    and no later than the timer fires; a response that arrives before that is
    returned at the time it arrives; a response that fails validation
    (a [ZodError]) gives the empty list instead of a rejection; any other
    failure is rejected with its message behind "Failed to list resources: ";
    and a request that has not settled before the timer fires is given up
    with the timeout error.  The timeout is a whole number of milliseconds. *)
Theorem list_resources_settles_by_deadline (Resource : Type) (serverName : string)
    (request : timed (option (list Resource))) (timeout_option : option N) :
  whole_milliseconds timeout_option ->
  let fires := delay (deadline timeout_option) in
  (exists t r, listResources serverName (Some request) timeout_option = Some (t, r) /\
               (t <= fires)%N) /\
  (forall t resources, request = Some (t, Return (Some resources)) -> (t < fires)%N ->
     listResources serverName (Some request) timeout_option = Some (t, Return resources)) /\
  (forall t m, request = Some (t, Throw (ZodError m)) -> (t < fires)%N ->
     listResources serverName (Some request) timeout_option = Some (t, Return [])) /\
  (forall t e, request = Some (t, Throw e) -> (t < fires)%N ->
     (forall m, e <> ZodError m) ->
     listResources serverName (Some request) timeout_option
       = Some (t, Throw (Error ("Failed to list resources: " ++ message_of e)))) /\
  (forall t r, request = Some (t, r) -> (fires <= t)%N ->
     listResources serverName (Some request) timeout_option
       = Some (fires,
               Throw (Error ("Failed to list resources: Timeout listing resources after "
                             ++ pretty (deadline timeout_option) ++ "ms")))).
Proof.
  intros _ fires. unfold listResources, race, timeoutPromise. fold fires.
  split; [|split; [|split; [|split]]].
  - destruct request as [[t [[rs|]|e]]|]; cbn;
      try destruct (N.ltb_spec t fires); try destruct e;
      eexists _, _; (split; [reflexivity|lia]).
  - intros t rs -> Ht. apply N.ltb_lt in Ht. now rewrite Ht.
  - intros t m -> Ht. apply N.ltb_lt in Ht. now rewrite Ht.
  - intros t e -> Ht Hz. apply N.ltb_lt in Ht. rewrite Ht.
    destruct e; try reflexivity. now contradiction (Hz message).
  - intros t r -> Ht. apply N.ltb_ge in Ht. now rewrite Ht.
Qed.

Lemma list_resources_settles_by_deadline_witness :
  whole_milliseconds (Some 250%N) /\
  listResources "files" (Some (Some (250%N, Return (Some ["a"%string]))))
    (Some 250%N)
  = Some (250%N, Throw (Error "Failed to list resources: Timeout listing resources after 250ms")).
Proof.
  assert (H : whole_milliseconds (Some 250%N)) by (cbn; unfold MAX_SAFE_INTEGER; lia).
  split; [exact H|].
  destruct (list_resources_settles_by_deadline string "files"
              (Some (250%N, Return (Some ["a"%string]))) (Some 250%N) H)
    as (_ & _ & _ & _ & Hlate).
  apply (Hlate 250%N (Return (Some ["a"%string])) eq_refl). cbn. lia.
Defined.

(** A resource, as the utilities read it. *)
Record Resource : Type := mkResource {
  uri : string;
  name : string;
  description : string;
  mimeType : string
}.

(** [getResourceByUri], once the listing is there:
    [resources.find(resource => resource.uri === uri) || null]. *)
Definition getResourceByUri (resources : list Resource) (u : string) : option Resource :=
  List.find (fun resource => String.eqb (uri resource) u) resources.

(** [findResourcesByMimeType], once the listing is there. *)
Definition findResourcesByMimeType (resources : list Resource) (m : string)
  : list Resource :=
  List.filter (fun resource => String.eqb (mimeType resource) m) resources.

(** [new Set()] filled by [add] in a loop, read with [Array.from]: the
    elements in the order of their first insertion. *)
Fixpoint set_add (m : string) (set : list string) : list string :=
  match set with
  | [] => [m]
  | x :: r => if String.eqb x m then set else x :: set_add m r
  end.

(** [getResourceMimeTypes], once the listing is there. *)
Definition getResourceMimeTypes (resources : list Resource) : list string :=
  List.fold_left
    (fun mimeTypes resource =>
       if negb (String.eqb (mimeType resource) "")
       then set_add (mimeType resource) mimeTypes
       else mimeTypes)
    resources [].

Lemma set_add_spec (m : string) (set : list string) :
  NoDup set -> NoDup (set_add m set) /\ forall x, In x (set_add m set) <-> x = m \/ In x set.
Proof.
  induction set as [|y r IH]; intros Hnd; cbn.
  - split; [repeat constructor; apply not_elem_of_nil|]. intros x. intuition.
  - apply NoDup_cons in Hnd as [Hy Hr]. destruct (String.eqb_spec y m) as [->|Hne].
    + split; [now apply NoDup_cons|]. intros x; cbn. intuition.
    + destruct (IH Hr) as [I1 I2]. split.
      * apply NoDup_cons. split; [|exact I1].
        rewrite list_elem_of_In, I2. rewrite list_elem_of_In in Hy. intuition.
      * intros x. cbn. rewrite I2. intuition.
Qed.

Lemma mime_types_fold (resources : list Resource) :
  forall acc, NoDup acc ->
    let out := List.fold_left
      (fun mimeTypes resource =>
         if negb (String.eqb (mimeType resource) "")
         then set_add (mimeType resource) mimeTypes
         else mimeTypes) resources acc in
    NoDup out /\
    forall m, In m out <->
      In m acc \/ (m <> "" /\ exists resource, In resource resources /\ mimeType resource = m).
Proof.
  induction resources as [|r rs IH]; intros acc Hnd; cbn.
  - split; [exact Hnd|]. intros m. split; [auto|]. intros [H|(_ & x & [] & _)]; exact H.
  - destruct (String.eqb_spec (mimeType r) "") as [He|Hne]; cbn [negb].
    + destruct (IH acc Hnd) as [I1 I2]. split; [exact I1|]. intros m. rewrite I2.
      split; intros [H|(Hm & x & Hx & Hmx)]; auto.
      * right. split; [exact Hm|]. exists x. auto.
      * destruct Hx as [<-|Hx]; [congruence|]. right. split; [exact Hm|]. eauto.
    + destruct (set_add_spec (mimeType r) acc Hnd) as [S1 S2].
      destruct (IH _ S1) as [I1 I2]. split; [exact I1|]. intros m. rewrite I2, S2.
      split.
      * intros [[->|H]|(Hm & x & Hx & Hmx)]; auto.
        -- right. split; [exact Hne|]. exists r. auto.
        -- right. split; [exact Hm|]. exists x. auto.
      * intros [H|(Hm & x & [<-|Hx] & Hmx)]; auto.
        right. split; [exact Hm|]. eauto.
Qed.

(** The mime types of a listing: each one once, none empty, every mime type
    of a resource among them. *)
Theorem mime_types_are_distinct_and_complete (resources : list Resource) :
  NoDup (getResourceMimeTypes resources) /\
  forall m, In m (getResourceMimeTypes resources) <->
    m <> "" /\ exists resource, In resource resources /\ mimeType resource = m.
Proof.
  destruct (mime_types_fold resources [] (NoDup_nil_2)) as [H1 H2].
  split; [exact H1|]. intros m. unfold getResourceMimeTypes. rewrite H2.
  split; [intros [[]|H]; exact H|auto].
Qed.

(** Looking a resource up by URI gives the first resource of the listing with
    that URI: every resource before it has another URI.  Nothing is found
    exactly when no resource has the URI; and filtering by mime type keeps the
    resource that was found when its mime type is the one asked for. *)
Theorem resource_by_uri_is_first_match (resources : list Resource) (u : string) :
  (forall resource, getResourceByUri resources u = Some resource ->
     uri resource = u /\
     (exists before after, resources = (before ++ resource :: after)%list /\
        forall earlier, In earlier before -> uri earlier <> u) /\
     In resource (findResourcesByMimeType resources (mimeType resource))) /\
  (getResourceByUri resources u = None <->
     forall resource, In resource resources -> uri resource <> u).
Proof.
  unfold getResourceByUri, findResourcesByMimeType. split.
  - intros r H.
    assert (Hfirst : exists before after, resources = (before ++ r :: after)%list /\
              forall earlier, In earlier before -> uri earlier <> u).
    { revert H. induction resources as [|x rs IH]; cbn; [discriminate|].
      destruct (String.eqb_spec (uri x) u) as [He|Hne].
      - intros [= ->]. exists [], rs. split; [reflexivity|]. intros ? [].
      - intros H. destruct (IH H) as (before & after & -> & Hb).
        exists (x :: before), after. split; [reflexivity|].
        intros earlier [<-|Hin]; auto. }
    apply List.find_some in H as [Hin He].
    apply String.eqb_eq in He. repeat split; auto.
    apply List.filter_In. split; [exact Hin|apply String.eqb_refl].
  - split.
    + intros H r Hin He. apply (List.find_none _ _ H) in Hin.
      apply String.eqb_neq in Hin. contradiction.
    + intros H. destruct (List.find _ resources) as [r|] eqn:E; [|reflexivity].
      apply List.find_some in E as [Hin He]. apply String.eqb_eq in He.
      now contradiction (H r Hin).
Qed.

End Deadline.

(** ** Input normalisation ([_normalizeInput])

    A character of a string stands for one code unit of the JavaScript
    string, and the strings that can be written this way are those whose code
    units are all below 256.  Among these code units the whitespace of [trim]
    and of the regular expressions' [\s] is tab, line feed, vertical tab, form
    feed, carriage return (9 to 13), space (32) and the no-break space
    (160). *)
Module Input.

Definition is_space (c : ascii) : bool :=
  let n := nat_of_ascii c in
  ((9 <=? n) && (n <=? 13) || (n =? 32) || (n =? 160))%nat.

(** [[a-zA-Z0-9_]] *)
Definition is_word (c : ascii) : bool :=
  let n := nat_of_ascii c in
  ((97 <=? n) && (n <=? 122) || (65 <=? n) && (n <=? 90)
   || (48 <=? n) && (n <=? 57) || (n =? 95))%nat.

(** The longest prefix whose characters satisfy [p], and what follows it. *)
Fixpoint span (p : ascii -> bool) (s : string) : string * string :=
  match s with
  | String c r =>
      if p c then let '(a, b) := span p r in (String c a, b) else (EmptyString, s)
  | EmptyString => (EmptyString, EmptyString)
  end.

Definition trimStart (s : string) : string := snd (span is_space s).

Fixpoint trimEnd (s : string) : string :=
  match s with
  | EmptyString => EmptyString
  | String c r =>
      match trimEnd r with
      | EmptyString => if is_space c then EmptyString else String c EmptyString
      | r' => String c r'
      end
  end.

(** [s.trim()] *)
Definition trim (s : string) : string := trimEnd (trimStart s).

(** [s.startsWith(p)] *)
Definition startsWith (p s : string) : bool := String.prefix p s.

(** What follows the prefix [p] of [s]. *)
Fixpoint after (p s : string) : string :=
  match p, s with
  | String _ p', String _ s' => after p' s'
  | _, _ => s
  end.

(** [s.includes(sub)] *)
Fixpoint includes (sub s : string) : bool :=
  startsWith sub s ||
  match s with
  | String _ r => includes sub r
  | EmptyString => false
  end.

(** [s.endsWith(p)] for a one-character [p]. *)
Fixpoint endsWithChar (c : ascii) (s : string) : bool :=
  match s with
  | EmptyString => false
  | String a EmptyString => Ascii.eqb a c
  | String _ r => endsWithChar c r
  end.

Definition fence : string := "```".

(** What follows the first fence of [s]. *)
Fixpoint after_fence (s : string) : option string :=
  if startsWith fence s then Some (after fence s)
  else match s with
       | String _ r => after_fence r
       | EmptyString => None
       end.

(** The lazy group [([\s\S]*?)] followed by [\s*```]: the shortest prefix
    after which only whitespace separates from a fence. *)
Fixpoint capture (s : string) : option string :=
  if startsWith fence (trimStart s) then Some EmptyString
  else match s with
       | String c r => option_map (String c) (capture r)
       | EmptyString => None
       end.

(** [inputStr.match(/```(?:json)?\s*([\s\S]*?)\s*```/)], its group 1. *)
Definition codeBlockMatch (s : string) : option string :=
  match after_fence s with
  | None => None
  | Some r =>
      let r := if startsWith "json" r then after "json" r else r in
      capture (trimStart r)
  end.

(** The first [replace] of the JSON-like attempt, global over the pattern of
    an opening brace or a comma, whitespace, a run of word characters,
    whitespace and a colon: the run of word characters (a bare key) is put
    between double quotes.  The scan restarts after every match; [fuel] bounds
    the number of restarts. *)
Fixpoint quote_keys (fuel : nat) (s : string) : string :=
  match fuel, s with
  | S fuel', String c r =>
      if Ascii.eqb c "{"%char || Ascii.eqb c ","%char then
        let '(ws, r1) := span is_space r in
        let '(key, r2) := span is_word r1 in
        let '(ws2, r3) := span is_space r2 in
        match key, r3 with
        | String _ _, String ":"%char r4 =>
            String c ws ++ dq ++ key ++ dq ++ ws2 ++ ":" ++ quote_keys fuel' r4
        | _, _ => String c (quote_keys fuel' r)
        end
      else String c (quote_keys fuel' r)
  | _, _ => s
  end.

(** The second [replace], global over the pattern of a colon, whitespace and
    a text between single quotes: the text is put between double quotes after
    a colon and one space. *)
Fixpoint quote_values (fuel : nat) (s : string) : string :=
  match fuel, s with
  | S fuel', String c r =>
      if Ascii.eqb c ":"%char then
        let '(ws, r1) := span is_space r in
        match r1 with
        | String "'"%char r2 =>
            let '(body, r3) := span (fun a => negb (Ascii.eqb a "'"%char)) r2 in
            match r3 with
            | String "'"%char r4 => ": " ++ dq ++ body ++ dq ++ quote_values fuel' r4
            | _ => String c (quote_values fuel' r)
            end
        | _ => String c (quote_values fuel' r)
        end
      else String c (quote_values fuel' r)
  | _, _ => s
  end.

Definition fixedJson (inputStr : string) : string :=
  let s1 := quote_keys (String.length inputStr) inputStr in
  quote_values (String.length s1) s1.

Section Normalize.
(** [JSON.parse]: [None] when it throws a [SyntaxError]. *)
Variable JSON_parse : string -> option jsval.

(** The code-block attempt: [None] when the code goes on to the next
    method. *)
Definition from_code_block (inputStr : string) : option jsval :=
  if includes fence inputStr then
    match codeBlockMatch inputStr with
    | Some (String c r) => JSON_parse (trim (String c r))
    | _ => None
    end
  else None.

(** The JSON-like attempt. *)
Definition from_json_like (inputStr : string) : option jsval :=
  if startsWith "{" inputStr && endsWithChar "}"%char inputStr
  then JSON_parse (fixedJson inputStr)
  else None.

(** [_normalizeInput] *)
Definition _normalizeInput (input : jsval) : jsval :=
  match input with
  | JUndef | JNull => JObj []
  | JObj (_ :: _) => input
  | JStr s =>
      let inputStr := trim s in
      if String.eqb inputStr "" then JObj [] else
      match from_code_block inputStr with
      | Some parsed => parsed
      | None =>
          match from_json_like inputStr with
          | Some parsed => parsed
          | None =>
              if negb (includes ":" inputStr) && negb (includes "{" inputStr)
              then JObj [("input", JStr inputStr)]
              else JObj []
          end
      end
  | JArr _ => JObj [("inputs", input)]
  | JNum _ | JBool _ => JObj [("value", input)]
  | JObj [] => JObj []
  end.

Lemma span_length (p : ascii -> bool) (s : string) :
  (String.length (snd (span p s)) <= String.length s)%nat.
Proof.
  induction s as [|c r IH]; cbn; [lia|].
  destruct (p c); [|cbn; lia]. destruct (span p r) as [a b]; cbn in *. lia.
Qed.

(** The fuel of the two scans never runs out: any fuel of at least the length
    of the string gives the same result. *)
Lemma quote_keys_fuel (fuel fuel' : nat) (s : string) :
  (String.length s <= fuel)%nat -> (String.length s <= fuel')%nat ->
  quote_keys fuel s = quote_keys fuel' s.
Proof.
  revert fuel' s. induction fuel as [|fuel IH]; intros fuel' s H1 H2.
  - destruct s; cbn in H1; [now destruct fuel'|lia].
  - destruct s as [|c r]; [now destruct fuel'|].
    destruct fuel' as [|fuel']; cbn in H1, H2; [lia|]. cbn.
    pose proof (span_length is_space r) as L1.
    destruct (span is_space r) as [ws r1]; cbn in L1.
    pose proof (span_length is_word r1) as L2.
    destruct (span is_word r1) as [key r2]; cbn in L2.
    pose proof (span_length is_space r2) as L3.
    destruct (span is_space r2) as [ws2 r3]; cbn in L3.
    rewrite (IH fuel' r) by lia.
    destruct (Ascii.eqb c "{" || Ascii.eqb c ","); [|reflexivity].
    destruct key as [|k key]; [reflexivity|].
    destruct r3 as [|c3 r4]; [reflexivity|]. cbn in L3.
    rewrite (IH fuel' r4) by lia. reflexivity.
Qed.

Lemma quote_values_fuel (fuel fuel' : nat) (s : string) :
  (String.length s <= fuel)%nat -> (String.length s <= fuel')%nat ->
  quote_values fuel s = quote_values fuel' s.
Proof.
  revert fuel' s. induction fuel as [|fuel IH]; intros fuel' s H1 H2.
  - destruct s; cbn in H1; [now destruct fuel'|lia].
  - destruct s as [|c r]; [now destruct fuel'|].
    destruct fuel' as [|fuel']; cbn in H1, H2; [lia|]. cbn.
    pose proof (span_length is_space r) as L1.
    destruct (span is_space r) as [ws r1]; cbn in L1.
    rewrite (IH fuel' r) by lia.
    destruct (Ascii.eqb c ":"); [|reflexivity].
    destruct r1 as [|c1 r2]; [reflexivity|]. cbn in L1.
    pose proof (span_length (fun a => negb (Ascii.eqb a "'")) r2) as L2.
    destruct (span (fun a => negb (Ascii.eqb a "'")) r2) as [body r3]; cbn in L2.
    destruct r3 as [|c3 r4]; cbn in L2.
    + now destruct c1 as [[] [] [] [] [] [] [] []].
    + rewrite (IH fuel' r4) by lia.
      now destruct c1 as [[] [] [] [] [] [] [] []].
Qed.

(** An input that is not a string always comes back as a mapping (an object),
    and normalising that result again changes nothing. *)
Theorem normalize_non_string_is_idempotent (input : jsval) :
  (forall s, input <> JStr s) ->
  (exists l, _normalizeInput input = JObj l) /\
  _normalizeInput (_normalizeInput input) = _normalizeInput input.
Proof.
  intros Hs. destruct input as [| | b | z | s | l | [|e l]]; cbn; eauto.
  now contradiction (Hs s).
Qed.

Fixpoint all_chars (p : ascii -> bool) (s : string) : bool :=
  match s with
  | EmptyString => true
  | String c r => p c && all_chars p r
  end.

Definition backtick : ascii := ascii_of_nat 96.

Definition not_backtick (c : ascii) : bool := negb (Ascii.eqb c backtick).

Lemma span_all (p : ascii -> bool) (ws rest : string) :
  all_chars p ws = true ->
  (match rest with String c _ => p c = false | EmptyString => True end) ->
  span p (ws ++ rest) = (ws, rest).
Proof.
  induction ws as [|c r IH]; intros Hw Hr.
  - destruct rest as [|c r]; [reflexivity|]. simpl. now rewrite Hr.
  - cbn [all_chars] in Hw. apply andb_true_iff in Hw as [Hc Hw].
    change ((String c r ++ rest)%string) with (String c (r ++ rest)%string).
    cbn [span]. rewrite Hc, (IH Hw Hr). reflexivity.
Qed.

Lemma startsWith_append (p s : string) :
  startsWith p (p ++ s) = true /\ after p (p ++ s) = s.
Proof.
  unfold startsWith. induction p as [|c r [I1 I2]]; simpl.
  - split; [now destruct s|reflexivity].
  - split; [|exact I2]. destruct (ascii_dec c c); [exact I1|congruence].
Qed.

Lemma after_fence_eq (s : string) :
  after_fence s =
    if startsWith fence s then Some (after fence s)
    else match s with
         | String _ r => after_fence r
         | EmptyString => None
         end.
Proof. now destruct s. Qed.

Lemma includes_eq (sub s : string) :
  includes sub s =
    (startsWith sub s ||
     match s with
     | String _ r => includes sub r
     | EmptyString => false
     end).
Proof. now destruct s. Qed.

Lemma capture_eq (s : string) :
  capture s =
    if startsWith fence (trimStart s) then Some EmptyString
    else match s with
         | String c r => option_map (String c) (capture r)
         | EmptyString => None
         end.
Proof. now destruct s. Qed.

Lemma after_fence_first (pre rest : string) :
  all_chars not_backtick pre = true ->
  after_fence (pre ++ fence ++ rest) = Some rest /\
  includes fence (pre ++ fence ++ rest) = true.
Proof.
  induction pre as [|c r IH]; intros Hp.
  - change (("" ++ fence ++ rest)%string) with ((fence ++ rest)%string).
    rewrite after_fence_eq, includes_eq.
    destruct (startsWith_append fence rest) as [-> ->]. split; reflexivity.
  - cbn in Hp. apply andb_true_iff in Hp as [Hc Hp]. destruct (IH Hp) as [I1 I2].
    unfold not_backtick in Hc. apply negb_true_iff in Hc.
    change ((String c r ++ fence ++ rest)%string) with (String c (r ++ fence ++ rest)%string).
    assert (Hs : startsWith fence (String c (r ++ fence ++ rest)%string) = false).
    { unfold startsWith, fence. cbn [String.prefix].
      destruct (ascii_dec "`" c) as [<-|Hne]; [discriminate Hc|reflexivity]. }
    split.
    + rewrite after_fence_eq, Hs. exact I1.
    + rewrite includes_eq, Hs. exact I2.
Qed.

Fixpoint ends_nonspace (s : string) : bool :=
  match s with
  | EmptyString => false
  | String c EmptyString => negb (is_space c)
  | String _ r => ends_nonspace r
  end.

Definition starts_nonspace (s : string) : bool :=
  match s with
  | EmptyString => false
  | String c _ => negb (is_space c)
  end.

Lemma fence_not_next (c : ascii) (r : string) :
  not_backtick c = true -> startsWith fence (String c r) = false.
Proof.
  unfold not_backtick, startsWith, fence. intros Hc. apply negb_true_iff in Hc.
  cbn [String.prefix]. destruct (ascii_dec "`" c) as [<-|Hne]; [discriminate Hc|reflexivity].
Qed.

Lemma no_fence_ahead (b tail : string) :
  all_chars not_backtick b = true -> ends_nonspace b = true ->
  startsWith fence (trimStart (b ++ tail)) = false.
Proof.
  induction b as [|c r IH]; intros Hb He; [discriminate|].
  cbn in Hb. apply andb_true_iff in Hb as [Hc Hb].
  change ((String c r ++ tail)%string) with (String c (r ++ tail)%string).
  unfold trimStart. cbn [span]. destruct (is_space c) eqn:Ec.
  - destruct r as [|c' r'].
    + cbn in He. rewrite Ec in He. discriminate.
    + specialize (IH Hb He). unfold trimStart in IH.
      destruct (span is_space (String c' r' ++ tail)) as [a b']. exact IH.
  - cbn [snd]. now apply fence_not_next.
Qed.

Lemma capture_body (body tail : string) :
  all_chars not_backtick body = true ->
  body = EmptyString \/ ends_nonspace body = true ->
  startsWith fence (trimStart tail) = true ->
  capture (body ++ tail) = Some body.
Proof.
  induction body as [|c r IH]; intros Hb He Ht.
  - change (("" ++ tail)%string) with tail. rewrite capture_eq. now rewrite Ht.
  - destruct He as [He|He]; [discriminate|].
    pose proof (no_fence_ahead (String c r) tail Hb He) as Hno.
    cbn in Hb. apply andb_true_iff in Hb as [Hc Hb].
    change ((String c r ++ tail)%string) with (String c (r ++ tail)%string) in *.
    rewrite capture_eq, Hno. rewrite IH; [reflexivity|exact Hb| |exact Ht].
    destruct r as [|c' r']; [now left|right; exact He].
Qed.

Lemma trimEnd_fixed (s : string) : ends_nonspace s = true -> trimEnd s = s.
Proof.
  induction s as [|c r IH]; [discriminate|]. intros He. cbn [trimEnd].
  destruct r as [|c' r'].
  - cbn in *. apply negb_true_iff in He. now rewrite He.
  - rewrite (IH He). reflexivity.
Qed.

Lemma trim_fixed (s : string) :
  starts_nonspace s = true -> ends_nonspace s = true -> trim s = s.
Proof.
  intros Hs He. unfold trim, trimStart. destruct s as [|c r]; [discriminate|].
  cbn in Hs. apply negb_true_iff in Hs. cbn [span]. rewrite Hs. cbn [snd].
  now apply trimEnd_fixed.
Qed.

Lemma append_assoc (a b c : string) : ((a ++ b) ++ c = a ++ (b ++ c))%string.
Proof.
  induction a as [|x a IH]; [reflexivity|].
  change (String x ((a ++ b) ++ c) = String x (a ++ (b ++ c)))%string. now rewrite IH.
Qed.

Lemma no_json_mark (x rest : string) :
  x <> EmptyString -> startsWith "j" x = false ->
  startsWith "json" (x ++ rest) = false.
Proof.
  intros Hx Hj. destruct x as [|c r]; [contradiction|].
  change ((String c r ++ rest)%string) with (String c (r ++ rest)%string).
  unfold startsWith in *. cbn [String.prefix] in *.
  destruct (ascii_dec "j" c); [|reflexivity]. now destruct r.
Qed.

(** The content of a fenced block inside other text, with or without the
    [json] mark. *)
Lemma code_block_content (pre tag ws body ws' post : string) :
  all_chars not_backtick pre = true ->
  tag = "json"%string \/ tag = ""%string /\ startsWith "j" (ws ++ body) = false ->
  all_chars is_space ws = true -> all_chars is_space ws' = true ->
  all_chars not_backtick body = true ->
  starts_nonspace body = true -> ends_nonspace body = true ->
  codeBlockMatch (pre ++ fence ++ tag ++ ws ++ body ++ ws' ++ fence ++ post) = Some body /\
  from_code_block (pre ++ fence ++ tag ++ ws ++ body ++ ws' ++ fence ++ post)
    = JSON_parse body.
Proof.
  intros Hpre Htag Hws Hws' Hb Hs He.
  set (inputStr := (pre ++ fence ++ tag ++ ws ++ body ++ ws' ++ fence ++ post)%string).
  set (tail := (ws' ++ fence ++ post)%string).
  assert (Hm : codeBlockMatch inputStr = Some body).
  { unfold codeBlockMatch, inputStr.
    destruct (after_fence_first pre (tag ++ ws ++ body ++ ws' ++ fence ++ post) Hpre)
      as [-> _].
    assert (Ht : (if startsWith "json" (tag ++ ws ++ body ++ ws' ++ fence ++ post)
                  then after "json" (tag ++ ws ++ body ++ ws' ++ fence ++ post)
                  else (tag ++ ws ++ body ++ ws' ++ fence ++ post)%string)
                 = (ws ++ body ++ ws' ++ fence ++ post)%string).
    { destruct Htag as [->|[-> Hj]].
      - now destruct (startsWith_append "json" (ws ++ body ++ ws' ++ fence ++ post)) as [-> ->].
      - change (("" ++ ws ++ body ++ ws' ++ fence ++ post)%string)
          with ((ws ++ body ++ ws' ++ fence ++ post)%string).
        fold tail. rewrite <- (append_assoc ws body tail).
        rewrite (no_json_mark (ws ++ body) tail) in *.
        + reflexivity.
        + destruct ws; [destruct body; [discriminate Hs|]|]; discriminate.
        + exact Hj. }
    rewrite Ht.
    unfold trimStart at 1. rewrite span_all; [|exact Hws|].
    - cbn [snd]. apply capture_body; [exact Hb|now right|].
      unfold trimStart. rewrite span_all; [|exact Hws'|reflexivity].
      cbn [snd]. apply startsWith_append.
    - destruct body as [|c r]; [discriminate|]. cbn in Hs |- *.
      now apply negb_true_iff in Hs. }
  split; [exact Hm|]. unfold from_code_block. rewrite Hm.
  destruct (after_fence_first pre (tag ++ ws ++ body ++ ws' ++ fence ++ post) Hpre)
    as [_ Hi].
  fold inputStr in Hi. rewrite Hi.
  destruct body as [|c r]; [discriminate|]. now rewrite trim_fixed.
Qed.


End Normalize.

(** A value as it is written in the text of a flat object: plain text, such
    as a number or a text between double quotes, or a text between single
    quotes, with the whitespace before it and the plain text after it. *)
Inductive written : Type :=
  | Plain (text : string)
  | SingleQuoted (space text rest : string).

(** A member of a flat object: whitespace, a bare key, whitespace, a colon
    and the value. *)
Record member : Type := mkMember
  { lead : string; key : string; gap : string; value : written }.

Definition as_written (w : written) : string :=
  match w with
  | Plain text => text
  | SingleQuoted space text rest => space ++ "'" ++ text ++ "'" ++ rest
  end.

(** The value after the second [replace]: the text that was between single
    quotes stands between double quotes, one space after the colon. *)
Definition as_repaired (w : written) : string :=
  match w with
  | Plain text => text
  | SingleQuoted _ text rest => " " ++ dq ++ text ++ dq ++ rest
  end.

Definition member_text (quote : string) (show : written -> string) (m : member) : string :=
  lead m ++ quote ++ key m ++ quote ++ gap m ++ ":" ++ show (value m).

Fixpoint more_members (quote : string) (show : written -> string) (ms : list member)
  : string :=
  match ms with
  | [] => "}"
  | m :: rest => "," ++ member_text quote show m ++ more_members quote show rest
  end.

(** The text of an object with the members [ms], the keys between [quote]. *)
Definition object_text (quote : string) (show : written -> string) (ms : list member)
  : string :=
  match ms with
  | [] => "{}"
  | m :: rest => "{" ++ member_text quote show m ++ more_members quote show rest
  end.

(** No brace, comma or single quote. *)
Definition plain (c : ascii) : bool :=
  negb (Ascii.eqb c "{") && negb (Ascii.eqb c ",") && negb (Ascii.eqb c "'").

Definition well_written (w : written) : bool :=
  match w with
  | Plain text => all_chars plain text
  | SingleQuoted space text rest =>
      all_chars is_space space && all_chars plain text && all_chars plain rest
  end.

Definition well_formed (m : member) : bool :=
  all_chars is_space (lead m) && negb (String.eqb (key m) "")
  && all_chars is_word (key m) && all_chars is_space (gap m)
  && well_written (value m).

Definition no_sep (c : ascii) : bool := negb (Ascii.eqb c "{" || Ascii.eqb c ",").
Definition no_colon (c : ascii) : bool := negb (Ascii.eqb c ":").
Definition no_quote (c : ascii) : bool := negb (Ascii.eqb c "'").

Ltac each_char c :=
  destruct c as [[] [] [] [] [] [] [] []]; vm_compute; intros;
  try reflexivity; try discriminate.

Lemma space_classes (c : ascii) :
  is_space c = true ->
  no_sep c = true /\ no_colon c = true /\ no_quote c = true /\ is_word c = false.
Proof. each_char c; repeat split. Qed.

Lemma word_classes (c : ascii) :
  is_word c = true ->
  no_sep c = true /\ no_colon c = true /\ no_quote c = true /\ is_space c = false.
Proof. each_char c; repeat split. Qed.

Lemma plain_classes (c : ascii) :
  plain c = true -> no_sep c = true /\ no_quote c = true.
Proof. each_char c; repeat split. Qed.

Lemma all_chars_impl (p q : ascii -> bool) (s : string) :
  (forall c, p c = true -> q c = true) -> all_chars p s = true -> all_chars q s = true.
Proof.
  intros H. induction s as [|c r IH]; [reflexivity|]. cbn.
  intros [Hc Hr]%andb_true_iff. now rewrite (H c Hc), (IH Hr).
Qed.

Lemma all_chars_app (p : ascii -> bool) (a b : string) :
  all_chars p (a ++ b) = all_chars p a && all_chars p b.
Proof.
  induction a as [|c r IH]; [reflexivity|].
  change ((String c r ++ b)%string) with (String c (r ++ b)%string).
  cbn. now rewrite IH, andb_assoc.
Qed.

Lemma length_append (a b : string) :
  String.length (a ++ b) = String.length a + String.length b.
Proof.
  induction a as [|c r IH]; [reflexivity|].
  change ((String c r ++ b)%string) with (String c (r ++ b)%string). cbn. now rewrite IH.
Qed.

(** The scans with the fuel they are given by [fixedJson]. *)
Definition keys_quoted (s : string) : string := quote_keys (String.length s) s.
Definition values_quoted (s : string) : string := quote_values (String.length s) s.

Lemma keys_through (t rest : string) :
  all_chars no_sep t = true -> keys_quoted (t ++ rest) = (t ++ keys_quoted rest)%string.
Proof.
  induction t as [|c r IH]; intros Ht; [reflexivity|].
  cbn in Ht. apply andb_true_iff in Ht as [Hc Hr].
  change ((String c r ++ rest)%string) with (String c (r ++ rest)%string).
  change ((String c r ++ keys_quoted rest)%string) with (String c (r ++ keys_quoted rest)%string).
  unfold keys_quoted at 1. cbn [String.length quote_keys].
  unfold no_sep in Hc. apply negb_true_iff in Hc. rewrite Hc.
  fold (keys_quoted (r ++ rest)). now rewrite IH.
Qed.

Lemma keys_member (c : ascii) (ws k ws2 r4 : string) :
  Ascii.eqb c "{" || Ascii.eqb c "," = true ->
  all_chars is_space ws = true -> all_chars is_word k = true -> k <> EmptyString ->
  all_chars is_space ws2 = true ->
  keys_quoted (String c (ws ++ k ++ ws2 ++ ":" ++ r4))
  = String c (ws ++ dq ++ k ++ dq ++ ws2 ++ ":" ++ keys_quoted r4).
Proof.
  intros Hc Hws Hk Hne Hws2.
  unfold keys_quoted at 1. cbn [String.length quote_keys]. rewrite Hc.
  rewrite (span_all is_space ws (k ++ ws2 ++ ":" ++ r4) Hws).
  2:{ destruct k as [|x k']; [contradiction|]. cbn in Hk |- *.
      apply andb_true_iff in Hk as [Hx _]. now apply word_classes in Hx. }
  rewrite (span_all is_word k (ws2 ++ ":" ++ r4) Hk).
  2:{ destruct ws2 as [|x w']; [reflexivity|]. cbn in Hws2 |- *.
      apply andb_true_iff in Hws2 as [Hx _]. now apply space_classes in Hx. }
  rewrite (span_all is_space ws2 (":" ++ r4) Hws2) by reflexivity.
  destruct k as [|x k']; [contradiction|].
  change ((":" ++ r4)%string) with (String ":" r4). cbv iota.
  rewrite (quote_keys_fuel _ (String.length r4) r4); [reflexivity| |lia].
  rewrite !length_append. cbn. lia.
Qed.

Definition head_ok (rest : string) : bool :=
  match rest with
  | String c _ => no_quote c && negb (is_space c)
  | EmptyString => true
  end.

Lemma no_quote_ahead (t rest : string) :
  all_chars no_quote t = true -> head_ok rest = true ->
  match snd (span is_space (t ++ rest)) with
  | String c _ => no_quote c = true
  | EmptyString => True
  end.
Proof.
  induction t as [|c r IH]; intros Ht Hr.
  - change (("" ++ rest)%string) with rest. destruct rest as [|c r]; [exact I|].
    cbn in Hr |- *. apply andb_true_iff in Hr as [H1 H2].
    apply negb_true_iff in H2. rewrite H2. exact H1.
  - cbn in Ht. apply andb_true_iff in Ht as [Hc Ht].
    change ((String c r ++ rest)%string) with (String c (r ++ rest)%string).
    cbn [span]. destruct (is_space c).
    + specialize (IH Ht Hr). destruct (span is_space (r ++ rest)) as [a b]. exact IH.
    + exact Hc.
Qed.

Lemma values_colon_other (r : string) :
  match snd (span is_space r) with
  | String c _ => no_quote c = true
  | EmptyString => True
  end ->
  values_quoted (String ":" r) = String ":" (values_quoted r).
Proof.
  intros H. unfold values_quoted. cbn [String.length quote_values].
  change (Ascii.eqb ":" ":") with true. cbv iota.
  destruct (span is_space r) as [ws r1]. cbn [snd] in H.
  destruct r1 as [|c1 r2]; [reflexivity|].
  destruct c1 as [[] [] [] [] [] [] [] []]; try reflexivity. discriminate H.
Qed.

Lemma values_through (t rest : string) :
  all_chars no_quote t = true -> head_ok rest = true ->
  values_quoted (t ++ rest) = (t ++ values_quoted rest)%string.
Proof.
  induction t as [|c r IH]; intros Ht Hr; [reflexivity|].
  cbn in Ht. apply andb_true_iff in Ht as [Hc Ht].
  change ((String c r ++ rest)%string) with (String c (r ++ rest)%string).
  change ((String c r ++ values_quoted rest)%string)
    with (String c (r ++ values_quoted rest)%string).
  rewrite <- (IH Ht Hr).
  destruct (Ascii.eqb c ":") eqn:E.
  - apply Ascii.eqb_eq in E. subst c. apply values_colon_other.
    now apply no_quote_ahead.
  - unfold values_quoted. cbn [String.length quote_values]. now rewrite E.
Qed.

Lemma values_member (ws t r4 : string) :
  all_chars is_space ws = true -> all_chars no_quote t = true ->
  values_quoted (String ":" (ws ++ "'" ++ t ++ "'" ++ r4))
  = (": " ++ dq ++ t ++ dq ++ values_quoted r4)%string.
Proof.
  intros Hws Ht. unfold values_quoted at 1. cbn [String.length quote_values].
  change (Ascii.eqb ":" ":") with true. cbv iota.
  rewrite (span_all is_space ws ("'" ++ t ++ "'" ++ r4) Hws) by reflexivity.
  change (("'" ++ t ++ "'" ++ r4)%string) with (String "'" (t ++ "'" ++ r4)).
  cbv iota.
  rewrite (span_all (fun a => negb (Ascii.eqb a "'")) t ("'" ++ r4) Ht) by reflexivity.
  change (("'" ++ r4)%string) with (String "'" r4). cbv iota.
  rewrite (quote_values_fuel _ (String.length r4) r4); [reflexivity| |lia].
  rewrite !length_append. cbn. rewrite !length_append. cbn. lia.
Qed.

Definition is_sep (c : ascii) : bool := Ascii.eqb c "{" || Ascii.eqb c ",".

Lemma well_written_classes (w : written) :
  well_written w = true ->
  all_chars no_sep (as_written w) = true /\
  match w with
  | Plain text => all_chars no_quote text = true
  | SingleQuoted space text rest =>
      all_chars is_space space = true /\ all_chars no_quote text = true /\
      all_chars no_quote rest = true
  end.
Proof.
  destruct w as [t|ws t r]; cbn [well_written as_written].
  - intros H. split; eapply all_chars_impl; try exact H; intros c Hc;
      now apply plain_classes in Hc.
  - intros [[H1 H2]%andb_true_iff H3]%andb_true_iff.
    assert (P : forall s, all_chars plain s = true ->
                all_chars no_sep s = true /\ all_chars no_quote s = true).
    { intros s Hs. split; eapply all_chars_impl; try exact Hs; intros c Hc;
        now apply plain_classes in Hc. }
    destruct (P t H2) as [T1 T2]. destruct (P r H3) as [R1 R2].
    split; [|auto].
    rewrite !all_chars_app, T1, R1.
    rewrite (all_chars_impl is_space no_sep ws); [reflexivity| |exact H1].
    intros c Hc. now apply space_classes in Hc.
Qed.

Lemma member_bare (c : ascii) (m : member) (rest : string) :
  String c (member_text "" as_written m ++ rest)
  = String c (lead m ++ key m ++ gap m ++ ":" ++ as_written (value m) ++ rest).
Proof. unfold member_text. now rewrite !append_assoc. Qed.

Lemma member_quoted (c : ascii) (show : written -> string) (m : member) (rest : string) :
  String c (member_text dq show m ++ rest)
  = String c (lead m ++ dq ++ key m ++ dq ++ gap m ++ ":" ++ show (value m) ++ rest).
Proof. unfold member_text. now rewrite !append_assoc. Qed.

Lemma well_formed_parts (m : member) :
  well_formed m = true ->
  all_chars is_space (lead m) = true /\ key m <> EmptyString /\
  all_chars is_word (key m) = true /\ all_chars is_space (gap m) = true /\
  well_written (value m) = true.
Proof.
  unfold well_formed.
  intros [[[[H1 H2]%andb_true_iff H3]%andb_true_iff H4]%andb_true_iff H5]%andb_true_iff.
  repeat split; try assumption.
  intros E. rewrite E in H2. discriminate H2.
Qed.

(** One member under the first [replace]. *)
Lemma keys_step (c : ascii) (m : member) (more more' : string) :
  is_sep c = true -> well_formed m = true -> keys_quoted more = more' ->
  keys_quoted (String c (member_text "" as_written m ++ more))
  = String c (member_text dq as_written m ++ more').
Proof.
  intros Hc Hm Hmore.
  destruct (well_formed_parts m Hm) as (H1 & H2 & H3 & H4 & H5).
  destruct (well_written_classes _ H5) as [H6 _].
  rewrite member_bare, member_quoted, keys_member by assumption.
  now rewrite keys_through, Hmore.
Qed.

Lemma head_ok_more (quote : string) (show : written -> string) (ms : list member) :
  head_ok (more_members quote show ms) = true.
Proof. now destruct ms. Qed.

(** One member under the second [replace]. *)
Lemma values_step (c : ascii) (m : member) (more more' : string) :
  is_sep c = true -> well_formed m = true ->
  head_ok more = true -> values_quoted more = more' ->
  values_quoted (String c (member_text dq as_written m ++ more))
  = String c (member_text dq as_repaired m ++ more').
Proof.
  intros Hc Hm Hh Hmore.
  destruct (well_formed_parts m Hm) as (H1 & H2 & H3 & H4 & H5).
  destruct (well_written_classes _ H5) as [_ H6].
  rewrite !member_quoted.
  set (before := (String c (lead m ++ dq ++ key m ++ dq ++ gap m))%string).
  assert (Hb : all_chars no_quote before = true).
  { unfold before. cbn [all_chars]. rewrite !all_chars_app.
    rewrite (all_chars_impl is_space no_quote (lead m)); [|intros x Hx; now apply space_classes in Hx|exact H1].
    rewrite (all_chars_impl is_word no_quote (key m)); [|intros x Hx; now apply word_classes in Hx|exact H3].
    rewrite (all_chars_impl is_space no_quote (gap m)); [|intros x Hx; now apply space_classes in Hx|exact H4].
    unfold is_sep in Hc. apply orb_true_iff in Hc as [Hc|Hc];
      apply Ascii.eqb_eq in Hc; subst c; reflexivity. }
  assert (Hs : forall x : string,
             (String c (lead m ++ dq ++ key m ++ dq ++ gap m ++ ":" ++ x) = before ++ ":" ++ x)%string).
  { intros x. unfold before.
    change (String c (lead m ++ dq ++ key m ++ dq ++ gap m) ++ ":" ++ x)%string
      with (String c ((lead m ++ dq ++ key m ++ dq ++ gap m) ++ ":" ++ x)%string).
    now rewrite !append_assoc. }
  rewrite !Hs. destruct (value m) as [t|ws t r]; cbn [as_written as_repaired].
  - rewrite <- !append_assoc.
    rewrite (values_through ((before ++ ":") ++ t) more); [now rewrite Hmore| |exact Hh].
    now rewrite !all_chars_app, Hb, H6.
  - destruct H6 as (W1 & W2 & W3).
    rewrite values_through; [|exact Hb|reflexivity].
    change ((":" ++ (ws ++ "'" ++ t ++ "'" ++ r) ++ more)%string)
      with (String ":" ((ws ++ "'" ++ t ++ "'" ++ r) ++ more)).
    rewrite !append_assoc. rewrite values_member by assumption.
    rewrite values_through, Hmore by assumption.
    reflexivity.
Qed.

Lemma keys_more (ms : list member) :
  forallb well_formed ms = true ->
  keys_quoted (more_members "" as_written ms) = more_members dq as_written ms.
Proof.
  induction ms as [|m rest IH]; [reflexivity|].
  intros [Hm Hr]%andb_true_iff. apply (keys_step ","%char); auto.
Qed.

Lemma values_more (ms : list member) :
  forallb well_formed ms = true ->
  values_quoted (more_members dq as_written ms) = more_members dq as_repaired ms.
Proof.
  induction ms as [|m rest IH]; [reflexivity|].
  intros [Hm Hr]%andb_true_iff. apply (values_step ","%char); auto using head_ok_more.
Qed.

(** What the two [replace] calls make of a flat object text: every bare key
    stands between double quotes, and so does every text that was between
    single quotes. *)
Lemma fixedJson_object (ms : list member) :
  forallb well_formed ms = true ->
  fixedJson (object_text "" as_written ms) = object_text dq as_repaired ms.
Proof.
  intros H. change (fixedJson (object_text "" as_written ms))
    with (values_quoted (keys_quoted (object_text "" as_written ms))).
  destruct ms as [|m rest]; [reflexivity|]. cbn [object_text].
  cbn [forallb] in H. apply andb_true_iff in H as [Hm Hr].
  change ("{" ++ member_text "" as_written m ++ more_members "" as_written rest)%string
    with (String "{" (member_text "" as_written m ++ more_members "" as_written rest)).
  rewrite (keys_step "{"%char m _ _ eq_refl Hm (keys_more rest Hr)).
  now rewrite (values_step "{"%char m _ _ eq_refl Hm (head_ok_more _ _ _) (values_more rest Hr)).
Qed.

Lemma endsWithChar_app (c : ascii) (a b : string) :
  b <> EmptyString -> endsWithChar c (a ++ b) = endsWithChar c b.
Proof.
  intros Hb. induction a as [|x a IH]; [reflexivity|].
  change ((String x a ++ b)%string) with (String x (a ++ b)%string).
  cbn [endsWithChar]. destruct (a ++ b)%string eqn:E; [|exact IH].
  destruct a; [|discriminate E]. now contradiction Hb.
Qed.

Lemma more_members_end (quote : string) (show : written -> string) (ms : list member) :
  more_members quote show ms <> EmptyString /\
  endsWithChar "}" (more_members quote show ms) = true.
Proof.
  induction ms as [|m rest [I1 I2]]; [split; [discriminate|reflexivity]|].
  split; [discriminate|]. cbn [more_members].
  rewrite <- append_assoc, endsWithChar_app by exact I1. exact I2.
Qed.

Lemma object_text_shape (quote : string) (show : written -> string) (ms : list member) :
  object_text quote show ms <> EmptyString /\
  startsWith "{" (object_text quote show ms) = true /\
  endsWithChar "}" (object_text quote show ms) = true.
Proof.
  destruct ms as [|m rest]; [repeat split; discriminate|].
  split; [discriminate|]. split.
  - cbn [object_text]. unfold startsWith.
    change ("{" ++ member_text quote show m ++ more_members quote show rest)%string
      with (String "{" (member_text quote show m ++ more_members quote show rest)).
    cbn. now destruct (member_text quote show m ++ more_members quote show rest)%string.
  - cbn [object_text]. destruct (more_members_end quote show rest) as [I1 I2].
    rewrite <- append_assoc, endsWithChar_app by exact I1. exact I2.
Qed.

Lemma trim_blank (s : string) : all_chars is_space s = true -> trim s = EmptyString.
Proof.
  intros H. unfold trim, trimStart.
  replace s with (s ++ "")%string at 1.
  - now rewrite span_all.
  - clear H. induction s as [|c r IH]; [reflexivity|].
    change ((String c r ++ "")%string) with (String c (r ++ "")%string). now rewrite IH.
Qed.

Lemma includes_startsWith (sub s : string) :
  (includes sub s = false -> startsWith sub s = false) /\
  (startsWith sub s = true -> includes sub s = true).
Proof.
  rewrite includes_eq. split.
  - now intros [H _]%orb_false_iff.
  - now intros ->.
Qed.


(** A stand-in for [JSON.parse] that knows one text. *)
Definition parse_sample (text : string) : option jsval :=
  if String.eqb text ("{" ++ dq ++ "a" ++ dq ++ ": 1, " ++ dq ++ "b" ++ dq ++ " : "
                      ++ dq ++ "x" ++ dq ++ "}")
  then Some (JObj [("a"%string, JNum 1); ("b"%string, JStr "x")])
  else None.

Definition sample_members : list member :=
  [mkMember "" "a" "" (Plain " 1"); mkMember " " "b" " " (SingleQuoted " " "x" "")].



Definition line_feed : string := String (ascii_of_nat 10) EmptyString.


Lemma normalize_non_string_is_idempotent_witness :
  (forall s, JArr [JStr "a"] <> JStr s) /\
  _normalizeInput (fun _ => None) (_normalizeInput (fun _ => None) (JArr [JStr "a"]))
    = _normalizeInput (fun _ => None) (JArr [JStr "a"]).
Proof.
  split; [discriminate|].
  exact (proj2 (normalize_non_string_is_idempotent (fun _ => None) (JArr [JStr "a"])
                  ltac:(discriminate))).
Defined.

End Input.

(** ** Schema normalisation ([_ensureValidToolSchema], [fixArrayProperties])

    The schema is an object graph: [fixArrayProperties] writes into the objects
    it is given, and the annotations it writes point back to the enclosing
    schema.  Objects and arrays therefore live in a heap and are passed by
    reference. *)
Module Schema.

Local Open Scope list_scope.

Abbreviation addr := nat.

Inductive value : Type :=
| VUndef
| VNull
| VBool (b : bool)
| VNum (z : Z)
| VStr (s : string)
| VRef (a : addr).

(** An object or an array.  Both carry named properties, in creation order;
    an array carries its elements as well. *)
Record cell : Type := Cell {
  is_array : bool;
  elems : list value;
  props : list (string * value)
}.

Abbreviation heap := (list cell).

Definition truthy_value (v : value) : bool :=
  match v with
  | VUndef | VNull => false
  | VBool b => b
  | VNum z => negb (z =? 0)%Z
  | VStr s => negb (String.eqb s "")
  | VRef _ => true
  end.

(** [v === s] for a string literal [s]. *)
Definition is_str (v : value) (s : string) : bool :=
  match v with VStr s' => String.eqb s' s | _ => false end.

Fixpoint lookup_key (k : string) (l : list (string * value)) : value :=
  match l with
  | [] => VUndef
  | (k', v) :: l' => if String.eqb k k' then v else lookup_key k l'
  end.

Fixpoint set_key (k : string) (v : value) (l : list (string * value))
  : list (string * value) :=
  match l with
  | [] => [(k, v)]
  | (k', v') :: l' =>
      if String.eqb k k' then (k, v) :: l' else (k', v') :: set_key k v l'
  end.

(** [v.k] for a property name [k] that is not an array index; reading a
    property of a primitive gives [undefined]. *)
Definition get (h : heap) (v : value) (k : string) : value :=
  match v with
  | VRef a =>
      match h !! a with
      | Some c => lookup_key k (props c)
      | None => VUndef
      end
  | _ => VUndef
  end.

(** [a.k = v] *)
Definition set (h : heap) (a : addr) (k : string) (v : value) : heap :=
  match h !! a with
  | Some c => <[a := Cell (is_array c) (elems c) (set_key k v (props c))]> h
  | None => h
  end.

(** A new object or array. *)
Definition alloc_cell (h : heap) (c : cell) : heap * value :=
  (h ++ [c], VRef (length h)).

Fixpoint indexed (i : nat) (l : list value) : list (nat * value) :=
  match l with
  | [] => []
  | v :: l' => (i, v) :: indexed (S i) l'
  end.

(** [Object.entries(c)] *)
Definition entries (c : cell) : list (string * value) :=
  (if is_array c
   then List.map (fun '(i, v) => (pretty i, v)) (indexed 0 (elems c))
   else []) ++ props c.

Definition entries_at (h : heap) (a : addr) : list (string * value) :=
  match h !! a with
  | Some c => entries c
  | None => []
  end.

(** The cells of a sequence of values, created one after the other. *)
Definition build_elems (build : nat -> jsval -> list cell * value)
  : nat -> list jsval -> list cell * list value :=
  fix go (n : nat) (l : list jsval) : list cell * list value :=
    match l with
    | [] => ([], [])
    | x :: r =>
        let '(c1, v) := build n x in
        let '(c2, vs) := go (n + length c1) r in
        (c1 ++ c2, v :: vs)
    end.

Definition build_fields (build : nat -> jsval -> list cell * value)
  : nat -> list (string * jsval) -> list cell * list (string * value) :=
  fix go (n : nat) (l : list (string * jsval)) : list cell * list (string * value) :=
    match l with
    | [] => ([], [])
    | (k, x) :: r =>
        let '(c1, v) := build n x in
        let '(c2, ps) := go (n + length c1) r in
        (c1 ++ c2, (k, v) :: ps)
    end.

(** The cells that evaluating an object literal or [JSON.parse] creates for
    the tree [t] in a heap of [n] cells, inner values first, and the value
    that stands for [t]. *)
Fixpoint build (n : nat) (t : jsval) : list cell * value :=
  match t with
  | JUndef => ([], VUndef)
  | JNull => ([], VNull)
  | JBool b => ([], VBool b)
  | JNum z => ([], VNum z)
  | JStr s => ([], VStr s)
  | JArr l =>
      let '(cs, vs) := build_elems build n l in
      (cs ++ [Cell true vs []], VRef (n + length cs))
  | JObj l =>
      let '(cs, ps) := build_fields build n l in
      (cs ++ [Cell false [] ps], VRef (n + length cs))
  end.

Definition alloc (t : jsval) (h : heap) : heap * value :=
  let '(cs, v) := build (length h) t in (h ++ cs, v).

(** How a traversal ends: with a result, with an exception, or because the
    recursion budget of the model is used up. *)
Inductive outcome (A : Type) : Type :=
| Done (a : A)
| Throws
| OutOfFuel.
Arguments Done {A} a.
Arguments Throws {A}.
Arguments OutOfFuel {A}.

Definition bind {A B : Type} (o : outcome A) (f : A -> outcome B) : outcome B :=
  match o with
  | Done a => f a
  | Throws => Throws
  | OutOfFuel => OutOfFuel
  end.

(** The elements of an array, serialised in order; [undefined] becomes
    [null]. *)
Fixpoint stringify_elems (rec : value -> outcome jsval) (l : list value)
  : outcome (list jsval) :=
  match l with
  | [] => Done []
  | v :: l' =>
      bind (rec v) (fun t =>
      bind (stringify_elems rec l') (fun ts =>
      Done ((match t with JUndef => JNull | _ => t end) :: ts)))
  end.

(** The properties of an object, serialised in order; a property whose value
    is [undefined] is left out. *)
Fixpoint stringify_props (rec : value -> outcome jsval) (l : list (string * value))
  : outcome (list (string * jsval)) :=
  match l with
  | [] => Done []
  | (k, v) :: l' =>
      bind (rec v) (fun t =>
      bind (stringify_props rec l') (fun ts =>
      Done (match t with JUndef => ts | _ => (k, t) :: ts end)))
  end.

(** [JSON.parse(JSON.stringify(v))] up to the allocation of the result: the
    tree that the text describes.  [stack] holds the objects that are being
    serialised; meeting one of them again is the circular-structure
    [TypeError].  The named properties of an array are not serialised. *)
Fixpoint stringify (fuel : nat) (stack : list addr) (h : heap) (v : value)
  : outcome jsval :=
  match v with
  | VUndef => Done JUndef
  | VNull => Done JNull
  | VBool b => Done (JBool b)
  | VNum z => Done (JNum z)
  | VStr s => Done (JStr s)
  | VRef a =>
      match fuel with
      | O => OutOfFuel
      | S fuel' =>
          if bool_decide (a ∈ stack) then Throws else
          match h !! a with
          | None => Done JUndef
          | Some c =>
              if is_array c
              then bind (stringify_elems (stringify fuel' (a :: stack) h) (elems c))
                        (fun ts => Done (JArr ts))
              else bind (stringify_props (stringify fuel' (a :: stack) h) (props c))
                        (fun ts => Done (JObj ts))
          end
      end
  end.

(** [{ type: 'string' }] *)
Definition string_items : jsval := JObj [("type", JStr "string")].

(** [{ type: 'object', properties: { type: { type: 'string' },
      selector: { type: 'string' } } }] *)
Definition actions_items : jsval :=
  JObj [("type", JStr "object");
        ("properties", JObj [("type", JObj [("type", JStr "string")]);
                             ("selector", JObj [("type", JStr "string")])])].

(** [obj.name === k || (obj.parent && obj.parent.property === k)] *)
Definition known_as (h : heap) (a : addr) (k : string) : bool :=
  is_str (get h (VRef a) "name") k ||
  (truthy_value (get h (VRef a) "parent") &&
   is_str (get h (get h (VRef a) "parent") "property") k).

(** The first block of [fixArrayProperties]: an array-typed schema without
    [items] gets an item schema chosen by its name. *)
Definition add_items (h : heap) (a : addr) : heap :=
  if is_str (get h (VRef a) "type") "array" &&
     negb (truthy_value (get h (VRef a) "items"))
  then
    let '(h1, items) :=
      alloc (if known_as h a "actions" then actions_items
             else if known_as h a "formats" then string_items
             else string_items) h in
    set h1 a "items" items
  else h.

(** [c.parent = { object: obj, property }] *)
Definition set_parent (h : heap) (obj : addr) (property : string) (c : addr) : heap :=
  let '(h1, p) :=
    alloc_cell h (Cell false [] [("object", VRef obj); ("property", VStr property)]) in
  set h1 c "parent" p.

Fixpoint fold_heap {A : Type} (f : heap -> A -> option heap) (h : heap) (l : list A)
  : option heap :=
  match l with
  | [] => Some h
  | x :: l' =>
      match f h x with
      | Some h' => fold_heap f h' l'
      | None => None
      end
  end.

(** The loop over [Object.entries(obj.properties)]: a property that is an
    object is given its [parent] and [name] and then fixed. *)
Definition fix_properties (rec : heap -> value -> option heap) (a : addr) (h : heap)
  : option heap :=
  match get h (VRef a) "properties" with
  | VRef pa =>
      fold_heap
        (fun h '(key, value) =>
           if truthy_value value then
             rec (match value with
                  | VRef c => set (set_parent h a key c) c "name" (VStr key)
                  | _ => h
                  end) value
           else Some h)
        h (entries_at h pa)
  | _ => Some h
  end.

(** The block for [obj.items]. *)
Definition fix_items (rec : heap -> value -> option heap) (a : addr) (h : heap)
  : option heap :=
  match get h (VRef a) "items" with
  | VRef c => rec (set_parent h a "items" c) (VRef c)
  | _ => Some h
  end.

(** The loop over [Object.entries(obj.patternProperties)]. *)
Definition fix_patternProperties (rec : heap -> value -> option heap) (a : addr)
    (h : heap) : option heap :=
  match get h (VRef a) "patternProperties" with
  | VRef pa =>
      fold_heap
        (fun h '(pattern, patternProp) =>
           match patternProp with
           | VRef c =>
               rec (set_parent h a ("patternProperties[" ++ pattern ++ "]")%string c)
                   (VRef c)
           | _ => Some h
           end)
        h (entries_at h pa)
  | _ => Some h
  end.

(** The loop over the members of [obj[complexProp]] when that is an array;
    a member that is not an object makes the assignment of [parent] throw,
    which the [catch] of that member absorbs. *)
Definition fix_complex (rec : heap -> value -> option heap) (a : addr)
    (h : heap) (complexProp : string) : option heap :=
  match get h (VRef a) complexProp with
  | VRef ca =>
      match h !! ca with
      | Some (Cell true complexProps _) =>
          fold_heap
            (fun h '(index, subSchema) =>
               match subSchema with
               | VRef c =>
                   rec (set_parent h a
                          (complexProp ++ "[" ++ pretty index ++ "]")%string c)
                       (VRef c)
               | _ => Some h
               end)
            h (indexed 0 complexProps)
      | _ => Some h
      end
  | _ => Some h
  end.

(** [fixArrayProperties(obj)].  The result is [None] when the recursion budget
    [fuel] of the model is used up.  Nothing in the function throws, so its
    [try] blocks have nothing to catch. *)
Fixpoint fixArrayProperties (fuel : nat) (h : heap) (obj : value) : option heap :=
  match obj with
  | VRef a =>
      match fuel with
      | O => None
      | S fuel' =>
          let rec := fixArrayProperties fuel' in
          h1 ← fix_properties rec a (add_items h a);
          h2 ← fix_items rec a h1;
          h3 ← fix_patternProperties rec a h2;
          fold_heap (fix_complex rec a) h3 ["oneOf"; "anyOf"; "allOf"]%string
      end
  | _ => Some h
  end.

(** [_ensureValidToolSchema(schema)]: the heap afterwards and the value that
    is returned.  The copy is made of the tree that the serialisation
    describes; whenever the [try] block throws, the schema that was given is
    returned. *)
Definition _ensureValidToolSchema (h : heap) (schema : value) : heap * value :=
  if negb (truthy_value schema) then (h, schema) else
  match stringify (S (length h)) [] h schema with
  | Done t =>
      let '(h1, validatedSchema) := alloc t h in
      match validatedSchema with
      | VRef a =>
          if is_str (get h1 validatedSchema "type") "object" then
            let h2 :=
              if negb (truthy_value (get h1 validatedSchema "required"))
              then let '(h', r) := alloc (JArr []) h1 in set h' a "required" r
              else h1 in
            let h3 :=
              if negb (truthy_value (get h2 validatedSchema "properties"))
              then let '(h', p) := alloc (JObj []) h2 in set h' a "properties" p
              else h2 in
            match fixArrayProperties (length h3 + 4) h3 validatedSchema with
            | Some h4 => (h4, validatedSchema)
            | None => (h3, validatedSchema)
            end
          else if is_str (get h1 validatedSchema "type") "array" &&
                  negb (truthy_value (get h1 validatedSchema "items"))
          then
            let '(h', items) := alloc string_items h1 in
            (set h' a "items" items, validatedSchema)
          else (h1, validatedSchema)
      | _ => (h, schema)
      end
  | _ => (h, schema)
  end.

(** *** Positions in a schema

    The places [fixArrayProperties] descends to from a schema: a property, the
    item schema, a pattern property, a member of [oneOf], [anyOf] or
    [allOf]. *)
Inductive step : Type :=
| AtProperty (key : string)
| AtItems
| AtPattern (pattern : string)
| AtMember (complexProp : string) (index : nat).

(** The [property] that the parent annotation of the child records. *)
Definition property_of (s : step) : string :=
  match s with
  | AtProperty key => key
  | AtItems => "items"
  | AtPattern pattern => "patternProperties[" ++ pattern ++ "]"
  | AtMember complexProp index => complexProp ++ "[" ++ pretty index ++ "]"
  end%string.

(** The [name] that the child is given, if any. *)
Definition name_of (s : step) : option string :=
  match s with
  | AtProperty key => Some key
  | _ => None
  end.

Definition complex (complexProp : string) : bool :=
  existsb (String.eqb complexProp) ["oneOf"; "anyOf"; "allOf"]%string.

Fixpoint entry (k : string) (l : list (string * jsval)) : option jsval :=
  match l with
  | [] => None
  | (k', t) :: l' => if String.eqb k k' then Some t else entry k l'
  end.

(** [t.k] in a tree, [JUndef] when there is none. *)
Definition field_of (t : jsval) (k : string) : jsval :=
  match t with
  | JObj l => match entry k l with Some x => x | None => JUndef end
  | _ => JUndef
  end.

Fixpoint keyed (i : nat) (l : list jsval) : list (string * jsval) :=
  match l with
  | [] => []
  | x :: r => (pretty i, x) :: keyed (S i) r
  end.

(** [Object.entries(t)] in a tree. *)
Definition tree_entries (t : jsval) : list (string * jsval) :=
  match t with
  | JObj l => l
  | JArr l => keyed 0 l
  | _ => []
  end.

Definition is_object (t : jsval) : bool :=
  match t with JObj _ | JArr _ => true | _ => false end.

Definition child_of (t : jsval) (s : step) : option jsval :=
  match s with
  | AtProperty key => entry key (tree_entries (field_of t "properties"))
  | AtItems => Some (field_of t "items")
  | AtPattern pattern => entry pattern (tree_entries (field_of t "patternProperties"))
  | AtMember complexProp index =>
      if complex complexProp then
        match field_of t complexProp with
        | JArr l => l !! index
        | _ => None
        end
      else None
  end.

Definition is_string (t : jsval) (s : string) : bool :=
  match t with JStr s' => String.eqb s' s | _ => false end.

(** Whether a schema found at a position is treated as the field [k]: it was
    named [k] by its parent or carries that name itself, or the property its
    parent recorded is [k]. *)
Definition treated_as (k : string) (s : step) (t : jsval) : bool :=
  match name_of s with
  | Some name => String.eqb name k
  | None => is_string (field_of t "name") k
  end || String.eqb (property_of s) k.

(** The schema at a position, together with whether it is treated as the
    field [actions]. *)
Fixpoint subschema (t : jsval) (actions : bool) (p : list step) : option (jsval * bool) :=
  match p with
  | [] => Some (t, actions)
  | s :: p' =>
      match child_of t s with
      | Some child =>
          if is_object child
          then subschema child (treated_as "actions" s child) p'
          else None
      | None => None
      end
  end.

(** An array-typed schema without [items]. *)
Definition lacking (t : jsval) : bool :=
  is_string (field_of t "type") "array" && negb (truthy (field_of t "items")).

(** The same positions in the heap; every object that is passed through lies
    between [lo] and [hi]. *)
Definition inside (lo hi x : nat) : bool := ((lo <=? x) && (x <=? hi))%nat.

Definition lookup_ref (lo hi : nat) (k : string) (l : list (string * value)) : option addr :=
  match lookup_key k l with
  | VRef c => if inside lo hi c then Some c else None
  | _ => None
  end.

Definition nav (lo hi : nat) (h : heap) (a : addr) (s : step) : option addr :=
  match s with
  | AtProperty key =>
      match get h (VRef a) "properties" with
      | VRef pa => if inside lo hi pa then lookup_ref lo hi key (entries_at h pa) else None
      | _ => None
      end
  | AtItems =>
      match get h (VRef a) "items" with
      | VRef c => if inside lo hi c then Some c else None
      | _ => None
      end
  | AtPattern pattern =>
      match get h (VRef a) "patternProperties" with
      | VRef pa => if inside lo hi pa then lookup_ref lo hi pattern (entries_at h pa) else None
      | _ => None
      end
  | AtMember complexProp index =>
      if complex complexProp then
        match get h (VRef a) complexProp with
        | VRef ca =>
            if inside lo hi ca then
              match h !! ca with
              | Some (Cell true complexProps _) =>
                  match complexProps !! index with
                  | Some (VRef c) => if inside lo hi c then Some c else None
                  | _ => None
                  end
              | _ => None
              end
            else None
        | _ => None
        end
      else None
  end.

Fixpoint walk (lo hi : nat) (h : heap) (a : addr) (p : list step) : option addr :=
  match p with
  | [] => if inside lo hi a then Some a else None
  | s :: p' =>
      match nav lo hi h a s with
      | Some c => walk lo hi h c p'
      | None => None
      end
  end.

(** The item schemas that the repair installs. *)
Definition actions_shape (h : heap) (i : value) : Prop :=
  get h i "type" = VStr "object" /\
  exists pr q1 q2,
    get h i "properties" = VRef pr /\
    get h (VRef pr) "type" = VRef q1 /\ get h (VRef q1) "type" = VStr "string" /\
    get h (VRef pr) "selector" = VRef q2 /\ get h (VRef q2) "type" = VStr "string".

Definition string_shape (h : heap) (i : value) : Prop :=
  get h i "type" = VStr "string".

Definition items_ok (h : heap) (x : addr) (actions : bool) : Prop :=
  exists i, get h (VRef x) "items" = VRef i /\
            if actions then actions_shape h (VRef i) else string_shape h (VRef i).

(** What a completed traversal of the tree [t] at address [a] leaves behind:
    every schema of [t] that the traversal reaches is found at the same
    position in the heap, has its items if it lacked them, and each of its
    children that is an object points back to it through [parent]. *)
Definition facts (t : jsval) (actions : bool) (lo a : nat) (h : heap) : Prop :=
  forall p node act, subschema t actions p = Some (node, act) ->
    exists x, walk lo a h a p = Some x /\
      (lacking node = true -> items_ok h x act) /\
      (forall s child, child_of node s = Some child -> is_object child = true ->
         exists c pn, nav lo a h x s = Some c /\
           get h (VRef c) "parent" = VRef pn /\
           get h (VRef pn) "object" = VRef x /\
           get h (VRef pn) "property" = VStr (property_of s)).

(** The recursion budget that the traversal of [t] needs. *)
Fixpoint need (t : jsval) : nat :=
  match t with
  | JObj l =>
      Nat.max (if lacking (JObj l) then 4 else 0)
              (S (list_max (List.map (fun kv => need (snd kv)) l)))
  | JArr l => S (list_max (List.map need l))
  | _ => 0
  end.

(** *** The heap: reading, writing, allocating *)

Lemma lookup_key_set_key (k k' : string) (v : value) (l : list (string * value)) :
  lookup_key k' (set_key k v l) = if String.eqb k' k then v else lookup_key k' l.
Proof.
  induction l as [|[k0 v0] l IH]; cbn.
  - destruct (String.eqb k' k); reflexivity.
  - destruct (String.eqb_spec k k0) as [->|Hne]; cbn.
    + destruct (String.eqb k' k0); reflexivity.
    + rewrite IH. destruct (String.eqb_spec k' k0) as [->|Hne'];
        [|reflexivity].
      destruct (String.eqb_spec k0 k); [congruence|reflexivity].
Qed.

Lemma length_set (h : heap) (a : addr) (k : string) (v : value) :
  length (set h a k v) = length h.
Proof. unfold set. destruct (h !! a); [apply length_insert|reflexivity]. Qed.

Lemma lookup_set_ne (h : heap) (a x : addr) (k : string) (v : value) :
  x <> a -> set h a k v !! x = h !! x.
Proof.
  intros Hne. unfold set. destruct (h !! a); [|reflexivity].
  apply list_lookup_insert_ne. congruence.
Qed.

Lemma lookup_set_eq (h : heap) (a : addr) (k : string) (v : value) (c : cell) :
  h !! a = Some c ->
  set h a k v !! a = Some (Cell (is_array c) (elems c) (set_key k v (props c))).
Proof.
  intros Hc. unfold set. rewrite Hc.
  apply list_lookup_insert_eq. eapply lookup_lt_Some; eauto.
Qed.

Lemma get_set (h : heap) (a : addr) (k : string) (v : value) (x : addr) (k' : string) :
  a < length h ->
  get (set h a k v) (VRef x) k' =
    if bool_decide (x = a) && String.eqb k' k then v else get h (VRef x) k'.
Proof.
  intros Ha. destruct (lookup_lt_is_Some_2 h a Ha) as [c Hc].
  unfold get. destruct (decide (x = a)) as [->|Hne].
  - rewrite bool_decide_eq_true_2 by reflexivity.
    rewrite (lookup_set_eq _ _ _ _ _ Hc); cbn. rewrite Hc.
    apply lookup_key_set_key.
  - rewrite bool_decide_eq_false_2 by assumption.
    now rewrite lookup_set_ne.
Qed.

(** [extends h h']: every cell of [h] is still there in [h'], it is still an
    object or still an array with the same elements, and its properties are
    the same except possibly for [items], [parent] and [name]. *)
Definition special (k : string) : bool :=
  String.eqb k "items" || String.eqb k "parent" || String.eqb k "name".

Definition same_but_special (c c' : cell) : Prop :=
  is_array c' = is_array c /\ elems c' = elems c /\
  forall k, special k = false -> lookup_key k (props c') = lookup_key k (props c).

Definition extends (h h' : heap) : Prop :=
  forall x c, h !! x = Some c -> exists c', h' !! x = Some c' /\ same_but_special c c'.

Lemma extends_refl (h : heap) : extends h h.
Proof. intros x c Hc. exists c. repeat split; auto. Qed.

Lemma extends_trans (h1 h2 h3 : heap) :
  extends h1 h2 -> extends h2 h3 -> extends h1 h3.
Proof.
  intros H12 H23 x c Hc.
  destruct (H12 x c Hc) as (c2 & Hc2 & Ha & He & Hk).
  destruct (H23 x c2 Hc2) as (c3 & Hc3 & Ha' & He' & Hk').
  exists c3. split; [exact Hc3|]. repeat split; try congruence.
  intros k Hs. rewrite Hk', Hk; auto.
Qed.

Lemma extends_length (h h' : heap) : extends h h' -> length h <= length h'.
Proof.
  intros H. destruct (decide (length h <= length h')) as [|Hn]; [assumption|].
  exfalso. assert (Hlt : length h' < length h) by lia.
  destruct (lookup_lt_is_Some_2 h _ Hlt) as [c Hc].
  destruct (H _ _ Hc) as (c' & Hc' & _).
  apply lookup_lt_Some in Hc'. lia.
Qed.

Lemma extends_app (h cs : heap) : extends h (h ++ cs).
Proof.
  intros x c Hc. exists c. split; [|repeat split; auto].
  rewrite lookup_app_l; [assumption|]. eapply lookup_lt_Some; eauto.
Qed.

Lemma extends_set (h : heap) (a : addr) (k : string) (v : value) :
  special k = true -> extends h (set h a k v).
Proof.
  intros Hs x c Hc. destruct (decide (x = a)) as [->|Hne].
  - eexists. split; [apply lookup_set_eq; eassumption|].
    repeat split. cbn. intros k' Hk'. rewrite lookup_key_set_key.
    destruct (String.eqb_spec k' k); [congruence|reflexivity].
  - exists c. rewrite lookup_set_ne by assumption. repeat split; auto.
Qed.

Lemma extends_get (h h' : heap) (x : addr) (k : string) (v : value) :
  extends h h' -> special k = false -> v <> VUndef ->
  get h (VRef x) k = v -> get h' (VRef x) k = v.
Proof.
  intros He Hs Hv Hg. unfold get in *.
  destruct (h !! x) as [c|] eqn:Hc; [|congruence].
  destruct (He _ _ Hc) as (c' & -> & _ & _ & Hk). now rewrite Hk.
Qed.

Lemma alloc_app (t : jsval) (h : heap) :
  alloc t h = (h ++ fst (build (length h) t), snd (build (length h) t)).
Proof. unfold alloc. now destruct (build (length h) t). Qed.

Lemma extends_alloc (t : jsval) (h : heap) : extends h (fst (alloc t h)).
Proof. rewrite alloc_app. apply extends_app. Qed.

Lemma extends_add_items (h : heap) (a : addr) : extends h (add_items h a).
Proof.
  unfold add_items.
  destruct (is_str _ "array" && _); [|apply extends_refl].
  match goal with |- context [alloc ?t h] =>
    pose proof (extends_alloc t h) as He; destruct (alloc t h) as [h1 items] end.
  eapply extends_trans; [exact He|]. now apply extends_set.
Qed.

Lemma extends_set_parent (h : heap) (obj : addr) (property : string) (c : addr) :
  extends h (set_parent h obj property c).
Proof.
  unfold set_parent, alloc_cell.
  eapply extends_trans; [apply extends_app|]. now apply extends_set.
Qed.

Lemma fold_heap_extends {A : Type} (f : heap -> A -> option heap) (l : list A) :
  (forall h x h', f h x = Some h' -> extends h h') ->
  forall h h', fold_heap f h l = Some h' -> extends h h'.
Proof.
  intros Hf. induction l as [|x l IH]; intros h h' H; cbn in H.
  - injection H as <-. apply extends_refl.
  - destruct (f h x) as [h1|] eqn:E; [|discriminate].
    eapply extends_trans; [eapply Hf; eassumption|]. now apply IH.
Qed.

(** Whatever [fixArrayProperties] is called on, it only appends cells and
    writes the properties [items], [parent] and [name]. *)
Lemma fixArrayProperties_S (fuel : nat) (h : heap) (a : addr) :
  fixArrayProperties (S fuel) h (VRef a) =
    (h1 ← fix_properties (fixArrayProperties fuel) a (add_items h a);
     h2 ← fix_items (fixArrayProperties fuel) a h1;
     h3 ← fix_patternProperties (fixArrayProperties fuel) a h2;
     fold_heap (fix_complex (fixArrayProperties fuel) a) h3
       ["oneOf"; "anyOf"; "allOf"]%string).
Proof. reflexivity. Qed.

Lemma fixArrayProperties_prim (fuel : nat) (h : heap) (v : value) :
  (forall a, v <> VRef a) -> fixArrayProperties fuel h v = Some h.
Proof. intros H. destruct v, fuel; try reflexivity; now contradiction (H a). Qed.

Section Extends.
Variable rec : heap -> value -> option heap.
Hypothesis rec_extends : forall h v h', rec h v = Some h' -> extends h h'.

Lemma fix_properties_extends (a : addr) (h h' : heap) :
  fix_properties rec a h = Some h' -> extends h h'.
Proof.
  unfold fix_properties. destruct (get h (VRef a) "properties");
    try (intros [= <-]; apply extends_refl).
  apply fold_heap_extends. intros hh [key value] hh' Hs.
  destruct (truthy_value value); [|injection Hs as <-; apply extends_refl].
  apply rec_extends in Hs. eapply extends_trans; [|exact Hs].
  destruct value; try apply extends_refl.
  eapply extends_trans; [apply extends_set_parent|]. now apply extends_set.
Qed.

Lemma fix_items_extends (a : addr) (h h' : heap) :
  fix_items rec a h = Some h' -> extends h h'.
Proof.
  unfold fix_items. destruct (get h (VRef a) "items");
    try (intros [= <-]; apply extends_refl).
  intros Hs. apply rec_extends in Hs.
  eapply extends_trans; [apply extends_set_parent|exact Hs].
Qed.

Lemma fix_patternProperties_extends (a : addr) (h h' : heap) :
  fix_patternProperties rec a h = Some h' -> extends h h'.
Proof.
  unfold fix_patternProperties. destruct (get h (VRef a) "patternProperties");
    try (intros [= <-]; apply extends_refl).
  apply fold_heap_extends. intros hh [pattern patternProp] hh' Hs.
  destruct patternProp; try (injection Hs as <-; apply extends_refl).
  apply rec_extends in Hs. eapply extends_trans; [apply extends_set_parent|exact Hs].
Qed.

Lemma fix_complex_extends (a : addr) (h : heap) (complexProp : string) (h' : heap) :
  fix_complex rec a h complexProp = Some h' -> extends h h'.
Proof.
  unfold fix_complex. destruct (get h (VRef a) complexProp) as [| | | | |ca];
    try (intros [= <-]; apply extends_refl).
  destruct (h !! ca) as [[[|] complexProps ps]|];
    try (intros [= <-]; apply extends_refl).
  apply fold_heap_extends. intros hh1 [index subSchema] hh1' Hs.
  destruct subSchema; try (injection Hs as <-; apply extends_refl).
  apply rec_extends in Hs. eapply extends_trans; [apply extends_set_parent|exact Hs].
Qed.

End Extends.

(** Whatever [fixArrayProperties] is called on, it only appends cells and
    writes the properties [items], [parent] and [name]. *)
Lemma fixArrayProperties_extends (fuel : nat) :
  forall (h : heap) (obj : value) (h' : heap),
    fixArrayProperties fuel h obj = Some h' -> extends h h'.
Proof.
  induction fuel as [|fuel IH]; intros h obj h' H.
  - destruct obj; cbn in H; try discriminate; injection H as <-; apply extends_refl.
  - destruct obj as [| | | | |a];
      try (cbn in H; injection H as <-; apply extends_refl).
    rewrite fixArrayProperties_S in H.
    destruct (fix_properties _ a _) as [h1|] eqn:E1; [|discriminate].
    cbn [mbind option_bind] in H.
    destruct (fix_items _ a h1) as [h2|] eqn:E2; [|discriminate].
    cbn [mbind option_bind] in H.
    destruct (fix_patternProperties _ a h2) as [h3|] eqn:E3; [|discriminate].
    cbn [mbind option_bind] in H.
    eapply extends_trans; [apply extends_add_items|].
    eapply extends_trans; [eapply fix_properties_extends; eauto|].
    eapply extends_trans; [eapply fix_items_extends; eauto|].
    eapply extends_trans; [eapply fix_patternProperties_extends; eauto|].
    revert H. apply fold_heap_extends. intros hh cp hh'.
    apply fix_complex_extends, IH.
Qed.

(** *** The layout of built trees *)

(** Where the cells of the [j]-th entry of [l] start when [l] is built at
    [lo]. *)
Fixpoint field_lo (lo : nat) (l : list (string * jsval)) (j : nat) : nat :=
  match j, l with
  | S j', (_, x) :: r => field_lo (lo + length (fst (build lo x))) r j'
  | _, _ => lo
  end.

(** The cells [cs] are in the heap from address [lo] on. *)
Definition holds (h : heap) (lo : nat) (cs : list cell) : Prop :=
  forall i c, cs !! i = Some c -> h !! (lo + i) = Some c.

Lemma holds_app (h : heap) (lo : nat) (c1 c2 : list cell) :
  holds h lo (c1 ++ c2) <-> holds h lo c1 /\ holds h (lo + length c1) c2.
Proof.
  split.
  - intros H. split; intros i c Hi.
    + apply H. rewrite lookup_app_l; [assumption|]. eapply lookup_lt_Some; eauto.
    + replace (lo + length c1 + i) with (lo + (length c1 + i)) by lia.
      apply H. rewrite lookup_app_r by lia.
      now replace (length c1 + i - length c1) with i by lia.
  - intros [H1 H2] i c Hi. destruct (decide (i < length c1)).
    + apply H1. now rewrite lookup_app_l in Hi.
    + rewrite lookup_app_r in Hi by lia. apply H2 in Hi.
      now replace (lo + length c1 + (i - length c1)) with (lo + i) in Hi by lia.
Qed.

Lemma holds_frame (h h' : heap) (lo : nat) (cs : list cell) :
  holds h lo cs ->
  (forall x, lo <= x < lo + length cs -> h' !! x = h !! x) ->
  holds h' lo cs.
Proof.
  intros H Hf i c Hi. rewrite Hf; [now apply H|].
  apply lookup_lt_Some in Hi. lia.
Qed.

Lemma holds_self (h cs : heap) : holds (h ++ cs) (length h) cs.
Proof.
  intros i c Hi. rewrite lookup_app_r by lia.
  now replace (length h + i - length h) with i by lia.
Qed.

Lemma build_fields_cons (lo : nat) (k : string) (x : jsval) (r : list (string * jsval)) :
  build_fields build lo ((k, x) :: r) =
    (fst (build lo x) ++ fst (build_fields build (lo + length (fst (build lo x))) r),
     (k, snd (build lo x)) :: snd (build_fields build (lo + length (fst (build lo x))) r)).
Proof.
  cbn. destruct (build lo x) as [c1 v]; cbn.
  now destruct (build_fields build (lo + length c1) r).
Qed.

Lemma build_elems_keyed (lo i0 : nat) (l : list jsval) :
  fst (build_elems build lo l) = fst (build_fields build lo (keyed i0 l)) /\
  List.map (fun '(i, v) => (pretty i, v)) (indexed i0 (snd (build_elems build lo l)))
    = snd (build_fields build lo (keyed i0 l)).
Proof.
  revert lo i0. induction l as [|x r IH]; intros lo i0; [split; reflexivity|].
  cbn [keyed]. rewrite build_fields_cons. cbn [build_elems].
  destruct (build lo x) as [c1 v]; cbn [fst snd].
  specialize (IH (lo + length c1) (S i0)).
  change ((fix go (n : nat) (l : list jsval) {struct l} : list cell * list value :=
             match l with
             | [] => ([], [])
             | x :: r =>
                 let '(c1, v) := build n x in
                 let '(c2, vs) := go (n + length c1) r in (c1 ++ c2, v :: vs)
             end) (lo + length c1) r) with (build_elems build (lo + length c1) r).
  destruct (build_elems build (lo + length c1) r) as [c2 vs]; cbn in *.
  destruct IH as [-> <-]. split; reflexivity.
Qed.

Lemma build_obj (lo : nat) (l : list (string * jsval)) :
  build lo (JObj l) =
    (fst (build_fields build lo l) ++ [Cell false [] (snd (build_fields build lo l))],
     VRef (lo + length (fst (build_fields build lo l)))).
Proof. cbn. now destruct (build_fields build lo l). Qed.

Lemma build_arr (lo : nat) (l : list jsval) :
  build lo (JArr l) =
    (fst (build_elems build lo l) ++ [Cell true (snd (build_elems build lo l)) []],
     VRef (lo + length (fst (build_elems build lo l)))).
Proof. cbn. now destruct (build_elems build lo l). Qed.

(** The cells of an object or array: those of its entries, then its own
    cell, whose [Object.entries] are the built entries. *)
Lemma build_container (lo : nat) (t : jsval) :
  is_object t = true ->
  exists c,
    build lo t = (fst (build_fields build lo (tree_entries t)) ++ [c],
                  VRef (lo + length (fst (build_fields build lo (tree_entries t))))) /\
    entries c = snd (build_fields build lo (tree_entries t)) /\
    is_array c = (match t with JArr _ => true | _ => false end) /\
    (is_array c = false -> props c = snd (build_fields build lo (tree_entries t))) /\
    (is_array c = true -> props c = []).
Proof.
  destruct t as [| | | | |l|l]; try discriminate; intros _.
  - rewrite build_arr. destruct (build_elems_keyed lo 0 l) as [E1 E2].
    eexists. cbn [tree_entries]. rewrite <- E1. split; [reflexivity|].
    unfold entries; cbn. rewrite app_nil_r. repeat split; auto. discriminate.
  - rewrite build_obj. eexists. split; [reflexivity|]. cbn.
    repeat split; auto. discriminate.
Qed.

Lemma field_lo_le (l : list (string * jsval)) :
  forall lo j, lo <= field_lo lo l j.
Proof.
  induction l as [|[k x] r IH]; intros lo [|j]; cbn; try lia.
  specialize (IH (lo + length (fst (build lo x))) j). lia.
Qed.

(** The [j]-th entry of a built list: its value, its cells, and its place
    before the entries that follow. *)
Lemma build_fields_index (l : list (string * jsval)) :
  forall lo j k t, l !! j = Some (k, t) ->
    let lo_j := field_lo lo l j in
    snd (build_fields build lo l) !! j = Some (k, snd (build lo_j t)) /\
    lo_j + length (fst (build lo_j t)) <= lo + length (fst (build_fields build lo l)) /\
    (forall h, holds h lo (fst (build_fields build lo l)) -> holds h lo_j (fst (build lo_j t))) /\
    (forall j', j < j' -> lo_j + length (fst (build lo_j t)) <= field_lo lo l j').
Proof.
  induction l as [|[k0 x] r IH]; intros lo j k t Hj; [discriminate|].
  rewrite build_fields_cons; cbn [fst snd]. destruct j as [|j]; cbn in Hj.
  - injection Hj as -> ->. cbn. repeat split.
    + rewrite length_app. lia.
    + intros h Hh. now apply holds_app in Hh.
    + intros [|j'] Hlt; [lia|]. apply field_lo_le.
  - specialize (IH (lo + length (fst (build lo x))) j k t Hj).
    cbn [field_lo]. destruct IH as (I1 & I2 & I3 & I4). repeat split.
    + exact I1.
    + rewrite length_app. lia.
    + intros h Hh. apply holds_app in Hh. now apply I3.
    + intros [|j'] Hlt; [lia|]. apply I4. lia.
Qed.

Lemma entry_index (k : string) (l : list (string * jsval)) (t : jsval) :
  entry k l = Some t ->
  exists j, l !! j = Some (k, t) /\
    forall lo, lookup_key k (snd (build_fields build lo l)) = snd (build (field_lo lo l j) t).
Proof.
  induction l as [|[k0 x] r IH]; [discriminate|]. cbn [entry].
  destruct (String.eqb_spec k k0) as [->|Hne].
  - intros [= ->]. exists 0. split; [reflexivity|]. intros lo.
    rewrite build_fields_cons; cbn. now rewrite String.eqb_refl.
  - intros H. destruct (IH H) as (j & Hj & Hl). exists (S j). split; [exact Hj|].
    intros lo. rewrite build_fields_cons; cbn.
    destruct (String.eqb_spec k k0); [congruence|]. apply Hl.
Qed.

Lemma entry_none (k : string) (l : list (string * jsval)) :
  entry k l = None ->
  forall lo, lookup_key k (snd (build_fields build lo l)) = VUndef.
Proof.
  induction l as [|[k0 x] r IH]; [reflexivity|]. cbn [entry].
  destruct (String.eqb_spec k k0) as [->|Hne]; [discriminate|].
  intros H lo. rewrite build_fields_cons; cbn.
  destruct (String.eqb_spec k k0); [congruence|]. now apply IH.
Qed.

Lemma build_prim (n : nat) (t : jsval) :
  is_object t = false ->
  fst (build n t) = [] /\ forall a, snd (build n t) <> VRef a.
Proof. destruct t; try discriminate; intros _; split; cbn; congruence. Qed.

Lemma build_ref (n : nat) (t : jsval) :
  is_object t = true ->
  exists cs c, fst (build n t) = cs ++ [c] /\ snd (build n t) = VRef (n + length cs).
Proof.
  intros H. destruct (build_container n t H) as (c & E & _).
  rewrite E. eauto.
Qed.

Lemma build_is_object (n : nat) (t : jsval) (a : addr) :
  snd (build n t) = VRef a -> is_object t = true.
Proof. destruct t; cbn; try discriminate; reflexivity. Qed.

Lemma truthy_build (n : nat) (t : jsval) :
  truthy_value (snd (build n t)) = truthy t.
Proof.
  destruct t as [| | | | |l|l]; try reflexivity.
  - rewrite build_arr; reflexivity.
  - rewrite build_obj; reflexivity.
Qed.

Lemma is_str_build (n : nat) (t : jsval) (s : string) :
  is_str (snd (build n t)) s = is_string t s.
Proof.
  destruct t as [| | | | |l|l]; try reflexivity.
  - rewrite build_arr; reflexivity.
  - rewrite build_obj; reflexivity.
Qed.

(** *** Steps that work on disjoint parts of the heap *)

(** A step of the traversal: the part of the heap it works on, what it does,
    and what it establishes. *)
Record task : Type := Task {
  t_lo : nat;
  t_hi : nat;
  t_run : heap -> option heap;
  t_post : heap -> Prop
}.

Definition region (T : task) (x : nat) : Prop := t_lo T <= x < t_hi T.

(** Outside of [lo..hi) the cells that [h] has are the same in [h']. *)
Definition frame (lo hi : nat) (h h' : heap) : Prop :=
  forall x, x < length h -> ~ (lo <= x < hi) -> h' !! x = h !! x.

Section Tasks.
Variable h0 : heap.
Variable prot : nat -> Prop.

Definition task_ok (T : task) : Prop :=
  t_hi T <= length h0 /\
  (forall h, extends h0 h ->
     (forall x, x < length h0 -> region T x \/ prot x -> h !! x = h0 !! x) ->
     exists h', t_run T h = Some h' /\ extends h h' /\
                frame (t_lo T) (t_hi T) h h' /\ t_post T h') /\
  (forall h1 h2, t_post T h1 -> extends h1 h2 ->
     (forall x, region T x -> h2 !! x = h1 !! x) -> t_post T h2).

Fixpoint separate (Ts : list task) : Prop :=
  match Ts with
  | [] => True
  | T :: r =>
      (forall x, region T x -> ~ prot x) /\
      Forall (fun T' => forall x, region T x -> ~ region T' x) r /\
      separate r
  end.

Definition run_all (Ts : list task) (h : heap) : option heap :=
  fold_heap (fun h T => t_run T h) h Ts.

Lemma tasks_run (Ts : list task) :
  Forall task_ok Ts -> separate Ts ->
  forall h, extends h0 h ->
    (forall x, x < length h0 -> prot x \/ Exists (fun T => region T x) Ts ->
       h !! x = h0 !! x) ->
    exists h', run_all Ts h = Some h' /\ extends h h' /\
      (forall x, x < length h -> ~ Exists (fun T => region T x) Ts -> h' !! x = h !! x) /\
      Forall (fun T => t_post T h') Ts.
Proof.
  induction Ts as [|T r IH]; intros Hok Hsep h He Hin.
  - exists h. repeat split; auto using extends_refl.
  - apply Forall_cons in Hok as [(Hhi & Hrun & Hstable) Hok].
    destruct Hsep as (Hprot & Hdis & Hsep).
    rewrite Forall_forall in Hdis.
    destruct (Hrun h He) as (h1 & E1 & He1 & Hf1 & Hp1).
    { intros x Hx [Hr|Hp]; apply Hin; auto. }
    pose proof (extends_length _ _ He) as Hl.
    pose proof (extends_length _ _ He1) as Hl1.
    destruct (IH Hok Hsep h1) as (h' & E' & He' & Hf' & Hp').
    { eapply extends_trans; eauto. }
    { intros x Hx Hc. rewrite Hf1; [|lia|].
      - apply Hin; [assumption|]. destruct Hc as [Hc|Hc]; [now left|]. right. now right.
      - intros Hr. destruct Hc as [Hc|Hc]; [now apply (Hprot x)|].
        apply Exists_exists in Hc as (T' & HT' & Hr').
        now apply (Hdis T' HT' x). }
    exists h'. split; [cbn; unfold run_all in E'; now rewrite E1|].
    split; [eapply extends_trans; eauto|]. split.
    + intros x Hx Hn. rewrite Hf'; [apply Hf1; [assumption|]|lia|].
      * intros Hr. apply Hn. now left.
      * intros Hc. apply Hn. now right.
    + constructor; [|exact Hp'].
      apply (Hstable h1 h' Hp1 He'). intros x Hr.
      apply Hf'; [unfold region in Hr; lia|].
      intros Hc. apply Exists_exists in Hc as (T' & HT' & Hr').
      now apply (Hdis T' HT' x).
Qed.

End Tasks.

Lemma fold_heap_tasks {A : Type} (f : heap -> A -> option heap) (mk : A -> task)
    (l : list A) :
  (forall x h, t_run (mk x) h = f h x) ->
  forall h, fold_heap f h l = run_all (List.map mk l) h.
Proof.
  intros Hf. induction l as [|x l IH]; intros h; [reflexivity|].
  cbn. rewrite Hf. destruct (f h x); [apply IH|reflexivity].
Qed.

(** *** Positions in the heap and changes elsewhere *)

Lemma inside_spec (lo hi x : nat) : inside lo hi x = true <-> lo <= x <= hi.
Proof.
  unfold inside. rewrite andb_true_iff, !Nat.leb_le. reflexivity.
Qed.

Lemma get_agree (h1 h2 : heap) (x : addr) (k : string) :
  h2 !! x = h1 !! x -> get h2 (VRef x) k = get h1 (VRef x) k.
Proof. unfold get. now intros ->. Qed.

Lemma entries_at_agree (h1 h2 : heap) (x : addr) :
  h2 !! x = h1 !! x -> entries_at h2 x = entries_at h1 x.
Proof. unfold entries_at. now intros ->. Qed.

Lemma lookup_ref_inside (lo hi : nat) (k : string) (l : list (string * value)) (c : addr) :
  lookup_ref lo hi k l = Some c -> lo <= c <= hi /\ lookup_key k l = VRef c.
Proof.
  unfold lookup_ref. destruct (lookup_key k l); try discriminate.
  destruct (inside lo hi a) eqn:E; [|discriminate].
  intros [= ->]. now apply inside_spec in E.
Qed.

Lemma lookup_ref_mono (lo hi lo' hi' : nat) (k : string) (l : list (string * value))
    (c : addr) :
  lo' <= lo -> hi <= hi' ->
  lookup_ref lo hi k l = Some c -> lookup_ref lo' hi' k l = Some c.
Proof.
  intros H1 H2 H. apply lookup_ref_inside in H as [Hc Hk].
  unfold lookup_ref. rewrite Hk.
  destruct (inside lo' hi' c) eqn:E; [reflexivity|].
  assert (inside lo' hi' c = true) by (apply inside_spec; lia). congruence.
Qed.

Ltac inside_cases lo hi x :=
  let E := fresh "E" in
  destruct (inside lo hi x) eqn:E; [apply inside_spec in E|].

Lemma nav_agree (lo hi : nat) (h1 h2 : heap) (a : addr) (s : step) :
  lo <= a <= hi ->
  (forall x, lo <= x <= hi -> h2 !! x = h1 !! x) ->
  nav lo hi h2 a s = nav lo hi h1 a s.
Proof.
  intros Ha Hf. destruct s as [key| |pattern|complexProp index]; cbn [nav].
  - rewrite (get_agree h1 h2 a) by auto.
    destruct (get h1 (VRef a) "properties") as [| | | | |pa]; try reflexivity.
    inside_cases lo hi pa; [|reflexivity]. now rewrite (entries_at_agree h1 h2 pa) by auto.
  - now rewrite (get_agree h1 h2 a) by auto.
  - rewrite (get_agree h1 h2 a) by auto.
    destruct (get h1 (VRef a) "patternProperties") as [| | | | |pa]; try reflexivity.
    inside_cases lo hi pa; [|reflexivity]. now rewrite (entries_at_agree h1 h2 pa) by auto.
  - destruct (complex complexProp); [|reflexivity].
    rewrite (get_agree h1 h2 a) by auto.
    destruct (get h1 (VRef a) complexProp) as [| | | | |ca]; try reflexivity.
    inside_cases lo hi ca; [|reflexivity]. now rewrite Hf by auto.
Qed.

Lemma nav_inside (lo hi : nat) (h : heap) (a : addr) (s : step) (c : addr) :
  nav lo hi h a s = Some c -> lo <= c <= hi.
Proof.
  destruct s as [key| |pattern|complexProp index]; cbn [nav].
  - destruct (get h (VRef a) "properties") as [| | | | |pa]; try discriminate.
    destruct (inside lo hi pa); [|discriminate].
    intros H. now apply lookup_ref_inside in H.
  - destruct (get h (VRef a) "items") as [| | | | |c']; try discriminate.
    inside_cases lo hi c'; [|discriminate]. now intros [= <-].
  - destruct (get h (VRef a) "patternProperties") as [| | | | |pa]; try discriminate.
    destruct (inside lo hi pa); [|discriminate].
    intros H. now apply lookup_ref_inside in H.
  - destruct (complex complexProp); [|discriminate].
    destruct (get h (VRef a) complexProp) as [| | | | |ca]; try discriminate.
    destruct (inside lo hi ca); [|discriminate].
    destruct (h !! ca) as [[[|] es ps]|]; try discriminate.
    destruct (es !! index) as [[| | | | |c']|]; try discriminate.
    inside_cases lo hi c'; [|discriminate]. now intros [= <-].
Qed.

Lemma inside_mono (lo hi lo' hi' x : nat) :
  lo' <= lo -> hi <= hi' -> inside lo hi x = true -> inside lo' hi' x = true.
Proof. rewrite !inside_spec. lia. Qed.

Lemma nav_mono (lo hi lo' hi' : nat) (h : heap) (a : addr) (s : step) (c : addr) :
  lo' <= lo -> hi <= hi' ->
  nav lo hi h a s = Some c -> nav lo' hi' h a s = Some c.
Proof.
  intros H1 H2. destruct s as [key| |pattern|complexProp index]; cbn [nav].
  - destruct (get h (VRef a) "properties") as [| | | | |pa]; try discriminate.
    destruct (inside lo hi pa) eqn:E; [|discriminate].
    rewrite (inside_mono _ _ _ _ _ H1 H2 E). now apply lookup_ref_mono.
  - destruct (get h (VRef a) "items") as [| | | | |c']; try discriminate.
    destruct (inside lo hi c') eqn:E; [|discriminate].
    now rewrite (inside_mono _ _ _ _ _ H1 H2 E).
  - destruct (get h (VRef a) "patternProperties") as [| | | | |pa]; try discriminate.
    destruct (inside lo hi pa) eqn:E; [|discriminate].
    rewrite (inside_mono _ _ _ _ _ H1 H2 E). now apply lookup_ref_mono.
  - destruct (complex complexProp); [|discriminate].
    destruct (get h (VRef a) complexProp) as [| | | | |ca]; try discriminate.
    destruct (inside lo hi ca) eqn:E; [|discriminate].
    rewrite (inside_mono _ _ _ _ _ H1 H2 E).
    destruct (h !! ca) as [[[|] es ps]|]; try discriminate.
    destruct (es !! index) as [[| | | | |c']|]; try discriminate.
    destruct (inside lo hi c') eqn:E'; [|discriminate].
    now rewrite (inside_mono _ _ _ _ _ H1 H2 E').
Qed.

Lemma walk_inside (lo hi : nat) (h : heap) (p : list step) :
  forall a x, walk lo hi h a p = Some x -> lo <= x <= hi.
Proof.
  induction p as [|s p IH]; intros a x; cbn.
  - inside_cases lo hi a; [|discriminate]. now intros [= <-].
  - destruct (nav lo hi h a s) as [c|]; [|discriminate]. apply IH.
Qed.

Lemma walk_agree (lo hi : nat) (h1 h2 : heap) (p : list step) :
  (forall x, lo <= x <= hi -> h2 !! x = h1 !! x) ->
  forall a, lo <= a <= hi -> walk lo hi h2 a p = walk lo hi h1 a p.
Proof.
  intros Hf. induction p as [|s p IH]; intros a Ha; [reflexivity|]. cbn.
  rewrite (nav_agree lo hi h1 h2 a s Ha Hf).
  destruct (nav lo hi h1 a s) as [c|] eqn:E; [|reflexivity].
  apply IH. eapply nav_inside; eauto.
Qed.

Lemma walk_mono (lo hi lo' hi' : nat) (h : heap) (p : list step) :
  lo' <= lo -> hi <= hi' ->
  forall a x, walk lo hi h a p = Some x -> walk lo' hi' h a p = Some x.
Proof.
  intros H1 H2. induction p as [|s p IH]; intros a x; cbn.
  - destruct (inside lo hi a) eqn:E; [|discriminate].
    now rewrite (inside_mono _ _ _ _ _ H1 H2 E).
  - destruct (nav lo hi h a s) as [c|] eqn:E; [|discriminate].
    rewrite (nav_mono _ _ _ _ _ _ _ _ H1 H2 E). apply IH.
Qed.

Lemma items_ok_stable (h1 h2 : heap) (x : addr) (act : bool) :
  items_ok h1 x act -> extends h1 h2 -> h2 !! x = h1 !! x -> items_ok h2 x act.
Proof.
  intros (i & Hi & Hs) He Hx. exists i. split; [now rewrite (get_agree h1 h2)|].
  destruct act.
  - destruct Hs as (Ht & pr & q1 & q2 & Hp & H1 & H2 & H3 & H4).
    split; [eapply extends_get; eauto; discriminate|].
    exists pr, q1, q2. repeat split; eapply extends_get; eauto; discriminate.
  - unfold string_shape in *. eapply extends_get; eauto; discriminate.
Qed.

Lemma facts_stable (t : jsval) (act : bool) (lo a : nat) (h1 h2 : heap) :
  lo <= a ->
  facts t act lo a h1 -> extends h1 h2 ->
  (forall x, lo <= x <= a -> h2 !! x = h1 !! x) ->
  facts t act lo a h2.
Proof.
  intros Hlo Hf He Hfr p node actn Hs.
  destruct (Hf p node actn Hs) as (x & Hw & Hit & Hch).
  pose proof (walk_inside _ _ _ _ _ _ Hw) as Hx.
  exists x. split; [rewrite (walk_agree lo a h1 h2); auto; lia|]. split.
  - intros Hl. eapply items_ok_stable; eauto.
  - intros s child Hc Ho. destruct (Hch s child Hc Ho) as (c & pn & Hn & Hp & Hob & Hpr).
    pose proof (nav_inside _ _ _ _ _ _ Hn) as Hci.
    exists c, pn. split; [rewrite (nav_agree lo a h1 h2); auto|].
    split; [rewrite (get_agree h1 h2); auto|].
    split; eapply extends_get; eauto; discriminate.
Qed.

(** *** The root of a normalised schema *)

Lemma alloc_root (t : jsval) (h h1 : heap) (a : addr) :
  alloc t h = (h1, VRef a) -> length h <= a < length h1 /\ extends h h1.
Proof.
  rewrite alloc_app. intros [= <- Hv]. split; [|apply extends_app].
  destruct (build_ref (length h) t (build_is_object _ _ _ Hv)) as (cs & c & E1 & E2).
  rewrite E2 in Hv. injection Hv as <-. rewrite E1, !length_app. cbn. lia.
Qed.

Lemma get_app_old (h cs : heap) (a : addr) (k : string) :
  a < length h -> get (h ++ cs) (VRef a) k = get h (VRef a) k.
Proof. intros Ha. unfold get. now rewrite lookup_app_l. Qed.

Lemma truthy_not_undef (v : value) : truthy_value v = true -> v <> VUndef.
Proof. now destruct v. Qed.

Lemma extends_truthy (h h' : heap) (x : addr) (k : string) :
  extends h h' -> special k = false ->
  truthy_value (get h (VRef x) k) = true -> truthy_value (get h' (VRef x) k) = true.
Proof.
  intros He Hs Ht. erewrite extends_get; eauto using truthy_not_undef.
Qed.

Lemma extends_is_str (h h' : heap) (x : addr) (k s : string) :
  extends h h' -> special k = false -> x < length h ->
  is_str (get h' (VRef x) k) s = is_str (get h (VRef x) k) s.
Proof.
  intros He Hs Hx. unfold get.
  destruct (lookup_lt_is_Some_2 h x Hx) as [c Hc]. rewrite Hc.
  destruct (He _ _ Hc) as (c' & -> & _ & _ & Hk). now rewrite Hk.
Qed.

Lemma alloc_string_items (h : heap) :
  alloc string_items h =
    (h ++ [Cell false [] [("type"%string, VStr "string")]], VRef (length h)).
Proof. unfold alloc. cbn. now rewrite Nat.add_0_r. Qed.

Lemma alloc_empty (h : heap) :
  alloc (JArr []) h = (h ++ [Cell true [] []], VRef (length h)) /\
  alloc (JObj []) h = (h ++ [Cell false [] []], VRef (length h)).
Proof. unfold alloc. cbn. now rewrite Nat.add_0_r. Qed.

(** The three heaps of the branch for a root of type [object]. *)
Definition with_required (h1 : heap) (a : addr) : heap :=
  if negb (truthy_value (get h1 (VRef a) "required"))
  then let '(h', r) := alloc (JArr []) h1 in set h' a "required" r
  else h1.

Definition with_properties (h2 : heap) (a : addr) : heap :=
  if negb (truthy_value (get h2 (VRef a) "properties"))
  then let '(h', p) := alloc (JObj []) h2 in set h' a "properties" p
  else h2.

Lemma with_required_spec (h1 : heap) (a : addr) :
  a < length h1 ->
  truthy_value (get (with_required h1 a) (VRef a) "required") = true /\
  length h1 <= length (with_required h1 a) /\
  (forall x, x <> a -> x < length h1 -> with_required h1 a !! x = h1 !! x) /\
  (forall k, k <> "required"%string ->
     get (with_required h1 a) (VRef a) k = get h1 (VRef a) k).
Proof.
  intros Ha. unfold with_required.
  destruct (truthy_value (get h1 (VRef a) "required")) eqn:E; cbn [negb].
  - repeat split; auto.
  - rewrite (proj1 (alloc_empty h1)). cbv beta iota.
    assert (Ha' : a < length (h1 ++ [Cell true [] []])) by (rewrite length_app; lia).
    repeat split.
    + rewrite get_set by exact Ha'. rewrite bool_decide_eq_true_2 by reflexivity.
      now rewrite String.eqb_refl.
    + rewrite length_set, length_app. lia.
    + intros x Hx Hl. rewrite lookup_set_ne by exact Hx. now rewrite lookup_app_l.
    + intros k Hk. rewrite get_set by exact Ha'. apply String.eqb_neq in Hk.
      rewrite Hk, andb_false_r. now apply get_app_old.
Qed.

Lemma with_properties_spec (h2 : heap) (a : addr) :
  a < length h2 ->
  truthy_value (get (with_properties h2 a) (VRef a) "properties") = true /\
  length h2 <= length (with_properties h2 a) /\
  (forall x, x <> a -> x < length h2 -> with_properties h2 a !! x = h2 !! x) /\
  (forall k, k <> "properties"%string ->
     get (with_properties h2 a) (VRef a) k = get h2 (VRef a) k).
Proof.
  intros Ha. unfold with_properties.
  destruct (truthy_value (get h2 (VRef a) "properties")) eqn:E; cbn [negb].
  - repeat split; auto.
  - rewrite (proj2 (alloc_empty h2)). cbv beta iota.
    assert (Ha' : a < length (h2 ++ [Cell false [] []])) by (rewrite length_app; lia).
    repeat split.
    + rewrite get_set by exact Ha'. rewrite bool_decide_eq_true_2 by reflexivity.
      now rewrite String.eqb_refl.
    + rewrite length_set, length_app. lia.
    + intros x Hx Hl. rewrite lookup_set_ne by exact Hx. now rewrite lookup_app_l.
    + intros k Hk. rewrite get_set by exact Ha'. apply String.eqb_neq in Hk.
      rewrite Hk, andb_false_r. now apply get_app_old.
Qed.

(** What [_ensureValidToolSchema] does once the copy is made. *)
Definition repair_copy (h1 : heap) (a : addr) : heap :=
  if is_str (get h1 (VRef a) "type") "object" then
    let h3 := with_properties (with_required h1 a) a in
    match fixArrayProperties (length h3 + 4) h3 (VRef a) with
    | Some h4 => h4
    | None => h3
    end
  else if is_str (get h1 (VRef a) "type") "array" &&
          negb (truthy_value (get h1 (VRef a) "items"))
  then let '(h', items) := alloc string_items h1 in set h' a "items" items
  else h1.

(** The result of [_ensureValidToolSchema]: the schema that was given, in the
    heap as it was, or a copy that has been repaired. *)
Lemma ensure_cases (h : heap) (schema : value) :
  _ensureValidToolSchema h schema = (h, schema) \/
  exists t a h1,
    truthy_value schema = true /\
    stringify (S (length h)) [] h schema = Done t /\
    alloc t h = (h1, VRef a) /\
    _ensureValidToolSchema h schema = (repair_copy h1 a, VRef a).
Proof.
  unfold _ensureValidToolSchema.
  destruct (truthy_value schema) eqn:Et; cbn [negb]; [|now left].
  destruct (stringify (S (length h)) [] h schema) as [t| |] eqn:Es; try now left.
  destruct (alloc t h) as [h1 v] eqn:Ea.
  destruct v as [| | | | |a]; try now left.
  right. exists t, a, h1. repeat split; auto.
  unfold repair_copy, with_required, with_properties.
  destruct (is_str (get h1 (VRef a) "type") "object").
  - destruct (fixArrayProperties _ _ _); reflexivity.
  - destruct (is_str (get h1 (VRef a) "type") "array" && _); [|reflexivity].
    now rewrite alloc_string_items.
Qed.

Lemma repair_copy_root (h1 : heap) (a : addr) :
  a < length h1 ->
  (forall s, is_str (get (repair_copy h1 a) (VRef a) "type") s
             = is_str (get h1 (VRef a) "type") s) /\
  (is_str (get h1 (VRef a) "type") "object" = true ->
     truthy_value (get (repair_copy h1 a) (VRef a) "required") = true /\
     truthy_value (get (repair_copy h1 a) (VRef a) "properties") = true) /\
  (is_str (get h1 (VRef a) "type") "array" = true ->
     truthy_value (get (repair_copy h1 a) (VRef a) "items") = true).
Proof.
  intros Ha. unfold repair_copy.
  destruct (is_str (get h1 (VRef a) "type") "object") eqn:Eo.
  - destruct (with_required_spec h1 a Ha) as (R1 & R2 & R3 & R4).
    assert (Ha2 : a < length (with_required h1 a)) by lia.
    destruct (with_properties_spec _ a Ha2) as (P1 & P2 & P3 & P4).
    set (h3 := with_properties (with_required h1 a) a) in *.
    assert (H3 : truthy_value (get h3 (VRef a) "required") = true)
      by (rewrite P4 by discriminate; exact R1).
    assert (T3 : forall s, is_str (get h3 (VRef a) "type") s = is_str (get h1 (VRef a) "type") s)
      by (intros s; rewrite P4 by discriminate; now rewrite R4 by discriminate).
    assert (Ea : is_str (get h1 (VRef a) "type") "array" = false).
    { destruct (get h1 (VRef a) "type"); try reflexivity. cbn in *.
      apply String.eqb_eq in Eo. now subst. }
    destruct (fixArrayProperties (length h3 + 4) h3 (VRef a)) as [h4|] eqn:Ef.
    + apply fixArrayProperties_extends in Ef. repeat split.
      * intros s. rewrite (extends_is_str h3 h4) by (auto; lia). apply T3.
      * eapply extends_truthy; eauto.
      * eapply extends_truthy; eauto.
      * congruence.
    + repeat split; auto. congruence.
  - split; [|split; [discriminate|]].
    + intros s. destruct (_ && _); [|reflexivity]. rewrite alloc_string_items.
      cbv beta iota. rewrite get_set by (rewrite length_app; lia). cbn [String.eqb Ascii.eqb Bool.eqb].
      rewrite andb_false_r. now rewrite get_app_old.
    + intros Ea. rewrite Ea. cbn [andb].
      destruct (truthy_value (get h1 (VRef a) "items")) eqn:Ei; cbn [negb]; [exact Ei|].
      rewrite alloc_string_items. cbv beta iota.
      rewrite get_set by (rewrite length_app; lia).
      rewrite bool_decide_eq_true_2 by reflexivity. reflexivity.
Qed.

(** Whenever [_ensureValidToolSchema] returns a schema other than the one it
    was given, the returned schema has the type that the given one
    serialises with; if that type is [object] it has both [required] and
    [properties], and if it is [array] it has [items]. *)
Theorem returned_root_is_complete (h : heap) (schema : value) :
  snd (_ensureValidToolSchema h schema) <> schema ->
  let h' := fst (_ensureValidToolSchema h schema) in
  let validated := snd (_ensureValidToolSchema h schema) in
  (is_str (get h' validated "type") "object" = true ->
     truthy_value (get h' validated "required") = true /\
     truthy_value (get h' validated "properties") = true) /\
  (is_str (get h' validated "type") "array" = true ->
     truthy_value (get h' validated "items") = true).
Proof.
  intros Hne h' validated. subst h' validated.
  destruct (ensure_cases h schema) as [E|(t & a & h1 & Ht & Hs & Ha & E)];
    rewrite E in *; cbn [fst snd] in *; [congruence|].
  destruct (alloc_root _ _ _ _ Ha) as [[_ Hlt] _].
  destruct (repair_copy_root h1 a Hlt) as (T & O & A).
  split; intros H; rewrite T in H; auto.
Qed.

Lemma returned_root_is_complete_witness :
  snd (_ensureValidToolSchema [Cell false [] [("type"%string, VStr "object")]] (VRef 0))
    <> VRef 0 /\
  truthy_value
    (get (fst (_ensureValidToolSchema [Cell false [] [("type"%string, VStr "object")]] (VRef 0)))
         (snd (_ensureValidToolSchema [Cell false [] [("type"%string, VStr "object")]] (VRef 0)))
         "required") = true.
Proof.
  assert (Hne : snd (_ensureValidToolSchema
                       [Cell false [] [("type"%string, VStr "object")]] (VRef 0)) <> VRef 0)
    by (vm_compute; discriminate).
  split; [exact Hne|].
  apply (proj1 (returned_root_is_complete _ (VRef 0) Hne)).
  vm_compute. reflexivity.
Defined.

(** *** What the normalisation leaves alone *)

(** An induction principle for trees that reaches into arrays and objects. *)
Fixpoint jsval_nested_ind (P : jsval -> Prop)
    (HUndef : P JUndef) (HNull : P JNull) (HBool : forall b, P (JBool b))
    (HNum : forall z, P (JNum z)) (HStr : forall s, P (JStr s))
    (HArr : forall l, Forall P l -> P (JArr l))
    (HObj : forall l, Forall (fun kv => P (snd kv)) l -> P (JObj l))
    (t : jsval) : P t :=
  match t with
  | JUndef => HUndef
  | JNull => HNull
  | JBool b => HBool b
  | JNum z => HNum z
  | JStr s => HStr s
  | JArr l =>
      HArr l ((fix go (l : list jsval) : Forall P l :=
                 match l with
                 | [] => List.Forall_nil P
                 | x :: r =>
                     @List.Forall_cons _ P x r
                       (jsval_nested_ind P HUndef HNull HBool HNum HStr HArr HObj x) (go r)
                 end) l)
  | JObj l =>
      HObj l ((fix go (l : list (string * jsval)) : Forall (fun kv => P (snd kv)) l :=
                 match l with
                 | [] => List.Forall_nil _
                 | kv :: r =>
                     @List.Forall_cons _ (fun kv => P (snd kv)) kv r
                       (jsval_nested_ind P HUndef HNull HBool HNum HStr HArr HObj (snd kv))
                       (go r)
                 end) l)
  end.

(** A value that does not point below [base]. *)
Definition above (base : nat) (v : value) : Prop :=
  match v with VRef a => base <= a | _ => True end.

Definition cell_above (base : nat) (c : cell) : Prop :=
  Forall (above base) (elems c) /\ Forall (fun kv => above base (snd kv)) (props c).

(** From [base] on, no cell points below [base]. *)
Definition closed (base : nat) (h : heap) : Prop :=
  forall x c, base <= x -> h !! x = Some c -> cell_above base c.

Lemma above_mono (base n : nat) (v : value) : base <= n -> above n v -> above base v.
Proof. destruct v; cbn; auto; lia. Qed.

Lemma build_fields_above (l : list (string * jsval)) :
  Forall (fun kv => forall n, above n (snd (build n (snd kv))) /\
                              Forall (cell_above n) (fst (build n (snd kv)))) l ->
  forall n, Forall (fun kv => above n (snd kv)) (snd (build_fields build n l)) /\
            Forall (cell_above n) (fst (build_fields build n l)).
Proof.
  induction 1 as [|[k x] r Hx Hr IH]; intros n; [split; constructor|].
  rewrite build_fields_cons; cbn [fst snd].
  destruct (Hx n) as [X1 X2]. destruct (IH (n + length (fst (build n x)))) as [I1 I2].
  split.
  - constructor; [exact X1|]. eapply Forall_impl; [exact I1|].
    intros [k' v] Hv; cbn in *. eapply above_mono; [|exact Hv]. lia.
  - apply Forall_app. split; [exact X2|]. eapply Forall_impl; [exact I2|].
    intros c [C1 C2].
    split; (eapply Forall_impl; [eassumption|]); cbn; intros ? Hv;
      (eapply above_mono; [|exact Hv]); lia.
Qed.

Lemma keyed_Forall (P : jsval -> Prop) (l : list jsval) :
  Forall P l -> forall i, Forall (fun kv => P (snd kv)) (keyed i l).
Proof. induction 1; intros i; cbn; constructor; auto. Qed.

(** The cells of a built tree point into the tree only. *)
Lemma build_above (t : jsval) :
  forall n, above n (snd (build n t)) /\ Forall (cell_above n) (fst (build n t)).
Proof.
  induction t as [| | | | |l IH|l IH] using jsval_nested_ind; intros n;
    try (split; [exact I|constructor]).
  - rewrite build_arr. destruct (build_elems_keyed n 0 l) as [E1 E2].
    destruct (build_fields_above (keyed 0 l) (keyed_Forall _ l IH 0) n) as [F1 F2].
    split; [cbn; lia|]. rewrite E1. apply Forall_app. split; [exact F2|].
    constructor; [|constructor]. split; [|constructor]. cbn.
    rewrite <- E2 in F1. clear -F1. revert F1.
    generalize (snd (build_elems build n l)). generalize 0.
    intros i vs. revert i. induction vs as [|v vs IHv]; intros i H; [constructor|].
    cbn in H. apply Forall_cons in H as [H1 H2]. constructor; eauto.
  - rewrite build_obj. destruct (build_fields_above l IH n) as [F1 F2].
    split; [cbn; lia|]. apply Forall_app. split; [exact F2|].
    constructor; [|constructor]. split; [constructor|exact F1].
Qed.

Section Frame.
Variable base : nat.
Variable h0 : heap.

(** The heap still holds the cells of [h0] below [base], and nothing from
    [base] on points below it. *)
Definition kept (h : heap) : Prop :=
  base <= length h /\ closed base h /\ forall x, x < base -> h !! x = h0 !! x.

Lemma above_lookup_key (k : string) (l : list (string * value)) :
  Forall (fun kv => above base (snd kv)) l -> above base (lookup_key k l).
Proof.
  induction 1 as [|[k' v] r Hv Hr IH]; cbn; [exact I|].
  destruct (String.eqb k k'); auto.
Qed.

Lemma above_set_key (k : string) (v : value) (l : list (string * value)) :
  above base v -> Forall (fun kv => above base (snd kv)) l ->
  Forall (fun kv => above base (snd kv)) (set_key k v l).
Proof.
  intros Hv. induction 1 as [|[k' v'] r Hv' Hr IH]; cbn; [repeat constructor; exact Hv|].
  destruct (String.eqb k k'); constructor; auto.
Qed.

Lemma kept_get (h : heap) (a : addr) (k : string) :
  kept h -> base <= a -> above base (get h (VRef a) k).
Proof.
  intros (_ & Hc & _) Ha. unfold get. destruct (h !! a) as [c|] eqn:E; [|exact I].
  apply above_lookup_key. exact (proj2 (Hc a c Ha E)).
Qed.

Lemma above_indexed (l : list value) :
  Forall (above base) l -> forall i, Forall (fun iv => above base (snd iv)) (indexed i l).
Proof. induction 1; intros i; cbn; constructor; auto. Qed.

Lemma kept_entries_at (h : heap) (a : addr) :
  kept h -> base <= a -> Forall (fun kv => above base (snd kv)) (entries_at h a).
Proof.
  intros (_ & Hc & _) Ha. unfold entries_at. destruct (h !! a) as [c|] eqn:E; [|constructor].
  destruct (Hc a c Ha E) as [C1 C2]. unfold entries. apply Forall_app. split; [|exact C2].
  destruct (is_array c); [|constructor].
  apply Forall_map. eapply Forall_impl; [exact (above_indexed _ C1 0)|].
  intros [i v]; auto.
Qed.

Lemma kept_set (h : heap) (a : addr) (k : string) (v : value) :
  kept h -> base <= a -> above base v -> kept (set h a k v).
Proof.
  intros (Hl & Hc & Hf) Ha Hv. unfold set. destruct (h !! a) as [c|] eqn:E; [|exact (conj Hl (conj Hc Hf))].
  split; [|split].
  - now rewrite length_insert.
  - intros x c' Hx Hc'. destruct (decide (x = a)) as [->|Hne].
    + rewrite list_lookup_insert_eq in Hc' by (eapply lookup_lt_Some; eauto).
      injection Hc' as <-. destruct (Hc a c Ha E) as [C1 C2]. split; cbn; [exact C1|].
      now apply above_set_key.
    + rewrite list_lookup_insert_ne in Hc' by congruence. eapply Hc; eauto.
  - intros x Hx. rewrite list_lookup_insert_ne by lia. now apply Hf.
Qed.

Lemma kept_app (h cs : heap) :
  kept h -> Forall (cell_above base) cs -> kept (h ++ cs).
Proof.
  intros (Hl & Hc & Hf) Hcs. split; [|split].
  - rewrite length_app. lia.
  - intros x c Hx Hxc. destruct (decide (x < length h)) as [Hlt|Hge].
    + rewrite lookup_app_l in Hxc by exact Hlt. eapply Hc; eauto.
    + rewrite lookup_app_r in Hxc by lia.
      rewrite Forall_lookup in Hcs. exact (Hcs _ _ Hxc).
  - intros x Hx. rewrite lookup_app_l by lia. now apply Hf.
Qed.

Lemma kept_alloc (t : jsval) (h : heap) :
  kept h -> kept (fst (alloc t h)) /\ above base (snd (alloc t h)).
Proof.
  intros Hk. unfold alloc. destruct (build_above t (length h)) as [B1 B2].
  destruct (build (length h) t) as [cs v]; cbn [fst snd] in *. split.
  - apply kept_app; [exact Hk|]. eapply Forall_impl; [exact B2|].
    intros c [C1 C2].
    split; (eapply Forall_impl; [eassumption|]); cbn; intros ? Hv;
      (eapply above_mono; [|exact Hv]); apply Hk.
  - eapply above_mono; [|exact B1]. apply Hk.
Qed.

Lemma kept_set_parent (h : heap) (obj : addr) (property : string) (c : addr) :
  kept h -> base <= obj -> base <= c -> kept (set_parent h obj property c).
Proof.
  intros Hk Ho Hc. unfold set_parent, alloc_cell. apply kept_set; auto.
  - apply kept_app; [exact Hk|]. repeat constructor; cbn; auto.
  - cbn. destruct Hk. lia.
Qed.

Lemma kept_add_items (h : heap) (a : addr) :
  kept h -> base <= a -> kept (add_items h a).
Proof.
  intros Hk Ha. unfold add_items.
  destruct (_ && _); [|exact Hk].
  match goal with |- context [alloc ?t h] => destruct (kept_alloc t h Hk) as [K1 K2];
    destruct (alloc t h) as [h1 items] end.
  now apply kept_set.
Qed.

Lemma fold_heap_kept {A : Type} (Q : A -> Prop) (f : heap -> A -> option heap) :
  (forall h x h', kept h -> Q x -> f h x = Some h' -> kept h') ->
  forall l h h', Forall Q l -> kept h -> fold_heap f h l = Some h' -> kept h'.
Proof.
  intros Hf l. induction l as [|x r IH]; intros h h' Hq Hk H; cbn in H.
  - now injection H as <-.
  - apply Forall_cons in Hq as [Hx Hr]. destruct (f h x) as [h1|] eqn:E; [|discriminate].
    exact (IH h1 h' Hr (Hf h x h1 Hk Hx E) H).
Qed.

Lemma fixArrayProperties_kept (fuel : nat) :
  forall h obj h', kept h -> above base obj ->
    fixArrayProperties fuel h obj = Some h' -> kept h'.
Proof.
  induction fuel as [|fuel IH]; intros h obj h' Hk Ho H.
  - destruct obj; cbn in H; try discriminate; now injection H as <-.
  - destruct obj as [| | | | |a]; try (cbn in H; now injection H as <-).
    cbn in Ho. rewrite fixArrayProperties_S in H.
    destruct (fix_properties _ a (add_items h a)) as [h1|] eqn:E1; [|discriminate].
    cbn [mbind option_bind] in H.
    destruct (fix_items _ a h1) as [h2|] eqn:E2; [|discriminate].
    cbn [mbind option_bind] in H.
    destruct (fix_patternProperties _ a h2) as [h3|] eqn:E3; [|discriminate].
    cbn [mbind option_bind] in H.
    assert (K0 : kept (add_items h a)) by now apply kept_add_items.
    assert (K1 : kept h1).
    { unfold fix_properties in E1.
      pose proof (kept_get _ a "properties" K0 Ho) as Hp.
      destruct (get (add_items h a) (VRef a) "properties") as [| | | | |pa];
        try (now injection E1 as <-).
      cbn in Hp. eapply (fold_heap_kept (fun kv => above base (snd kv))); [|apply kept_entries_at; eauto|exact K0|exact E1].
      intros hh [key v] hh' Kh Hv Hr. cbn in Hv.
      destruct (truthy_value v); [|now injection Hr as <-].
      eapply IH; [|exact Hv|exact Hr].
      destruct v as [| | | | |c]; auto. cbn in Hv.
      apply kept_set; [apply kept_set_parent|..]; auto. exact I. }
    assert (K2 : kept h2).
    { unfold fix_items in E2.
      pose proof (kept_get _ a "items" K1 Ho) as Hp.
      destruct (get h1 (VRef a) "items") as [| | | | |c]; try (now injection E2 as <-).
      eapply IH; [|exact Hp|exact E2]. apply kept_set_parent; auto. }
    assert (K3 : kept h3).
    { unfold fix_patternProperties in E3.
      pose proof (kept_get _ a "patternProperties" K2 Ho) as Hp.
      destruct (get h2 (VRef a) "patternProperties") as [| | | | |pa];
        try (now injection E3 as <-).
      cbn in Hp. eapply (fold_heap_kept (fun kv => above base (snd kv))); [|apply kept_entries_at; eauto|exact K2|exact E3].
      intros hh [key v] hh' Kh Hv Hr. cbn in Hv.
      destruct v as [| | | | |c]; try (now injection Hr as <-).
      eapply IH; [|exact Hv|exact Hr]. apply kept_set_parent; auto. }
    eapply (fold_heap_kept (fun _ => True)); [|apply Forall_forall; auto|exact K3|exact H].
    intros hh cp hh' Kh _ Hr. unfold fix_complex in Hr.
    pose proof (kept_get _ a cp Kh Ho) as Hp.
    destruct (get hh (VRef a) cp) as [| | | | |ca]; try (now injection Hr as <-).
    cbn in Hp. destruct (hh !! ca) as [[[] cps ps]|] eqn:Ec; try (now injection Hr as <-).
    destruct Kh as (Kl & Kc & Kf). destruct (Kc ca _ Hp Ec) as [C1 _]. cbn in C1.
    eapply (fold_heap_kept (fun iv => above base (snd iv)));
      [|exact (above_indexed _ C1 0)|exact (conj Kl (conj Kc Kf))|exact Hr].
    intros g [i v] g' Kg Hv Hg. cbn in Hv.
    destruct v as [| | | | |c]; try (now injection Hg as <-).
    eapply IH; [|exact Hv|exact Hg]. apply kept_set_parent; auto.
Qed.

Lemma kept_with_required (h : heap) (a : addr) :
  kept h -> base <= a -> kept (with_required h a).
Proof.
  intros Hk Ha. unfold with_required. destruct (negb _); [|exact Hk].
  destruct (kept_alloc (JArr []) h Hk) as [K1 K2].
  destruct (alloc (JArr []) h) as [h1 r]. now apply kept_set.
Qed.

Lemma kept_with_properties (h : heap) (a : addr) :
  kept h -> base <= a -> kept (with_properties h a).
Proof.
  intros Hk Ha. unfold with_properties. destruct (negb _); [|exact Hk].
  destruct (kept_alloc (JObj []) h Hk) as [K1 K2].
  destruct (alloc (JObj []) h) as [h1 r]. now apply kept_set.
Qed.

Lemma kept_repair_copy (h : heap) (a : addr) :
  kept h -> base <= a -> kept (repair_copy h a).
Proof.
  intros Hk Ha. unfold repair_copy.
  destruct (is_str (get h (VRef a) "type") "object").
  - assert (K3 : kept (with_properties (with_required h a) a))
      by (apply kept_with_properties; [apply kept_with_required|]; auto).
    destruct (fixArrayProperties _ _ _) as [h4|] eqn:Ef; [|exact K3].
    eapply fixArrayProperties_kept; [exact K3| |exact Ef]. exact Ha.
  - destruct (_ && _); [|exact Hk].
    destruct (kept_alloc string_items h Hk) as [K1 K2].
    destruct (alloc string_items h) as [h1 r]. now apply kept_set.
Qed.

End Frame.

Lemma kept_refl (h : heap) : kept (length h) h h.
Proof.
  split; [lia|]. split; [|reflexivity].
  intros x c Hx Hc. apply lookup_lt_Some in Hc. lia.
Qed.

(** [_ensureValidToolSchema] never changes an object that exists when it is
    called, and the schema it returns is either the one it was given or a new
    object from which no object that existed before can be reached. *)
Theorem given_schema_is_left_untouched (h : heap) (schema : value) :
  (forall x, x < length h -> fst (_ensureValidToolSchema h schema) !! x = h !! x) /\
  (_ensureValidToolSchema h schema = (h, schema) \/
   exists a, snd (_ensureValidToolSchema h schema) = VRef a /\ length h <= a /\
             closed (length h) (fst (_ensureValidToolSchema h schema))).
Proof.
  destruct (ensure_cases h schema) as [E|(t & a & h1 & Ht & Hs & Ha & E)];
    rewrite E; cbn [fst snd]; [split; auto|].
  destruct (kept_alloc (length h) h t h (kept_refl h)) as [K1 K2].
  rewrite Ha in K1, K2. cbn [fst snd above] in K1, K2.
  destruct (kept_repair_copy (length h) h h1 a K1 K2) as (R1 & R2 & R3).
  split; [exact R3|]. right. exists a. auto.
Qed.

(** *** The traversal of a copied schema *)

(** *** The layout of a schema node *)

(** The address of the object that the tree [t] built at [lo] stands for. *)
Definition root (lo : nat) (t : jsval) : addr := lo + length (fst (build lo t)) - 1.

(** Where the cells of the field [k] start. *)
Fixpoint field_at (lo : nat) (k : string) (l : list (string * jsval)) : nat :=
  match l with
  | [] => lo
  | (k', x) :: r =>
      if String.eqb k k' then lo else field_at (lo + length (fst (build lo x))) k r
  end.

Definition place_of (lo : nat) (t : jsval) (k : string) : nat :=
  match t with JObj l => field_at lo k l | _ => lo end.

Definition chunk (lo : nat) (t : jsval) : list cell := fst (build lo t).

Lemma root_ref (lo : nat) (t : jsval) :
  is_object t = true ->
  snd (build lo t) = VRef (root lo t) /\
  exists cs c, chunk lo t = cs ++ [c] /\ root lo t = lo + length cs.
Proof.
  intros H. destruct (build_ref lo t H) as (cs & c & E1 & E2).
  unfold root, chunk. rewrite E1, E2, length_app. cbn. split.
  - f_equal. lia.
  - exists cs, c. split; [reflexivity|lia].
Qed.

Lemma field_at_spec (k : string) (l : list (string * jsval)) :
  forall lo,
    let x := field_of (JObj l) k in
    let p := field_at lo k l in
    lookup_key k (snd (build_fields build lo l)) = snd (build p x) /\
    lo <= p /\ p + length (chunk p x) <= lo + length (fst (build_fields build lo l)) /\
    (forall h, holds h lo (fst (build_fields build lo l)) -> holds h p (chunk p x)).
Proof.
  unfold chunk.
  induction l as [|[k0 y] r IH]; intros lo; cbn [field_of entry field_at].
  - cbn. repeat split; try lia. intros h _ i c Hi. discriminate.
  - rewrite build_fields_cons; cbn [fst snd lookup_key].
    destruct (String.eqb k k0) eqn:E.
    + repeat split; try lia.
      * rewrite length_app. lia.
      * intros h Hh. now apply holds_app in Hh.
    + specialize (IH (lo + length (fst (build lo y)))). cbn [field_of] in IH.
      destruct IH as (I1 & I2 & I3 & I4). repeat split; try lia.
      * exact I1.
      * rewrite length_app. lia.
      * intros h Hh. apply holds_app in Hh. now apply I4.
Qed.

Lemma field_at_disjoint (k k' : string) (l : list (string * jsval)) :
  k <> k' ->
  forall lo,
    field_at lo k l + length (chunk (field_at lo k l) (field_of (JObj l) k))
      <= field_at lo k' l \/
    field_at lo k' l + length (chunk (field_at lo k' l) (field_of (JObj l) k'))
      <= field_at lo k l.
Proof.
  intros Hne. unfold chunk.
  induction l as [|[k0 y] r IH]; intros lo; cbn [field_of entry field_at].
  - cbn. lia.
  - destruct (String.eqb_spec k k0) as [->|N1]; destruct (String.eqb_spec k' k0) as [->|N2].
    + congruence.
    + left. destruct (field_at_spec k' r (lo + length (fst (build lo y)))) as (_ & H & _).
      exact H.
    + right. destruct (field_at_spec k r (lo + length (fst (build lo y)))) as (_ & H & _).
      exact H.
    + apply IH.
Qed.

(** The cells of [t] are in the heap at [lo]; the object that stands for [t]
    may have been given other [parent] and [name] properties. *)
Definition intact (h : heap) (lo : nat) (t : jsval) : Prop :=
  exists cs c c',
    chunk lo t = cs ++ [c] /\ holds h lo cs /\ h !! (lo + length cs) = Some c' /\
    forall k, k <> "parent"%string -> k <> "name"%string ->
      lookup_key k (props c') = lookup_key k (props c).

(** What the fields of an intact node are. *)
Lemma intact_field (h : heap) (lo : nat) (t : jsval) (k : string) :
  intact h lo t -> k <> "parent"%string -> k <> "name"%string ->
  let p := place_of lo t k in
  let x := field_of t k in
  get h (VRef (root lo t)) k = snd (build p x) /\
  holds h p (chunk p x) /\ lo <= p /\ p + length (chunk p x) <= root lo t.
Proof.
  intros (cs & c & c' & E & Hh & Hc & Hk) N1 N2 p x. subst p x.
  assert (Hr : root lo t = lo + length cs).
  { unfold root. unfold chunk in E. rewrite E, length_app. cbn. lia. }
  rewrite Hr. unfold get. rewrite Hc, Hk by assumption.
  unfold chunk in E.
  destruct t as [| | | | |l|l]; try (cbn in E; now destruct cs).
  - rewrite build_arr in E. cbn [fst] in E. apply app_inj_tail in E as [E1 <-].
    cbn. repeat split; try lia. intros i c Hi. discriminate.
  - rewrite build_obj in E. cbn [fst] in E. apply app_inj_tail in E as [E1 <-].
    cbn [props place_of].
    destruct (field_at_spec k l lo) as (F1 & F2 & F3 & F4).
    rewrite <- E1. repeat split; auto. apply F4. now rewrite E1.
Qed.

Lemma intact_fields_disjoint (lo : nat) (t : jsval) (k k' : string) :
  k <> k' ->
  place_of lo t k + length (chunk (place_of lo t k) (field_of t k)) <= place_of lo t k' \/
  place_of lo t k' + length (chunk (place_of lo t k') (field_of t k')) <= place_of lo t k.
Proof.
  intros Hne. destruct t as [| | | | |l|l]; try (cbn; lia).
  apply field_at_disjoint, Hne.
Qed.

(** *** Visiting a child *)

(** What every loop of [fixArrayProperties] does to a child that is an object
    before it recurses: the child gets its [parent], and as a property also
    its [name]. *)
Definition annotate (h : heap) (a : addr) (s : step) (c : addr) : heap :=
  match name_of s with
  | Some key => set (set_parent h a (property_of s) c) c "name" (VStr key)
  | None => set_parent h a (property_of s) c
  end.

Definition visit (rec : heap -> value -> option heap) (a : addr) (h : heap)
    (sv : step * value) : option heap :=
  match snd sv with
  | VRef c => rec (annotate h a (fst sv) c) (VRef c)
  | _ => Some h
  end.

(** The child [c] points back to [a]. *)
Definition annotated (h : heap) (a : addr) (s : step) (c : addr) : Prop :=
  exists pn, get h (VRef c) "parent" = VRef pn /\
             get h (VRef pn) "object" = VRef a /\
             get h (VRef pn) "property" = VStr (property_of s).

Definition child_post (x : jsval) (a : addr) (s : step) (lo : nat) (h : heap) : Prop :=
  facts x (treated_as "actions" s x) lo (root lo x) h /\ annotated h a s (root lo x).

(** What a call of the traversal on an intact tree achieves. *)
Definition runs (rec : heap -> value -> option heap) (n : nat) : Prop :=
  forall t lo h, need t <= n -> is_object t = true -> intact h lo t ->
    exists h', rec h (VRef (root lo t)) = Some h' /\ extends h h' /\
      frame lo (S (root lo t)) h h' /\
      (forall k, k <> "items"%string ->
         get h' (VRef (root lo t)) k = get h (VRef (root lo t)) k) /\
      facts t (known_as h (root lo t) "actions") lo (root lo t) h'.

Lemma annotated_stable (h1 h2 : heap) (a : addr) (s : step) (c : addr) :
  annotated h1 a s c -> extends h1 h2 -> h2 !! c = h1 !! c -> annotated h2 a s c.
Proof.
  intros (pn & H1 & H2 & H3) He Hc. exists pn.
  split; [now rewrite (get_agree h1 h2)|].
  split; eapply extends_get; eauto; discriminate.
Qed.

Lemma root_inside (lo : nat) (x : jsval) :
  is_object x = true -> lo <= root lo x /\ S (root lo x) = lo + length (chunk lo x).
Proof.
  intros H. destruct (root_ref lo x H) as (_ & cs & c & E & R).
  rewrite E, R, length_app. cbn. lia.
Qed.

Lemma child_post_stable (x : jsval) (a : addr) (s : step) (lo : nat) (h1 h2 : heap) :
  is_object x = true ->
  child_post x a s lo h1 -> extends h1 h2 ->
  (forall y, lo <= y <= root lo x -> h2 !! y = h1 !! y) ->
  child_post x a s lo h2.
Proof.
  intros Ho [Hf Ha] He Hfr. destruct (root_inside lo x Ho) as [Hr _]. split.
  - eapply facts_stable; eauto.
  - eapply annotated_stable; eauto.
Qed.

Lemma get_set_parent (h : heap) (a : addr) (p : string) (c : addr) :
  c < length h ->
  let h' := set_parent h a p c in
  length h' = S (length h) /\
  (forall x, x <> c -> x < length h -> h' !! x = h !! x) /\
  (forall k, get h' (VRef c) k =
             if String.eqb k "parent" then VRef (length h) else get h (VRef c) k) /\
  get h' (VRef (length h)) "object" = VRef a /\
  get h' (VRef (length h)) "property" = VStr p.
Proof.
  intros Hc h'. subst h'. unfold set_parent, alloc_cell.
  set (pc := Cell false [] [("object"%string, VRef a); ("property"%string, VStr p)]).
  assert (Hc' : c < length (h ++ [pc])) by (rewrite length_app; cbn; lia).
  split; [rewrite length_set, length_app; cbn; lia|].
  split; [intros x Hx Hl; rewrite lookup_set_ne by exact Hx; now rewrite lookup_app_l|].
  split.
  - intros k. rewrite get_set by exact Hc'.
    rewrite bool_decide_eq_true_2 by reflexivity. cbn [andb].
    destruct (String.eqb k "parent"); [reflexivity|]. now apply get_app_old.
  - assert (Hn : length h <> c) by lia.
    unfold get. rewrite !lookup_set_ne by exact Hn.
    rewrite lookup_app_r by lia. rewrite Nat.sub_diag. cbn. split; reflexivity.
Qed.

Lemma annotate_spec (h : heap) (a : addr) (s : step) (c : addr) :
  c < length h ->
  let h' := annotate h a s c in
  length h' = S (length h) /\
  (forall x, x <> c -> x < length h -> h' !! x = h !! x) /\
  (forall k, k <> "parent"%string -> k <> "name"%string ->
     get h' (VRef c) k = get h (VRef c) k) /\
  get h' (VRef c) "parent" = VRef (length h) /\
  get h' (VRef c) "name" =
    match name_of s with Some key => VStr key | None => get h (VRef c) "name" end /\
  get h' (VRef (length h)) "object" = VRef a /\
  get h' (VRef (length h)) "property" = VStr (property_of s) /\
  extends h h'.
Proof.
  intros Hc h'. subst h'. unfold annotate.
  destruct (get_set_parent h a (property_of s) c Hc) as (L & F & G & O & P).
  pose proof (extends_set_parent h a (property_of s) c) as He.
  destruct (name_of s) as [key|].
  - assert (Hc' : c < length (set_parent h a (property_of s) c)) by lia.
    assert (Hn : length h <> c) by lia.
    split; [now rewrite length_set|].
    split; [intros x Hx Hl; rewrite lookup_set_ne by exact Hx; now apply F|].
    split.
    { intros k N1 N2. rewrite get_set by exact Hc'.
      apply String.eqb_neq in N2. rewrite N2, andb_false_r. rewrite G.
      apply String.eqb_neq in N1. now rewrite N1. }
    split; [rewrite get_set by exact Hc';
            change (String.eqb "parent" "name") with false;
            rewrite andb_false_r; now rewrite G|].
    split; [rewrite get_set by exact Hc'; now rewrite bool_decide_eq_true_2 by reflexivity|].
    split; [rewrite get_set by exact Hc'; rewrite bool_decide_eq_false_2 by exact Hn; exact O|].
    split; [rewrite get_set by exact Hc'; rewrite bool_decide_eq_false_2 by exact Hn; exact P|].
    eapply extends_trans; [exact He|]. now apply extends_set.
  - split; [exact L|]. split; [exact F|].
    split; [intros k N1 N2; rewrite G; apply String.eqb_neq in N1; now rewrite N1|].
    split; [now rewrite G|]. split; [now rewrite G|]. auto.
Qed.

Section Visit.
Variable rec : heap -> value -> option heap.
Variable n : nat.
Hypothesis rec_runs : runs rec n.
Variable a : addr.

(** A child whose cells are in the heap is traversed; afterwards it points
    back to [a] and everything below it is repaired. *)
Lemma visit_child (x : jsval) (lo : nat) (h : heap) (s : step) :
  is_object x = true -> need x <= n ->
  holds h lo (chunk lo x) ->
  exists h', rec (annotate h a s (root lo x)) (VRef (root lo x)) = Some h' /\
    extends h h' /\ frame lo (S (root lo x)) h h' /\ child_post x a s lo h'.
Proof.
  intros Ho Hn Hh.
  destruct (root_ref lo x Ho) as (Hv & cs & c & E & R).
  rewrite E in Hh. apply holds_app in Hh as [Hcs Hc].
  specialize (Hc 0 c eq_refl). rewrite Nat.add_0_r, <- R in Hc.
  assert (Hlt : root lo x < length h) by (eapply lookup_lt_Some; eauto).
  destruct (annotate_spec h a s (root lo x) Hlt) as (L & F & G & P & N & O & Pr & He).
  set (ha := annotate h a s (root lo x)) in *.
  assert (Hi : intact ha lo x).
  { destruct (lookup_lt_is_Some_2 ha (root lo x)) as [c' Hc']; [lia|].
    exists cs, c, c'. split; [exact E|]. split.
    - intros i ci Hci. rewrite F; [now apply Hcs| |].
      + apply lookup_lt_Some in Hci. lia.
      + apply Hcs in Hci. apply lookup_lt_Some in Hci. exact Hci.
    - rewrite <- R. split; [exact Hc'|]. intros k N1 N2.
      specialize (G k N1 N2). unfold get in G. now rewrite Hc', Hc in G. }
  destruct (rec_runs x lo ha Hn Ho Hi) as (h' & Er & Ee & Ef & Ek & Hf).
  exists h'. split; [exact Er|]. split; [eapply extends_trans; eauto|]. split.
  - intros y Hy Hny. rewrite Ef; [apply F; [lia|exact Hy]|lia|exact Hny].
  - split.
    + replace (treated_as "actions" s x) with (known_as ha (root lo x) "actions"); [exact Hf|].
      unfold known_as, treated_as. rewrite P, N, Pr. cbn [truthy_value andb is_str].
      f_equal. destruct (name_of s) as [key|]; [reflexivity|].
      unfold get. rewrite Hc.
      unfold chunk in E. destruct x as [| | | | |l|l]; try discriminate.
      * rewrite build_arr in E. cbn [fst] in E. apply app_inj_tail in E as [_ <-].
        reflexivity.
      * rewrite build_obj in E. cbn [fst] in E. apply app_inj_tail in E as [_ <-].
        cbn [props]. destruct (field_at_spec "name" l lo) as (F1 & _).
        rewrite F1. apply is_str_build.
    + exists (length h). split; [rewrite Ek by discriminate; exact P|].
      split; eapply extends_get; eauto; discriminate.
Qed.

End Visit.

(** The children that a loop visits, each with its position. *)
Fixpoint steps_of (mk : nat -> string -> step) (j : nat) (ps : list (string * value))
  : list (step * value) :=
  match ps with
  | [] => []
  | (k, v) :: r => (mk j k, v) :: steps_of mk (S j) r
  end.

Lemma frame_refl (lo hi : nat) (h : heap) : frame lo hi h h.
Proof. intros x _ _. reflexivity. Qed.

Section Loop.
Variable rec : heap -> value -> option heap.
Variable n : nat.
Hypothesis rec_runs : runs rec n.
Variable a : addr.
Variable mk : nat -> string -> step.

Lemma loop_children (l : list (string * jsval)) :
  forall lo j0 h,
    holds h lo (fst (build_fields build lo l)) ->
    (forall j k x, l !! j = Some (k, x) -> need x <= n) ->
    exists h',
      fold_heap (visit rec a) h (steps_of mk j0 (snd (build_fields build lo l))) = Some h' /\
      extends h h' /\
      frame lo (lo + length (fst (build_fields build lo l))) h h' /\
      forall j k x, l !! j = Some (k, x) -> is_object x = true ->
        child_post x a (mk (j0 + j) k) (field_lo lo l j) h'.
Proof.
  induction l as [|[k0 y] r IH]; intros lo j0 h Hh Hn.
  - exists h. cbn. split; [reflexivity|]. split; [apply extends_refl|].
    split; [apply frame_refl|]. intros j k x Hj. destruct j; discriminate.
  - rewrite build_fields_cons in *; cbn [fst snd steps_of fold_heap] in *.
    apply holds_app in Hh as [Hy Hr].
    assert (Hny : need y <= n) by (apply (Hn 0 k0 y); reflexivity).
    assert (Hnr : forall j k x, r !! j = Some (k, x) -> need x <= n)
      by (intros j k x Hj; apply (Hn (S j) k x); exact Hj).
    destruct (is_object y) eqn:Ho.
    + destruct (root_ref lo y Ho) as (Hv & _). destruct (root_inside lo y Ho) as [Hlo Hhi].
      unfold visit at 1. cbn [fst snd]. rewrite Hv.
      destruct (visit_child rec n rec_runs a y lo h (mk j0 k0) Ho Hny Hy)
        as (h1 & E1 & He1 & Hf1 & Hp1).
      rewrite E1. unfold chunk in Hhi.
      pose proof (extends_length _ _ He1) as Hl1.
      destruct (IH (lo + length (fst (build lo y))) (S j0) h1) as (h' & E' & He' & Hf' & Hp').
      { intros i c Hi. pose proof (Hr i c Hi) as Hc.
        rewrite Hf1; [exact Hc|eapply lookup_lt_Some; eauto|lia]. }
      { exact Hnr. }
      exists h'. split; [exact E'|]. split; [eapply extends_trans; eauto|]. split.
      * intros z Hz Hnz. rewrite length_app in Hnz.
        rewrite Hf'; [apply Hf1; [exact Hz|lia]|lia|lia].
      * intros [|j] k x Hj Hox.
        -- injection Hj as -> ->. rewrite Nat.add_0_r. cbn [field_lo].
           eapply child_post_stable; eauto.
           intros z Hz. apply Hf'; [|lia].
           assert (root lo x < length h); [|lia].
           destruct (root_ref lo x Hox) as (_ & cs & c & E & R).
           unfold chunk in Hy. unfold chunk in E. rewrite E in Hy.
           apply holds_app in Hy as [_ Hc]. specialize (Hc 0 c eq_refl).
           apply lookup_lt_Some in Hc. lia.
        -- cbn [field_lo]. replace (j0 + S j) with (S j0 + j) by lia.
           apply Hp'; assumption.
    + destruct (build_prim lo y Ho) as [Ec Ev]. rewrite Ec in *. cbn [length] in *.
      rewrite Nat.add_0_r in *.
      assert (Evis : visit rec a h (mk j0 k0, snd (build lo y)) = Some h).
      { unfold visit. cbn [snd]. destruct (snd (build lo y)); try reflexivity.
        now contradiction (Ev a0). }
      rewrite Evis.
      destruct (IH lo (S j0) h Hr Hnr) as (h' & E' & He' & Hf' & Hp').
      exists h'. split; [exact E'|]. split; [exact He'|]. split; [exact Hf'|].
      intros [|j] k x Hj Hox.
      * injection Hj as -> ->. congruence.
      * cbn [field_lo]. rewrite Ec. cbn [length]. rewrite Nat.add_0_r.
        replace (j0 + S j) with (S j0 + j) by lia. apply Hp'; assumption.
Qed.

End Loop.

(** What a loop over the children [ents], built at [lo], leaves behind: the
    cells between the children and [hi] are as they were in [h0], and every
    child that is an object has been visited. *)
Definition phase_post (a : addr) (h0 : heap) (lo hi : nat) (ents : list (string * jsval))
    (mk : nat -> string -> step) (h : heap) : Prop :=
  (forall x, lo + length (fst (build_fields build lo ents)) <= x < hi -> h !! x = h0 !! x) /\
  forall j key x, ents !! j = Some (key, x) -> is_object x = true ->
    child_post x a (mk j key) (field_lo lo ents j) h.

Section Phase.
Variable rec : heap -> value -> option heap.
Variable n : nat.
Hypothesis rec_runs : runs rec n.
Variable a : addr.
Variable h0 : heap.
Variable prot : nat -> Prop.
Hypothesis prot_a : prot a.
Hypothesis a_lt : a < length h0.

Lemma phase_ok (lo hi : nat) (ents : list (string * jsval)) (mk : nat -> string -> step)
    (run : heap -> option heap) :
  lo + length (fst (build_fields build lo ents)) <= hi -> hi <= length h0 ->
  holds h0 lo (fst (build_fields build lo ents)) ->
  (forall j key x, ents !! j = Some (key, x) -> need x <= n) ->
  (forall h, h !! a = h0 !! a -> (forall x, lo <= x < hi -> h !! x = h0 !! x) ->
     run h = fold_heap (visit rec a) h (steps_of mk 0 (snd (build_fields build lo ents)))) ->
  task_ok h0 prot (Task lo hi run (phase_post a h0 lo hi ents mk)).
Proof.
  intros Hlen Hhi Hh Hn Hrun. split; [exact Hhi|]. split.
  - cbn [t_lo t_hi t_run t_post]. intros h He Hag.
    assert (Hreg : forall x, lo <= x < hi -> h !! x = h0 !! x).
    { intros x Hx. apply Hag; [lia|]. left. exact Hx. }
    assert (Ha : h !! a = h0 !! a) by (apply Hag; auto).
    rewrite (Hrun h Ha Hreg).
    assert (Hh' : holds h lo (fst (build_fields build lo ents))).
    { intros i c Hi. rewrite Hreg; [now apply Hh|].
      apply lookup_lt_Some in Hi. lia. }
    destruct (loop_children rec n rec_runs a mk ents lo 0 h Hh' Hn)
      as (h' & E & He' & Hf & Hp).
    pose proof (extends_length _ _ He) as Hl.
    exists h'. split; [exact E|]. split; [exact He'|]. split.
    + intros x Hx Hnx. apply Hf; [exact Hx|lia].
    + split.
      * intros x Hx. rewrite Hf; [apply Hreg; lia|lia|lia].
      * intros j key x Hj Ho. apply (Hp j key x Hj Ho).
  - cbn [t_lo t_hi t_post]. intros h1 h2 [P1 P2] He Hreg. unfold region in Hreg.
    cbn [t_lo t_hi] in Hreg. split.
    + intros x Hx. rewrite Hreg; [now apply P1|lia].
    + intros j key x Hj Ho.
      destruct (build_fields_index ents lo j key x Hj) as (_ & B2 & _ & _).
      pose proof (field_lo_le ents lo j) as B0.
      destruct (root_inside (field_lo lo ents j) x Ho) as [R1 R2]. unfold chunk in R2.
      eapply child_post_stable; eauto.
      intros y Hy. apply Hreg. lia.
Qed.

End Phase.

(** The members of [oneOf], [anyOf] or [allOf]: only an array has any. *)
Definition members (t : jsval) : list (string * jsval) :=
  match t with JArr l => keyed 0 l | _ => [] end.

Section Loops.
Variable rec : heap -> value -> option heap.
Hypothesis rec_prim : forall h v, (forall c, v <> VRef c) -> rec h v = Some h.
Variable a : addr.

Lemma fold_steps (f : heap -> string * value -> option heap) (mk : nat -> string -> step) :
  (forall h j k v, f h (k, v) = visit rec a h (mk j k, v)) ->
  forall ents j0 h,
    fold_heap f h ents = fold_heap (visit rec a) h (steps_of mk j0 ents).
Proof.
  intros Hf ents. induction ents as [|[k v] r IH]; intros j0 h; [reflexivity|].
  cbn [steps_of fold_heap]. rewrite (Hf h j0 k v).
  destruct (visit rec a h (mk j0 k, v)); [apply IH|reflexivity].
Qed.

Lemma container_entries (h : heap) (p : nat) (x : jsval) :
  is_object x = true -> holds h p (chunk p x) ->
  snd (build p x) = VRef (root p x) /\
  entries_at h (root p x) = snd (build_fields build p (tree_entries x)) /\
  root p x = p + length (fst (build_fields build p (tree_entries x))).
Proof.
  intros Ho Hh. destruct (root_ref p x Ho) as (Hv & cs & c & E & R).
  split; [exact Hv|].
  destruct (build_container p x Ho) as (c0 & B & En & _).
  unfold chunk in *. rewrite B in E, Hh. cbn [fst] in E, Hh.
  apply app_inj_tail in E as [E1 E2]. subst c0.
  apply holds_app in Hh as [_ Hc]. specialize (Hc 0 c eq_refl).
  rewrite Nat.add_0_r, E1, <- R in Hc.
  split; [unfold entries_at; now rewrite Hc|]. now rewrite E1.
Qed.

Lemma fix_properties_run (h : heap) (p : nat) (x : jsval) :
  get h (VRef a) "properties" = snd (build p x) -> holds h p (chunk p x) ->
  fix_properties rec a h =
    fold_heap (visit rec a) h
      (steps_of (fun _ key => AtProperty key) 0 (snd (build_fields build p (tree_entries x)))).
Proof.
  intros Hg Hh. unfold fix_properties. rewrite Hg.
  destruct (is_object x) eqn:Ho.
  - destruct (container_entries h p x Ho Hh) as (Hv & He & _). rewrite Hv, He.
    apply fold_steps. intros hh j k v. unfold visit. cbn [fst snd].
    destruct v as [| | | | |c]; try reflexivity; cbn [truthy_value].
    + destruct b; [apply rec_prim; discriminate|reflexivity].
    + destruct (negb _); [apply rec_prim; discriminate|reflexivity].
    + destruct (negb _); [apply rec_prim; discriminate|reflexivity].
  - destruct (build_prim p x Ho) as [_ Ev].
    replace (tree_entries x) with (@nil (string * jsval)) by (destruct x; auto; discriminate).
    cbn. destruct (snd (build p x)); try reflexivity. now contradiction (Ev a0).
Qed.

Lemma fix_patternProperties_run (h : heap) (p : nat) (x : jsval) :
  get h (VRef a) "patternProperties" = snd (build p x) -> holds h p (chunk p x) ->
  fix_patternProperties rec a h =
    fold_heap (visit rec a) h
      (steps_of (fun _ key => AtPattern key) 0 (snd (build_fields build p (tree_entries x)))).
Proof.
  intros Hg Hh. unfold fix_patternProperties. rewrite Hg.
  destruct (is_object x) eqn:Ho.
  - destruct (container_entries h p x Ho Hh) as (Hv & He & _). rewrite Hv, He.
    apply fold_steps. intros hh j k v. unfold visit. cbn [fst snd].
    destruct v as [| | | | |c]; reflexivity.
  - destruct (build_prim p x Ho) as [_ Ev].
    replace (tree_entries x) with (@nil (string * jsval)) by (destruct x; auto; discriminate).
    cbn. destruct (snd (build p x)); try reflexivity. now contradiction (Ev a0).
Qed.

Lemma fix_items_run (h : heap) (p : nat) (x : jsval) :
  get h (VRef a) "items" = snd (build p x) ->
  fix_items rec a h =
    fold_heap (visit rec a) h
      (steps_of (fun _ _ => AtItems) 0 (snd (build_fields build p [("items"%string, x)]))).
Proof.
  intros Hg. unfold fix_items. rewrite Hg. rewrite build_fields_cons.
  cbn [snd steps_of fold_heap]. unfold visit. cbn [fst snd].
  destruct (snd (build p x)) as [| | | | |c]; try reflexivity.
  change (annotate h a AtItems c) with (set_parent h a "items" c).
  destruct (rec _ _); reflexivity.
Qed.

Lemma fold_indexed (complexProp : string) (vs : list value) :
  forall i h,
    fold_heap
      (fun h '(index, subSchema) =>
         match subSchema with
         | VRef c =>
             rec (set_parent h a (complexProp ++ "[" ++ pretty index ++ "]")%string c) (VRef c)
         | _ => Some h
         end) h (indexed i vs) =
    fold_heap (visit rec a) h
      (steps_of (fun j _ => AtMember complexProp j) i
         (List.map (fun '(i, v) => (pretty i, v)) (indexed i vs))).
Proof.
  induction vs as [|v vs IH]; intros i h; [reflexivity|].
  cbn [indexed List.map steps_of fold_heap]. unfold visit at 1. cbn [fst snd].
  destruct v as [| | | | |c]; try apply IH.
  change (annotate h a (AtMember complexProp i) c)
    with (set_parent h a (complexProp ++ "[" ++ pretty i ++ "]")%string c).
  destruct (rec _ _); [apply IH|reflexivity].
Qed.

Lemma fix_complex_run (h : heap) (complexProp : string) (p : nat) (x : jsval) :
  get h (VRef a) complexProp = snd (build p x) -> holds h p (chunk p x) ->
  fix_complex rec a h complexProp =
    fold_heap (visit rec a) h
      (steps_of (fun j _ => AtMember complexProp j) 0
         (snd (build_fields build p (members x)))).
Proof.
  intros Hg Hh. unfold fix_complex. rewrite Hg.
  destruct x as [| | | | |l|l]; try reflexivity.
  - rewrite build_arr. cbn [snd members].
    unfold chunk in Hh. rewrite build_arr in Hh. cbn [fst] in Hh.
    apply holds_app in Hh as [_ Hc]. specialize (Hc 0 _ eq_refl).
    rewrite Nat.add_0_r in Hc. rewrite Hc.
    destruct (build_elems_keyed p 0 l) as [_ <-]. apply fold_indexed.
  - rewrite build_obj. cbn [snd members].
    unfold chunk in Hh. rewrite build_obj in Hh. cbn [fst] in Hh.
    apply holds_app in Hh as [_ Hc]. specialize (Hc 0 _ eq_refl).
    rewrite Nat.add_0_r in Hc. rewrite Hc. reflexivity.
Qed.

End Loops.

(** The field [k] of the object [a] is the tree [x], whose cells are in the
    heap at [p], away from [a]. *)
Record placed (h : heap) (a : addr) (k : string) (p : nat) (x : jsval) : Prop := Placed {
  placed_get : get h (VRef a) k = snd (build p x);
  placed_holds : holds h p (chunk p x);
  placed_len : p + length (chunk p x) <= length h;
  placed_out : a < p \/ p + length (chunk p x) <= a
}.

(** The fields that [fixArrayProperties] descends into, in that order. *)
Definition fields : list string :=
  ["properties"; "items"; "patternProperties"; "oneOf"; "anyOf"; "allOf"]%string.

Lemma list_max_cons (x : nat) (l : list nat) :
  list_max (x :: l) = Nat.max x (list_max l).
Proof. reflexivity. Qed.

Lemma need_entry (x : jsval) (j : nat) (k : string) (y : jsval) :
  tree_entries x !! j = Some (k, y) -> need y < need x.
Proof.
  destruct x as [| | | | |l|l]; try discriminate; cbn [tree_entries need].
  - assert (G : forall i, keyed i l !! j = Some (k, y) -> need y <= list_max (List.map need l)).
    { revert j. induction l as [|z r IH]; intros j i H; [discriminate|].
      cbn [List.map]. rewrite list_max_cons.
      destruct j as [|j]; cbn in H.
      - injection H as _ ->. lia.
      - specialize (IH j (S i) H). lia. }
    intros H. specialize (G 0 H). lia.
  - assert (G : l !! j = Some (k, y) ->
                need y <= list_max (List.map (fun kv => need (snd kv)) l)).
    { revert j. induction l as [|z r IH]; intros j H; [discriminate|].
      cbn [List.map]. rewrite list_max_cons.
      destruct j as [|j]; cbn in H.
      - injection H as ->. cbn [snd]. lia.
      - specialize (IH j H). lia. }
    intros H. specialize (G H). lia.
Qed.

Lemma need_member (x : jsval) (j : nat) (k : string) (y : jsval) :
  members x !! j = Some (k, y) -> need y < need x.
Proof. destruct x as [| | | | |l|l]; try discriminate. apply (need_entry (JArr l)). Qed.

Lemma chunk_tree_entries (p : nat) (x : jsval) :
  exists rest, chunk p x = fst (build_fields build p (tree_entries x)) ++ rest.
Proof.
  destruct (is_object x) eqn:Ho.
  - destruct (build_container p x Ho) as (c & B & _). unfold chunk. rewrite B. eauto.
  - destruct (build_prim p x Ho) as [E _]. unfold chunk. rewrite E.
    exists []. destruct x; try reflexivity; discriminate.
Qed.

Lemma chunk_members (p : nat) (x : jsval) :
  exists rest, chunk p x = fst (build_fields build p (members x)) ++ rest.
Proof.
  destruct x as [| | | | |l|l];
    try (match goal with |- context [chunk p ?y] => exists (chunk p y) end; reflexivity).
  apply (chunk_tree_entries p (JArr l)).
Qed.

Lemma chunk_items (p : nat) (x : jsval) :
  chunk p x = fst (build_fields build p [("items"%string, x)]) ++ [].
Proof. rewrite build_fields_cons. cbn. now rewrite !app_nil_r. Qed.

Section Node.
Variable rec : heap -> value -> option heap.
Variable n : nat.
Hypothesis rec_runs : runs rec n.
Hypothesis rec_prim : forall h v, (forall c, v <> VRef c) -> rec h v = Some h.
Variable a : addr.
Variable h0 : heap.
Variable P : string -> nat.
Variable T : string -> jsval.
Hypothesis a_lt : a < length h0.
Hypothesis Hplaced : forall k, In k fields -> placed h0 a k (P k) (T k).
Hypothesis Hdisjoint : forall k k', In k fields -> In k' fields -> k <> k' ->
  P k + length (chunk (P k) (T k)) <= P k' \/ P k' + length (chunk (P k') (T k')) <= P k.
Hypothesis need_items : need (T "items") <= n.
Hypothesis need_fields : forall k, In k fields -> need (T k) <= S n.

Definition hi_of (k : string) : nat := P k + length (chunk (P k) (T k)).

Definition phase_task (k : string) (ents : list (string * jsval))
    (mk : nat -> string -> step) (run : heap -> option heap) : task :=
  Task (P k) (hi_of k) run (phase_post a h0 (P k) (hi_of k) ents mk).

Definition node_tasks : list task :=
  [phase_task "properties" (tree_entries (T "properties")) (fun _ key => AtProperty key)
     (fix_properties rec a);
   phase_task "items" [("items"%string, T "items")] (fun _ _ => AtItems) (fix_items rec a);
   phase_task "patternProperties" (tree_entries (T "patternProperties"))
     (fun _ key => AtPattern key) (fix_patternProperties rec a);
   phase_task "oneOf" (members (T "oneOf")) (fun j _ => AtMember "oneOf" j)
     (fun h => fix_complex rec a h "oneOf");
   phase_task "anyOf" (members (T "anyOf")) (fun j _ => AtMember "anyOf" j)
     (fun h => fix_complex rec a h "anyOf");
   phase_task "allOf" (members (T "allOf")) (fun j _ => AtMember "allOf" j)
     (fun h => fix_complex rec a h "allOf")].

Lemma phase_task_ok (k : string) (ents : list (string * jsval))
    (mk : nat -> string -> step) (run : heap -> option heap) :
  In k fields ->
  (exists rest, chunk (P k) (T k) = fst (build_fields build (P k) ents) ++ rest) ->
  (forall j key x, ents !! j = Some (key, x) -> need x <= n) ->
  (forall h, get h (VRef a) k = snd (build (P k) (T k)) -> holds h (P k) (chunk (P k) (T k)) ->
     run h = fold_heap (visit rec a) h
               (steps_of mk 0 (snd (build_fields build (P k) ents)))) ->
  task_ok h0 (fun x => x = a) (phase_task k ents mk run).
Proof.
  intros Hk [rest Er] Hn Hrun. destruct (Hplaced k Hk) as [G H L O].
  unfold phase_task.
  apply (phase_ok rec n rec_runs a h0 (fun x => x = a) eq_refl a_lt); auto.
  - unfold hi_of. rewrite Er, length_app. lia.
  - rewrite Er in H. now apply holds_app in H.
  - intros h Ha Hreg. apply Hrun.
    + rewrite (get_agree h0 h) by exact Ha. exact G.
    + intros i c Hi. rewrite Hreg; [now apply H|].
      apply lookup_lt_Some in Hi. unfold hi_of. lia.
Qed.

Lemma node_tasks_ok : Forall (task_ok h0 (fun x => x = a)) node_tasks.
Proof.
  unfold node_tasks. repeat apply Forall_cons_2; try apply Forall_nil_2.
  - apply phase_task_ok; [cbn; tauto|apply chunk_tree_entries| |].
    + intros j key x Hj. apply need_entry in Hj.
      assert (need (T "properties") <= S n) by (apply need_fields; cbn; tauto). lia.
    + intros h. apply fix_properties_run, rec_prim.
  - apply phase_task_ok; [cbn; tauto|eexists; apply chunk_items| |].
    + intros [|j] key x Hj; [|destruct j; discriminate]. now injection Hj as _ <-.
    + intros h Hg _. now apply fix_items_run.
  - apply phase_task_ok; [cbn; tauto|apply chunk_tree_entries| |].
    + intros j key x Hj. apply need_entry in Hj.
      assert (need (T "patternProperties") <= S n) by (apply need_fields; cbn; tauto). lia.
    + intros h. apply fix_patternProperties_run.
  - apply phase_task_ok; [cbn; tauto|apply chunk_members| |].
    + intros j key x Hj. apply need_member in Hj.
      assert (need (T "oneOf") <= S n) by (apply need_fields; cbn; tauto). lia.
    + intros h. apply fix_complex_run.
  - apply phase_task_ok; [cbn; tauto|apply chunk_members| |].
    + intros j key x Hj. apply need_member in Hj.
      assert (need (T "anyOf") <= S n) by (apply need_fields; cbn; tauto). lia.
    + intros h. apply fix_complex_run.
  - apply phase_task_ok; [cbn; tauto|apply chunk_members| |].
    + intros j key x Hj. apply need_member in Hj.
      assert (need (T "allOf") <= S n) by (apply need_fields; cbn; tauto). lia.
    + intros h. apply fix_complex_run.
Qed.

Lemma region_out (k : string) (x : nat) :
  In k fields -> P k <= x < hi_of k -> x <> a.
Proof.
  intros Hk Hx. destruct (Hplaced k Hk) as [_ _ _ O]. unfold hi_of in Hx. lia.
Qed.

Lemma regions_apart (k k' : string) (x : nat) :
  In k fields -> In k' fields -> k <> k' ->
  P k <= x < hi_of k -> ~ (P k' <= x < hi_of k').
Proof.
  intros Hk Hk' Hne Hx Hx'. unfold hi_of in *.
  destruct (Hdisjoint k k' Hk Hk' Hne); lia.
Qed.

Lemma node_tasks_separate : separate (fun x => x = a) node_tasks.
Proof.
  unfold node_tasks. cbn [separate].
  repeat split;
    try (intros x Hx; unfold region in Hx; cbn [t_lo t_hi phase_task] in Hx;
         eapply region_out; [|exact Hx]; cbn; tauto);
    repeat apply Forall_cons_2; try apply Forall_nil_2;
    intros x Hx; unfold region in *; cbn [t_lo t_hi phase_task] in *;
    (eapply regions_apart; [| | |exact Hx]; [cbn; tauto|cbn; tauto|discriminate]).
Qed.

(** The traversal of a node after its own [items] have been dealt with. *)
Definition node_run (h : heap) : option heap :=
  h1 ← fix_properties rec a h;
  h2 ← fix_items rec a h1;
  h3 ← fix_patternProperties rec a h2;
  fold_heap (fix_complex rec a) h3 ["oneOf"; "anyOf"; "allOf"]%string.

Lemma node_run_tasks (h : heap) : node_run h = run_all node_tasks h.
Proof.
  unfold node_run, run_all, node_tasks. cbn [fold_heap t_run phase_task].
  destruct (fix_properties rec a h) as [h1|]; [|reflexivity]. cbn [mbind option_bind].
  destruct (fix_items rec a h1) as [h2|]; [|reflexivity]. cbn [mbind option_bind].
  destruct (fix_patternProperties rec a h2) as [h3|]; reflexivity.
Qed.

Lemma node_phases :
  exists h', node_run h0 = Some h' /\ extends h0 h' /\
    (forall x, x < length h0 ->
       (forall k, In k fields -> ~ (P k <= x < hi_of k)) -> h' !! x = h0 !! x) /\
    Forall (fun Tk => t_post Tk h') node_tasks.
Proof.
  destruct (tasks_run h0 (fun x => x = a) node_tasks node_tasks_ok node_tasks_separate
              h0 (extends_refl h0)) as (h' & E & He & Hf & Hp); [reflexivity|].
  exists h'. rewrite node_run_tasks. split; [exact E|]. split; [exact He|].
  split; [|exact Hp].
  intros x Hx Hout. apply Hf; [exact Hx|]. intros Hex.
  unfold node_tasks in Hex.
  repeat (apply Exists_cons in Hex as [Hex|Hex];
          [unfold region in Hex; cbn [t_lo t_hi phase_task] in Hex;
           eapply Hout; [|exact Hex]; cbn; tauto|]).
  now apply Exists_nil in Hex.
Qed.

End Node.

(** [facts] for a traversal whose objects lie between [lo] and [hi]. *)
Definition facts_in (t : jsval) (actions : bool) (lo hi : nat) (a : addr) (h : heap) : Prop :=
  forall p node act, subschema t actions p = Some (node, act) ->
    exists x, walk lo hi h a p = Some x /\
      (lacking node = true -> items_ok h x act) /\
      (forall s child, child_of node s = Some child -> is_object child = true ->
         exists c, nav lo hi h x s = Some c /\ annotated h x s c).

Lemma facts_facts_in (t : jsval) (act : bool) (lo a : nat) (h : heap) :
  facts t act lo a h <-> facts_in t act lo a a h.
Proof.
  split; intros H p node actn Hs; destruct (H p node actn Hs) as (x & Hw & Hi & Hc);
    exists x; (split; [exact Hw|]); (split; [exact Hi|]); intros s child Hch Ho.
  - destruct (Hc s child Hch Ho) as (c & pn & Hn & Hp). exists c. split; [exact Hn|].
    exists pn. exact Hp.
  - destruct (Hc s child Hch Ho) as (c & Hn & pn & Hp). exists c, pn. auto.
Qed.

Lemma facts_in_mono (t : jsval) (act : bool) (lo hi lo' hi' : nat) (a : addr) (h : heap) :
  lo' <= lo -> hi <= hi' -> facts_in t act lo hi a h -> facts_in t act lo' hi' a h.
Proof.
  intros H1 H2 H p node actn Hs. destruct (H p node actn Hs) as (x & Hw & Hi & Hc).
  exists x. split; [eapply walk_mono; eauto|]. split; [exact Hi|].
  intros s child Hch Ho. destruct (Hc s child Hch Ho) as (c & Hn & Ha).
  exists c. split; [eapply nav_mono; eauto|exact Ha].
Qed.

Lemma keyed_lookup (l : list jsval) :
  forall i j x, l !! j = Some x -> keyed i l !! j = Some (pretty (i + j), x).
Proof.
  induction l as [|y r IH]; intros i j x H; [discriminate|].
  destruct j as [|j]; cbn [keyed]; cbn in H.
  - injection H as ->. now rewrite Nat.add_0_r.
  - change ((_ :: keyed (S i) r) !! S j) with (keyed (S i) r !! j).
    rewrite (IH (S i) j x H). do 3 f_equal. lia.
Qed.

Lemma build_elems_lookup (l : list jsval) :
  forall lo i j x, l !! j = Some x ->
    snd (build_elems build lo l) !! j = Some (snd (build (field_lo lo (keyed i l) j) x)).
Proof.
  induction l as [|y r IH]; intros lo i j x H; [discriminate|].
  cbn [build_elems keyed].
  destruct (build lo y) as [c1 v] eqn:Ey.
  change ((fix go (n : nat) (l : list jsval) {struct l} : list cell * list value :=
             match l with
             | [] => ([], [])
             | x :: r =>
                 let '(c1, v) := build n x in
                 let '(c2, vs) := go (n + length c1) r in (c1 ++ c2, v :: vs)
             end) (lo + length c1) r) with (build_elems build (lo + length c1) r).
  specialize (IH (lo + length c1) (S i)).
  destruct (build_elems build (lo + length c1) r) as [c2 vs]; cbn [snd] in *.
  destruct j as [|j]; cbn in H |- *.
  - injection H as ->. now rewrite Ey.
  - rewrite Ey. cbn [fst]. now apply IH.
Qed.

Lemma complex_cases (cp : string) :
  complex cp = true -> cp = "oneOf"%string \/ cp = "anyOf"%string \/ cp = "allOf"%string.
Proof.
  unfold complex. cbn [existsb]. rewrite !orb_true_iff, !String.eqb_eq.
  intuition discriminate.
Qed.

Lemma entry_some_object (k : string) (x child : jsval) :
  entry k (tree_entries x) = Some child -> is_object x = true.
Proof. destruct x; try discriminate; reflexivity. Qed.

Section Assemble.
Variable a : addr.
Variables h0 h' : heap.
Variable P : string -> nat.
Variable T : string -> jsval.
Variable t : jsval.
Variables lo hi : nat.

Hypothesis Hplaced : forall k, In k fields -> placed h0 a k (P k) (T k).
Hypothesis Ha : h' !! a = h0 !! a.
Hypothesis Hext : extends h0 h'.
Hypothesis link_properties :
  tree_entries (T "properties") = tree_entries (field_of t "properties").
Hypothesis link_items :
  is_object (field_of t "items") = true -> T "items" = field_of t "items".
Hypothesis link_pattern : T "patternProperties" = field_of t "patternProperties".
Hypothesis link_complex : forall cp, complex cp = true -> T cp = field_of t cp.
Hypothesis bounds : forall k, In k fields ->
  (k = "items"%string -> is_object (field_of t "items") = true) ->
  is_object (T k) = true -> lo <= P k /\ hi_of P T k <= S hi.

Hypothesis post_properties :
  phase_post a h0 (P "properties") (hi_of P T "properties")
    (tree_entries (T "properties")) (fun _ key => AtProperty key) h'.
Hypothesis post_items :
  phase_post a h0 (P "items") (hi_of P T "items")
    [("items"%string, T "items")] (fun _ _ => AtItems) h'.
Hypothesis post_pattern :
  phase_post a h0 (P "patternProperties") (hi_of P T "patternProperties")
    (tree_entries (T "patternProperties")) (fun _ key => AtPattern key) h'.
Hypothesis post_complex : forall cp, complex cp = true ->
  phase_post a h0 (P cp) (hi_of P T cp) (members (T cp)) (fun j _ => AtMember cp j) h'.

Lemma inside_true (x : nat) : lo <= x <= hi -> inside lo hi x = true.
Proof. apply inside_spec. Qed.

(** A child reached through the entries of a container field. *)
Lemma entry_child (k : string) (mk : nat -> string -> step) (key : string) (child : jsval) :
  In k fields -> k <> "items"%string ->
  phase_post a h0 (P k) (hi_of P T k) (tree_entries (T k)) mk h' ->
  entry key (tree_entries (T k)) = Some child -> is_object child = true ->
  exists j pa c lo_c,
    tree_entries (T k) !! j = Some (key, child) /\
    get h' (VRef a) k = VRef pa /\ inside lo hi pa = true /\
    lookup_ref lo hi key (entries_at h' pa) = Some c /\
    c = root lo_c child /\ lo <= lo_c /\ c <= hi /\
    child_post child a (mk j key) lo_c h'.
Proof.
  intros Hk Hni [P1 P2] He Ho.
  pose proof (entry_some_object _ _ _ He) as Hobj.
  destruct (Hplaced k Hk) as [G H L O].
  destruct (bounds k Hk (fun E => False_ind _ (Hni E)) Hobj) as [B1 B2].
  destruct (container_entries h0 (P k) (T k) Hobj H) as (Hv & Hen & Hr).
  destruct (root_inside (P k) (T k) Hobj) as [R1 R2].
  destruct (entry_index key _ child He) as (j & Hj & Hl).
  destruct (build_fields_index _ (P k) j key child Hj) as (_ & F2 & _ & _).
  pose proof (field_lo_le (tree_entries (T k)) (P k) j) as F0.
  destruct (root_ref (field_lo (P k) (tree_entries (T k)) j) child Ho) as (Hvc & _).
  destruct (root_inside (field_lo (P k) (tree_entries (T k)) j) child Ho) as [C1 C2].
  unfold chunk in C2. unfold hi_of in *.
  exists j, (root (P k) (T k)), (root (field_lo (P k) (tree_entries (T k)) j) child),
    (field_lo (P k) (tree_entries (T k)) j).
  split; [exact Hj|].
  split; [rewrite (get_agree h0 h') by exact Ha; now rewrite G|].
  split; [apply inside_true; lia|].
  split.
  - rewrite (entries_at_agree h0 h') by (apply P1; lia).
    rewrite Hen. unfold lookup_ref. rewrite Hl, Hvc.
    rewrite inside_true by lia. reflexivity.
  - split; [reflexivity|]. split; [lia|]. split; [lia|]. now apply P2.
Qed.

Lemma node_child (s : step) (child : jsval) :
  child_of t s = Some child -> is_object child = true ->
  exists lo_c, lo <= lo_c /\ root lo_c child <= hi /\
    nav lo hi h' a s = Some (root lo_c child) /\ child_post child a s lo_c h'.
Proof.
  intros Hc Ho. destruct s as [key| |pattern|cp idx]; cbn [child_of nav] in *.
  - rewrite <- link_properties in Hc.
    destruct (entry_child "properties" (fun _ key => AtProperty key) key child)
      as (j & pa & c & lo_c & Hj & Hg & Hi & Hl & -> & B1 & B2 & Hp);
      [cbn; tauto|discriminate|exact post_properties|exact Hc|exact Ho|].
    exists lo_c. rewrite Hg, Hi. auto.
  - injection Hc as <-. pose proof (link_items Ho) as Hl.
    assert (Hk : In "items"%string fields) by (cbn; tauto).
    destruct (Hplaced "items" Hk) as [G H L O].
    destruct (bounds "items" Hk (fun _ => Ho)) as [B1 B2]; [now rewrite Hl|].
    unfold hi_of in B2. rewrite Hl in *.
    destruct (root_ref (P "items") _ Ho) as (Hv & _).
    destruct (root_inside (P "items") _ Ho) as [R1 R2].
    exists (P "items"). split; [exact B1|]. split; [lia|]. split.
    + rewrite (get_agree h0 h') by exact Ha. rewrite G, Hv.
      rewrite inside_true by lia. reflexivity.
    + destruct post_items as [_ P2]. try rewrite Hl in P2.
      apply (P2 0 "items"%string _ eq_refl Ho).
  - rewrite <- link_pattern in Hc.
    destruct (entry_child "patternProperties" (fun _ key => AtPattern key) pattern child)
      as (j & pa & c & lo_c & Hj & Hg & Hi & Hl & -> & B1 & B2 & Hp);
      [cbn; tauto|discriminate|exact post_pattern|exact Hc|exact Ho|].
    exists lo_c. rewrite Hg, Hi. auto.
  - destruct (complex cp) eqn:Ecp; [|discriminate].
    rewrite <- (link_complex cp Ecp) in Hc.
    destruct (T cp) as [| | | | |l|l] eqn:ET; try discriminate.
    assert (Hk : In cp fields).
    { destruct (complex_cases cp Ecp) as [->|[->| ->]]; cbn; tauto. }
    assert (Hni : cp <> "items"%string).
    { destruct (complex_cases cp Ecp) as [->|[->| ->]]; discriminate. }
    destruct (Hplaced cp Hk) as [G H L O]. rewrite ET in G, H.
    destruct (bounds cp Hk (fun E => False_ind _ (Hni E))) as [B1 B2];
      [now rewrite ET|].
    unfold hi_of in B2. rewrite ET in B2.
    destruct (post_complex cp Ecp) as [P1 P2]. unfold hi_of in P1. rewrite ET in P1, P2.
    cbn [members] in P1, P2.
    pose proof (keyed_lookup l 0 idx child Hc) as Hj. cbn [Nat.add] in Hj.
    destruct (build_fields_index _ (P cp) idx _ child Hj) as (_ & F2 & _ & _).
    pose proof (field_lo_le (keyed 0 l) (P cp) idx) as F0.
    set (lo_c := field_lo (P cp) (keyed 0 l) idx) in *.
    destruct (root_ref lo_c child Ho) as (Hvc & _).
    destruct (root_inside lo_c child Ho) as [C1 C2]. unfold chunk in C2.
    destruct (build_elems_keyed (P cp) 0 l) as [E1 _].
    unfold chunk in *. rewrite build_arr in G, H, B2, P1. cbn [fst snd] in G, H, B2, P1.
    rewrite length_app in B2, P1. cbn [length] in B2, P1. rewrite E1 in *.
    apply holds_app in H as [_ Hcell]. specialize (Hcell 0 _ eq_refl).
    rewrite Nat.add_0_r in Hcell.
    set (ca := P cp + length (fst (build_fields build (P cp) (keyed 0 l)))) in *.
    exists lo_c. split; [lia|]. split; [lia|]. split.
    + rewrite (get_agree h0 h') by exact Ha. rewrite G.
      rewrite inside_true by lia. rewrite P1 by lia. rewrite Hcell.
      rewrite (build_elems_lookup l (P cp) 0 idx child Hc). fold lo_c. rewrite Hvc.
      rewrite inside_true by lia. reflexivity.
    + apply (P2 idx _ child Hj Ho).
Qed.

(** The traversal of [a] has repaired everything below it. *)
Lemma node_facts (act : bool) :
  lo <= a <= hi ->
  (lacking t = true -> items_ok h' a act) ->
  facts_in t act lo hi a h'.
Proof.
  intros Hin Hit [|s p] node actn Hs; cbn [subschema] in Hs.
  - injection Hs as <- <-. exists a. cbn [walk]. rewrite inside_true by exact Hin.
    split; [reflexivity|]. split; [exact Hit|].
    intros s child Hc Ho. destruct (node_child s child Hc Ho) as (lo_c & _ & _ & Hn & _ & Hp).
    eauto.
  - destruct (child_of t s) as [child|] eqn:Hc; [|discriminate].
    destruct (is_object child) eqn:Ho; [|discriminate].
    destruct (node_child s child Hc Ho) as (lo_c & B1 & B2 & Hn & Hf & _).
    apply facts_facts_in in Hf.
    destruct (facts_in_mono _ _ _ _ lo hi _ _ B1 B2 Hf p node actn Hs) as (x & Hw & R).
    exists x. cbn [walk]. rewrite Hn. auto.
Qed.

End Assemble.

(** The item schema that an array-typed schema without [items] is given. *)
Definition chosen_items (actions : bool) : jsval :=
  if actions then actions_items else string_items.

Lemma chosen_items_shape (L : nat) (h : heap) (actions : bool) :
  holds h L (chunk L (chosen_items actions)) ->
  exists i, snd (build L (chosen_items actions)) = VRef i /\
    if actions then actions_shape h (VRef i) else string_shape h (VRef i).
Proof.
  intros Hh. unfold chunk in Hh. destruct actions; cbn in Hh |- *.
  - pose proof (Hh 0 _ eq_refl) as H0. pose proof (Hh 1 _ eq_refl) as H1.
    pose proof (Hh 2 _ eq_refl) as H2. pose proof (Hh 3 _ eq_refl) as H3.
    rewrite ?Nat.add_0_r in *. eexists. split; [reflexivity|].
    unfold actions_shape, get. rewrite H3. cbn. split; [reflexivity|].
    exists (L + 2), L, (L + 1). rewrite H2, H1, H0. cbn. repeat split; reflexivity.
  - pose proof (Hh 0 _ eq_refl) as H0. rewrite ?Nat.add_0_r in *.
    eexists. split; [reflexivity|]. unfold string_shape, get. now rewrite H0.
Qed.

Lemma add_items_eq (h : heap) (a : addr) :
  add_items h a =
    if is_str (get h (VRef a) "type") "array" &&
       negb (truthy_value (get h (VRef a) "items"))
    then set (h ++ chunk (length h) (chosen_items (known_as h a "actions"))) a "items"
           (snd (build (length h) (chosen_items (known_as h a "actions"))))
    else h.
Proof.
  unfold add_items, chosen_items, chunk. destruct (_ && _); [|reflexivity].
  destruct (known_as h a "actions"); [|destruct (known_as h a "formats")];
    rewrite alloc_app; reflexivity.
Qed.

Lemma need_field (t : jsval) (k : string) :
  is_object t = true -> need (field_of t k) < need t.
Proof.
  destruct t as [| | | | |l|l]; try discriminate; intros _.
  - cbn. lia.
  - cbn [field_of]. destruct (entry k l) as [x|] eqn:E; [|cbn; lia].
    destruct (entry_index k l x E) as (j & Hj & _).
    apply (need_entry (JObj l) j k x Hj).
Qed.

Lemma need_lacking (t : jsval) : lacking t = true -> 4 <= need t.
Proof.
  destruct t as [| | | | |l|l]; try discriminate. intros H.
  cbn [need]. rewrite H. lia.
Qed.

Section NodeResult.
Variable rec : heap -> value -> option heap.
Variable n : nat.
Hypothesis rec_runs : runs rec n.
Hypothesis rec_prim : forall h v, (forall c, v <> VRef c) -> rec h v = Some h.

(** The traversal of a node whose [items] are in place. *)
Lemma node_after (t : jsval) (a : addr) (h0 : heap) (P : string -> nat)
    (T : string -> jsval) (lo hi : nat) (act : bool) :
  a < length h0 -> lo <= a <= hi ->
  (forall k, In k fields -> placed h0 a k (P k) (T k)) ->
  (forall k k', In k fields -> In k' fields -> k <> k' ->
     P k + length (chunk (P k) (T k)) <= P k' \/ P k' + length (chunk (P k') (T k')) <= P k) ->
  need (T "items") <= n ->
  (forall k, In k fields -> need (T k) <= S n) ->
  tree_entries (T "properties") = tree_entries (field_of t "properties") ->
  (is_object (field_of t "items") = true -> T "items" = field_of t "items") ->
  T "patternProperties" = field_of t "patternProperties" ->
  (forall cp, complex cp = true -> T cp = field_of t cp) ->
  (forall k, In k fields ->
     (k = "items"%string -> is_object (field_of t "items") = true) ->
     is_object (T k) = true -> lo <= P k /\ hi_of P T k <= S hi) ->
  (lacking t = true -> items_ok h0 a act) ->
  exists h', node_run rec a h0 = Some h' /\ extends h0 h' /\ h' !! a = h0 !! a /\
    (forall x, x < length h0 ->
       (forall k, In k fields -> ~ (P k <= x < hi_of P T k)) -> h' !! x = h0 !! x) /\
    facts_in t act lo hi a h'.
Proof.
  intros Ha Hin Hpl Hdis Hni Hnf L1 L2 L3 L4 Hb Hit.
  destruct (node_phases rec n rec_runs rec_prim a h0 P T Ha Hpl Hdis Hni Hnf)
    as (h' & E & He & Hf & Hp).
  assert (Haa : h' !! a = h0 !! a).
  { apply Hf; [exact Ha|]. intros k Hk Hx. destruct (Hpl k Hk) as [_ _ _ O].
    unfold hi_of in Hx. lia. }
  exists h'. split; [exact E|]. split; [exact He|]. split; [exact Haa|].
  split; [exact Hf|].
  unfold node_tasks in Hp.
  apply Forall_cons in Hp as [Q1 Hp]. apply Forall_cons in Hp as [Q2 Hp].
  apply Forall_cons in Hp as [Q3 Hp]. apply Forall_cons in Hp as [Q4 Hp].
  apply Forall_cons in Hp as [Q5 Hp]. apply Forall_cons in Hp as [Q6 _].
  cbn [t_post phase_task] in Q1, Q2, Q3, Q4, Q5, Q6.
  apply (node_facts a h0 h' P T t lo hi Hpl Haa L1 L2 L3 L4 Hb Q1 Q2 Q3).
  - intros cp Hcp. destruct (complex_cases cp Hcp) as [->|[->| ->]]; assumption.
  - exact Hin.
  - intros Hl. eapply items_ok_stable; eauto.
Qed.

End NodeResult.

Lemma need_chosen_items (actions : bool) : need (chosen_items actions) <= 3.
Proof. destruct actions; vm_compute; lia. Qed.

Lemma lacking_items (t : jsval) :
  lacking t = true -> is_object (field_of t "items") = false.
Proof.
  unfold lacking. rewrite andb_true_iff, negb_true_iff. intros [_ H].
  destruct (field_of t "items"); try reflexivity; discriminate.
Qed.

Section NodeRepair.
Variable rec : heap -> value -> option heap.
Variable n : nat.
Hypothesis rec_runs : runs rec n.
Hypothesis rec_prim : forall h v, (forall c, v <> VRef c) -> rec h v = Some h.

(** The traversal of a node whose fields are in place. *)
Lemma node_result (t : jsval) (a : addr) (h : heap) (P : string -> nat)
    (T : string -> jsval) (lo hi : nat) :
  a < length h -> lo <= a <= hi ->
  (forall k, In k fields -> placed h a k (P k) (T k)) ->
  (forall k k', In k fields -> In k' fields -> k <> k' ->
     P k + length (chunk (P k) (T k)) <= P k' \/ P k' + length (chunk (P k') (T k')) <= P k) ->
  is_str (get h (VRef a) "type") "array" = is_string (field_of t "type") "array" ->
  T "items" = field_of t "items" ->
  need (T "items") <= n ->
  (forall k, In k fields -> need (T k) <= S n) ->
  (lacking t = true -> 3 <= n) ->
  tree_entries (T "properties") = tree_entries (field_of t "properties") ->
  T "patternProperties" = field_of t "patternProperties" ->
  (forall cp, complex cp = true -> T cp = field_of t cp) ->
  (forall k, In k fields -> is_object (T k) = true -> lo <= P k /\ hi_of P T k <= S hi) ->
  exists h', node_run rec a (add_items h a) = Some h' /\ extends h h' /\
    (forall x, x < length h -> x <> a ->
       (forall k, In k fields -> ~ (P k <= x < hi_of P T k)) -> h' !! x = h !! x) /\
    (forall k, k <> "items"%string -> get h' (VRef a) k = get h (VRef a) k) /\
    facts_in t (known_as h a "actions") lo hi a h'.
Proof.
  intros Ha Hin Hpl Hdis Hty Lit Hni Hnf Hn3 L1 L3 L4 Hb.
  assert (Hki : In "items"%string fields) by (cbn; tauto).
  rewrite add_items_eq.
  replace (is_str (get h (VRef a) "type") "array" &&
           negb (truthy_value (get h (VRef a) "items"))) with (lacking t).
  2:{ unfold lacking. rewrite Hty. destruct (Hpl "items" Hki) as [G _ _ _].
      now rewrite G, truthy_build, Lit. }
  set (act := known_as h a "actions").
  destruct (lacking t) eqn:El.
  - set (lit := chosen_items act). set (L := length h).
    set (h0 := set (h ++ chunk L lit) a "items" (snd (build L lit))).
    set (P' := fun k => if String.eqb k "items" then L else P k).
    set (T' := fun k => if String.eqb k "items" then lit else T k).
    assert (HaL : a < length (h ++ chunk L lit)) by (rewrite length_app; lia).
    assert (Hl0 : length h0 = L + length (chunk L lit))
      by (unfold h0; rewrite length_set, length_app; reflexivity).
    assert (Hold : forall x, x < L -> x <> a -> h0 !! x = h !! x).
    { intros x Hx Hne. unfold h0. rewrite lookup_set_ne by exact Hne.
      now apply lookup_app_l. }
    assert (Hnew : holds h0 L (chunk L lit)).
    { intros i c Hi. unfold h0. rewrite lookup_set_ne by (unfold L; lia).
      now apply holds_self. }
    assert (Hpl' : forall k, In k fields -> placed h0 a k (P' k) (T' k)).
    { intros k Hk. unfold P', T'. destruct (String.eqb_spec k "items") as [->|Hne].
      - constructor; [|exact Hnew|lia|left; exact Ha].
        unfold h0. rewrite get_set by exact HaL.
        now rewrite bool_decide_eq_true_2 by reflexivity.
      - destruct (Hpl k Hk) as [G H L0 O]. constructor; [| |lia|exact O].
        + unfold h0. rewrite get_set by exact HaL.
          apply String.eqb_neq in Hne. rewrite Hne, andb_false_r.
          rewrite get_app_old by exact Ha. exact G.
        + intros i c Hi. pose proof (lookup_lt_Some _ _ _ Hi) as Hlt.
          rewrite Hold; [now apply H|unfold L; lia|lia]. }
    destruct (node_after rec n rec_runs rec_prim t a h0 P' T' lo hi act)
      as (h' & E & He & Haa & Hf & Hfa); try assumption.
    + lia.
    + intros k k' Hk Hk' Hne. unfold P', T'.
      destruct (String.eqb_spec k "items") as [->|N1];
        destruct (String.eqb_spec k' "items") as [->|N2].
      * congruence.
      * right. destruct (Hpl k' Hk') as [_ _ L0 _]. exact L0.
      * left. destruct (Hpl k Hk) as [_ _ L0 _]. exact L0.
      * now apply Hdis.
    + unfold T'. cbn. pose proof (need_chosen_items act). specialize (Hn3 eq_refl).
      unfold lit. lia.
    + intros k Hk. unfold T'. destruct (String.eqb k "items"); [|now apply Hnf].
      pose proof (need_chosen_items act). specialize (Hn3 eq_refl). unfold lit. lia.
    + intros Ho. rewrite (lacking_items t El) in Ho. discriminate.
    + intros cp Hcp. unfold T'.
      destruct (complex_cases cp Hcp) as [->|[->| ->]]; cbn; now apply L4.
    + intros k Hk Hik Ho. unfold hi_of, P', T' in *.
      destruct (String.eqb_spec k "items") as [->|Hne].
      * specialize (Hik eq_refl). rewrite (lacking_items t El) in Hik. discriminate.
      * now apply Hb.
    + intros _. destruct (chosen_items_shape L h0 act Hnew) as (i & Ei & Hs).
      exists i. split; [|exact Hs].
      unfold h0. rewrite get_set by exact HaL.
      rewrite bool_decide_eq_true_2 by reflexivity. exact Ei.
    + exists h'. split; [exact E|]. split.
      { eapply extends_trans; [|exact He]. unfold h0.
        eapply extends_trans; [apply extends_app|]. now apply extends_set. }
      split.
      { intros x Hx Hne Hout. rewrite Hf; [now apply Hold|lia|].
        intros k Hk. unfold hi_of, P', T'.
        destruct (String.eqb_spec k "items") as [->|N]; [unfold L; lia|].
        apply (Hout k Hk). }
      split; [|exact Hfa].
      intros k Hk. rewrite (get_agree h0 h') by exact Haa.
      unfold h0. rewrite get_set by exact HaL.
      apply String.eqb_neq in Hk. rewrite Hk, andb_false_r. now apply get_app_old.
  - destruct (node_after rec n rec_runs rec_prim t a h P T lo hi act)
      as (h' & E & He & Haa & Hf & Hfa); try assumption.
    + intros _. exact Lit.
    + intros k Hk _. now apply Hb.
    + intros Hl. congruence.
    + exists h'. split; [exact E|]. split; [exact He|]. split.
      { intros x Hx _ Hout. now apply Hf. }
      split; [|exact Hfa]. intros k _. now apply get_agree.
Qed.

End NodeRepair.

Lemma need_object (t : jsval) : is_object t = true -> 1 <= need t.
Proof. destruct t; try discriminate; intros _; cbn [need]; lia. Qed.

(** With a budget of at least [need t], the traversal of an intact tree [t]
    returns, changes nothing outside of the tree, and repairs all of it. *)
Lemma run_node (fuel : nat) : runs (fixArrayProperties fuel) fuel.
Proof.
  induction fuel as [|n IH]; intros t lo h Hn Ho Hi.
  - pose proof (need_object t Ho). lia.
  - set (a := root lo t).
    assert (Hf : forall k, k <> "parent"%string -> k <> "name"%string ->
               placed h a k (place_of lo t k) (field_of t k) /\
               lo <= place_of lo t k /\
               place_of lo t k + length (chunk (place_of lo t k) (field_of t k)) <= a).
    { intros k N1 N2. destruct (intact_field h lo t k Hi N1 N2) as (G & H & B1 & B2).
      fold a in G, B2.
      assert (Ha : a < length h).
      { destruct Hi as (cs & c & c' & E & _ & Hc & _).
        apply lookup_lt_Some in Hc. unfold a, root. unfold chunk in E.
        rewrite E, length_app. cbn. lia. }
      split; [|split; assumption]. constructor; auto. lia. }
    assert (Ha : a < length h).
    { destruct Hi as (cs & c & c' & E & _ & Hc & _).
      apply lookup_lt_Some in Hc. unfold a, root. unfold chunk in E.
      rewrite E, length_app. cbn. lia. }
    assert (Hfk : forall k, In k fields -> k <> "parent"%string /\ k <> "name"%string).
    { intros k Hk. cbn in Hk. intuition (subst; discriminate). }
    destruct (root_inside lo t Ho) as [R1 R2]. fold a in R1, R2.
    destruct (node_result (fixArrayProperties n) n IH (fixArrayProperties_prim n)
                t a h (place_of lo t) (field_of t) lo a)
      as (h' & E & He & Hfr & Hg & Hfa); try assumption; try reflexivity.
    + lia.
    + intros k Hk. destruct (Hfk k Hk) as [N1 N2]. apply (Hf k N1 N2).
    + intros k k' _ _ Hne. now apply intact_fields_disjoint.
    + destruct (Hf "type"%string) as ([G _ _ _] & _); try discriminate.
      rewrite G. apply is_str_build.
    + pose proof (need_field t "items" Ho). lia.
    + intros k _. pose proof (need_field t k Ho). lia.
    + intros Hl. pose proof (need_lacking t Hl). lia.
    + intros k Hk _. destruct (Hfk k Hk) as [N1 N2].
      destruct (Hf k N1 N2) as (_ & B1 & B2). unfold hi_of. lia.
    + exists h'. split; [exact E|]. split; [exact He|]. split; [|split].
      * intros x Hx Hout. apply Hfr; [exact Hx|lia|].
        intros k Hk. destruct (Hfk k Hk) as [N1 N2].
        destruct (Hf k N1 N2) as (_ & B1 & B2). unfold hi_of. lia.
      * exact Hg.
      * apply facts_facts_in. exact Hfa.
Qed.

(** *** The recursion budget *)

Lemma need_fields_bound (l : list (string * jsval)) :
  Forall (fun kv => forall lo, need (snd kv) <= length (chunk lo (snd kv)) + 3) l ->
  forall lo, list_max (List.map (fun kv => need (snd kv)) l)
             <= length (fst (build_fields build lo l)) + 3.
Proof.
  induction 1 as [|[k x] r Hx Hr IH]; intros lo; [cbn; lia|].
  cbn [List.map]. rewrite list_max_cons, build_fields_cons. cbn [fst snd] in *.
  rewrite length_app. specialize (Hx lo). unfold chunk in Hx.
  specialize (IH (lo + length (fst (build lo x)))). lia.
Qed.

Lemma map_need_keyed (l : list jsval) :
  forall i, List.map (fun kv => need (snd kv)) (keyed i l) = List.map need l.
Proof. induction l as [|x r IH]; intros i; cbn; [reflexivity|]. now rewrite IH. Qed.

(** The budget that a tree needs is bounded by the number of its objects. *)
Lemma need_bound (t : jsval) : forall lo, need t <= length (chunk lo t) + 3.
Proof.
  induction t as [| | | | |l IH|l IH] using jsval_nested_ind; intros lo;
    try (cbn; lia).
  - unfold chunk. rewrite build_arr. cbn [fst need]. rewrite length_app. cbn [length].
    destruct (build_elems_keyed lo 0 l) as [-> _].
    rewrite <- (map_need_keyed l 0).
    pose proof (need_fields_bound (keyed 0 l) (keyed_Forall _ l IH 0) lo). lia.
  - unfold chunk. rewrite build_obj. cbn [fst need]. rewrite length_app. cbn [length].
    pose proof (need_fields_bound l IH lo). destruct (lacking (JObj l)); lia.
Qed.

(** *** The root *)

Lemma ensure_done (h : heap) (schema : value) (t : jsval) (h1 : heap) (a : addr) :
  truthy_value schema = true ->
  stringify (S (length h)) [] h schema = Done t ->
  alloc t h = (h1, VRef a) ->
  _ensureValidToolSchema h schema = (repair_copy h1 a, VRef a).
Proof.
  intros Ht Hs Ha. unfold _ensureValidToolSchema. rewrite Ht, Hs, Ha. cbn [negb].
  unfold repair_copy, with_required, with_properties.
  destruct (is_str (get h1 (VRef a) "type") "object").
  - destruct (fixArrayProperties _ _ _); reflexivity.
  - destruct (is_str (get h1 (VRef a) "type") "array" && _); [|reflexivity].
    now rewrite alloc_string_items.
Qed.

Lemma subschema_flag (t : jsval) (b b' : bool) (p : list step) (node : jsval) (act : bool) :
  subschema t b p = Some (node, act) ->
  exists act', subschema t b' p = Some (node, act') /\ (p <> [] -> act' = act) /\
               (p = [] -> node = t).
Proof.
  destruct p as [|s p]; cbn [subschema].
  - intros [= <- <-]. exists b'. repeat split; congruence.
  - intros H. exists act. repeat split; auto. discriminate.
Qed.

Lemma intact_alloc (t : jsval) (h : heap) :
  is_object t = true -> intact (h ++ chunk (length h) t) (length h) t.
Proof.
  intros Ho. destruct (root_ref (length h) t Ho) as (_ & cs & c & E & R).
  exists cs, c, c. split; [exact E|]. rewrite E.
  pose proof (holds_self h (cs ++ [c])) as Hh. apply holds_app in Hh as [H1 H2].
  split; [exact H1|]. split; [|reflexivity].
  specialize (H2 0 c eq_refl). now rewrite Nat.add_0_r in H2.
Qed.

(** The traversal that [_ensureValidToolSchema] starts on the copy of an
    object-typed schema [t] returns and has repaired all of the copy. *)
Lemma root_result (h1 : heap) (L : nat) (t : jsval) :
  is_object t = true -> intact h1 L t ->
  (forall x c, h1 !! x = Some c -> x <= root L t) ->
  is_string (field_of t "type") "object" = true ->
  let a := root L t in
  let h3 := with_properties (with_required h1 a) a in
  exists h', fixArrayProperties (length h3 + 4) h3 (VRef a) = Some h' /\
    extends h3 h' /\
    facts_in t (known_as h3 a "actions") 0 (length h3) a h'.
Proof.
  intros Ho Hi Htop Hty a h3.
  assert (Ha : a < length h1).
  { destruct Hi as (cs & c & c' & E & _ & Hc & _).
    apply lookup_lt_Some in Hc. unfold a, root. unfold chunk in E.
    rewrite E, length_app. cbn. lia. }
  assert (Hlen1 : length h1 = S a).
  { destruct (lookup_lt_is_Some_2 h1 (length h1 - 1)) as [c Hc]; [lia|].
    specialize (Htop _ _ Hc). fold a in Htop. lia. }
  assert (Hf : forall k, k <> "parent"%string -> k <> "name"%string ->
             placed h1 a k (place_of L t k) (field_of t k)).
  { intros k N1 N2. destruct (intact_field h1 L t k Hi N1 N2) as (G & H & B1 & B2).
    fold a in G, B2. constructor; auto. lia. }
  destruct (with_required_spec h1 a Ha) as (R1 & R2 & R3 & R4).
  set (h2 := with_required h1 a) in *.
  assert (Ha2 : a < length h2) by lia.
  destruct (with_properties_spec h2 a Ha2) as (Q1 & Q2 & Q3 & Q4).
  fold h3 in Q1, Q2, Q3, Q4.
  assert (Hold : forall x, x < a -> h3 !! x = h1 !! x).
  { intros x Hx. rewrite Q3 by lia. apply R3; lia. }
  assert (Hget : forall k, k <> "required"%string -> k <> "properties"%string ->
                 get h3 (VRef a) k = get h1 (VRef a) k).
  { intros k N1 N2. rewrite Q4 by exact N2. now apply R4. }
  set (tp := field_of t "properties").
  set (P := fun k => if String.eqb k "properties" && negb (truthy tp)
                     then length h2 else place_of L t k).
  set (T := fun k => if String.eqb k "properties" && negb (truthy tp)
                     then JObj [] else field_of t k).
  assert (Hgp : truthy_value (get h2 (VRef a) "properties") = truthy tp).
  { rewrite R4 by discriminate. destruct (Hf "properties"%string) as [G _ _ _];
      try discriminate. rewrite G. apply truthy_build. }
  assert (Hpl : forall k, In k fields -> placed h3 a k (P k) (T k)).
  { intros k Hk. unfold P, T.
    destruct (String.eqb_spec k "properties") as [->|Hne]; cbn [andb].
    - destruct (Hf "properties"%string) as [G H L0 O]; try discriminate.
      destruct (truthy tp) eqn:Et; cbn [negb].
      + assert (E3 : h3 = h2) by (unfold h3, with_properties; now rewrite Hgp).
        constructor; [| |lia|exact O].
        * rewrite E3, R4 by discriminate. exact G.
        * intros i c Hi'. pose proof (lookup_lt_Some _ _ _ Hi') as Hlt.
          rewrite Hold by lia. now apply H.
      + assert (E3 : h3 = set (h2 ++ [Cell false [] []]) a "properties" (VRef (length h2))).
        { unfold h3, with_properties. rewrite Hgp. cbn [negb].
          now rewrite (proj2 (alloc_empty h2)). }
        assert (Ha2' : a < length (h2 ++ [Cell false [] []]))
          by (rewrite length_app; lia).
        assert (Hlen3 : length h3 = S (length h2))
          by (rewrite E3, length_set, length_app; cbn; lia).
        constructor.
        * rewrite E3, get_set by exact Ha2'.
          rewrite bool_decide_eq_true_2 by reflexivity. cbn.
          now rewrite Nat.add_0_r.
        * unfold chunk. cbn. intros [|i] c Hi'; [|destruct i; discriminate].
          injection Hi' as <-.
          rewrite Nat.add_0_r, E3, lookup_set_ne by lia.
          rewrite lookup_app_r by lia. now rewrite Nat.sub_diag.
        * unfold chunk. cbn. lia.
        * left. lia.
    - assert (N1 : k <> "parent"%string /\ k <> "name"%string /\ k <> "required"%string).
      { cbn in Hk. intuition (subst; discriminate). }
      destruct N1 as (N1 & N2 & N3). destruct (Hf k N1 N2) as [G H L0 O].
      constructor; [| |lia|exact O].
      + rewrite Hget by assumption. exact G.
      + intros i c Hi'. pose proof (lookup_lt_Some _ _ _ Hi') as Hlt.
        rewrite Hold by lia. now apply H. }
  assert (Hbelow : forall k, P k = place_of L t k /\ T k = field_of t k \/
                             P k = length h2 /\ T k = JObj [] /\ k = "properties"%string /\
                             truthy tp = false).
  { intros k. unfold P, T. destruct (String.eqb_spec k "properties") as [->|Hne];
      cbn [andb]; [|now left].
    destruct (truthy tp); cbn [negb]; [now left|right; auto]. }
  assert (Hreg : forall k, In k fields ->
                 place_of L t k + length (chunk (place_of L t k) (field_of t k)) <= a).
  { intros k Hk.
    assert (N : k <> "parent"%string /\ k <> "name"%string)
      by (cbn in Hk; intuition (subst; discriminate)).
    destruct N as [N1 N2]. destruct (intact_field h1 L t k Hi N1 N2) as (_ & _ & _ & B).
    exact B. }
  set (n := length h3 + 3).
  replace (length h3 + 4) with (S n) by (unfold n; lia).
  destruct (node_result (fixArrayProperties n) n (run_node n) (fixArrayProperties_prim n)
              t a h3 P T 0 (length h3))
    as (h' & E & He & Hfr & Hg & Hfa); try assumption.
  - lia.
  - lia.
  - intros k k' Hk Hk' Hne.
    destruct (Hbelow k) as [[E1 E2]|(E1 & E2 & -> & _)];
      destruct (Hbelow k') as [[E1' E2']|(E1' & E2' & -> & _)].
    + rewrite E1, E2, E1', E2'. now apply intact_fields_disjoint.
    + left. rewrite E1, E2, E1'. pose proof (Hreg k Hk). lia.
    + right. rewrite E1, E1', E2'. pose proof (Hreg k' Hk'). lia.
    + congruence.
  - rewrite Hget by discriminate. destruct (Hf "type"%string) as [G _ _ _];
      try discriminate. rewrite G. apply is_str_build.
  - reflexivity.
  - pose proof (need_field t "items" Ho). pose proof (need_bound t L).
    assert (length (chunk L t) <= length h1).
    { destruct (root_inside L t Ho) as [_ R]. fold a in R. lia. }
    change (T "items") with (field_of t "items"). unfold n. lia.
  - intros k Hk. pose proof (need_bound t L).
    assert (length (chunk L t) <= length h1).
    { destruct (root_inside L t Ho) as [_ R]. fold a in R. lia. }
    destruct (Hbelow k) as [[_ ->]|(_ & -> & _)].
    + pose proof (need_field t k Ho). unfold n. lia.
    + cbn. unfold n. lia.
  - intros _. unfold n. lia.
  - destruct (Hbelow "properties"%string) as [[_ ->]|(_ & -> & _ & Et)]; [reflexivity|].
    fold tp. destruct tp; try discriminate; reflexivity.
  - reflexivity.
  - intros cp Hcp. unfold T.
    destruct (complex_cases cp Hcp) as [->|[->| ->]]; reflexivity.
  - intros k Hk _. destruct (Hpl k Hk) as [_ _ L0 _]. unfold hi_of. lia.
  - exists h'. split; [exact E|]. split; [exact He|exact Hfa].
Qed.

(** What [_ensureValidToolSchema] returns for a schema that serialises to an
    object-typed tree [t]: a repaired copy of [t]. *)
Lemma ensure_object (h : heap) (schema : value) (t : jsval) :
  truthy_value schema = true ->
  stringify (S (length h)) [] h schema = Done t ->
  is_string (field_of t "type") "object" = true ->
  exists a h3 h',
    _ensureValidToolSchema h schema = (h', VRef a) /\
    length h <= a < length h3 /\ extends h3 h' /\
    facts_in t (known_as h3 a "actions") 0 (length h3) a h'.
Proof.
  intros Ht Hs Hty.
  assert (Ho : is_object t = true) by (destruct t; try discriminate; reflexivity).
  set (L := length h). set (a := root L t). set (h1 := h ++ chunk L t).
  destruct (root_ref L t Ho) as (Hv & _). destruct (root_inside L t Ho) as [R1 R2].
  assert (Ha : alloc t h = (h1, VRef a)).
  { rewrite alloc_app. fold L. rewrite Hv. reflexivity. }
  assert (Hl1 : length h1 = S a) by (unfold h1; rewrite length_app; fold L a in R2; lia).
  pose proof (intact_alloc t h Ho) as Hi. fold L h1 in Hi.
  destruct (intact_field h1 L t "type" Hi) as (G & _); try discriminate. fold a in G.
  rewrite (ensure_done h schema t h1 a Ht Hs Ha). unfold repair_copy.
  rewrite G, is_str_build, Hty.
  destruct (root_result h1 L t Ho Hi) as (h' & E & He & Hf).
  { intros x c Hc. apply lookup_lt_Some in Hc. fold a. lia. }
  { exact Hty. }
  fold a in E, He, Hf. rewrite E.
  set (h3 := with_properties (with_required h1 a) a) in *.
  exists a, h3, h'. split; [reflexivity|]. split; [|auto].
  destruct (with_required_spec h1 a) as (_ & Q & _); [lia|].
  destruct (with_properties_spec (with_required h1 a) a) as (_ & Q' & _); [lia|].
  fold h3 in Q'. fold L a in R1. lia.
Qed.


Definition tags_schema : jsval :=
  JObj [("type"%string, JStr "object");
        ("properties"%string,
         JObj [("actions"%string, JObj [("type"%string, JStr "array")])])].


End Schema.
